(** * Cortexa: attribution pipeline, provenance graph and footprint engine

    A shallow embedding of the Python sources

      - [cortex/attribution/eas.py]        (the EAS kernel),
      - [cortex/api/transactions.py]       (single-shot and two-phase pipeline,
                                            the read endpoints),
      - [cortex/api/attribution.py]        (score queries),
      - [cortex/api/memories.py]           (reading and soft-deleting a memory),
      - [cortex/models.py]                 (the variance of a profile),
      - [cortex/metrics/calculator.py]     (transaction cost, Gini coefficient,
                                            token waste rate, contradiction
                                            risk),
      - [cortex/compliance/provenance.py]  (provenance recorders, footprints,
                                            certificate hash),

    and of the library functions they rest on where a property depends on
    them ([json.dumps], [hashlib.sha256]), together with the properties the
    specification states about them.

    Numbers.  The EAS kernel and the Welford upsert compute in IEEE doubles;
    they are modelled over the real numbers [R], the idealisation under which
    the specification's "modulo floating-point error" statements are exact.
    The one place where a label is decided by a comparison of doubles, the
    trend of the Welford upsert, is modelled with binary64 arithmetic.
    Scores stored in the provenance graph are only ever compared with zero and
    are modelled as rationals [Q], so that the graph queries compute. *)

From Stdlib Require Import Floats Epsilon.
From Stdlib Require Import String Ascii.
From Stdlib Require Import Reals Lra Lia Bool Arith ZArith NArith QArith.
From Stdlib Require Import List Permutation.
From Stdlib Require OrderedTypeEx.
Import ListNotations.

Set Implicit Arguments.

(** ** Exceptions and results

    Python exceptions that the modelled code can raise.  [HTTPException]
    carries the status code given at the raise site. *)

Inductive exn : Type :=
| ValueError
| IntegrityError
| AttributeError
| MultipleResultsFound
| HTTPException (status_code : nat).

Inductive result (A : Type) : Type :=
| Ok (a : A)
| Raise (e : exn).

Arguments Ok {A} a.
Arguments Raise {A} e.

Definition bind {A B : Type} (r : result A) (k : A -> result B) : result B :=
  match r with
  | Ok a => k a
  | Raise e => Raise e
  end.

Notation "x <- r ;; k" := (bind r (fun x => k))
  (at level 61, r at next level, right associativity).

(** A point in time ([datetime]), on a linear time axis. *)
Definition datetime : Type := Z.

(** ** The EAS kernel ([cortex/attribution/eas.py]) *)

Module Eas.

Local Open Scope R_scope.

(** What [np.asarray] can be handed as [memory_embeddings]: a one-dimensional
    array (a flat list of floats; the empty Python list [[]] is of this kind,
    with shape [(0,)]), or a two-dimensional array of shape [(k, d)]. *)
Inductive embeddings : Type :=
| Flat (v : list R)
| Rows (d : nat) (rows : list (list R)).

(** A two-dimensional float array: [shape = (length mrows, ncols)]. *)
Record matrix : Type := Matrix { ncols : nat; mrows : list (list R) }.

Definition embeddings_ok (E : embeddings) : Prop :=
  match E with
  | Flat _ => True
  | Rows d rows => Forall (fun row => length row = d) rows
  end.

(** [M = np.asarray(...)] followed by [if M.ndim == 1: M = M.reshape(1, -1)]. *)
Definition as_matrix (E : embeddings) : matrix :=
  match E with
  | Flat v => Matrix (length v) [v]
  | Rows d rows => Matrix d rows
  end.

Definition shape0 (M : matrix) : nat := length (mrows M).

Definition rsum (l : list R) : R := fold_right Rplus 0 l.

Definition dot (u v : list R) : R :=
  rsum (map (fun p => fst p * snd p) (combine u v)).

(** [np.linalg.norm] of a vector. *)
Definition norm (v : list R) : R := sqrt (dot v v).

(** [np.where(norms_m == 0, 1.0, norms_m)] on one entry. *)
Definition guard_zero (n : R) : R := if Req_dec_T n 0 then 1 else n.

Definition scale_down (n : R) (v : list R) : list R := map (fun x => x / n) v.

(** [matrix_n @ vector_n]: numpy raises [ValueError] when the inner
    dimensions differ. *)
Definition matvec (M : matrix) (v : list R) : result (list R) :=
  if Nat.eqb (ncols M) (length v)
  then Ok (map (fun row => dot row v) (mrows M))
  else Raise ValueError.

Definition _cosine_similarities (M : matrix) (vector : list R) : result (list R) :=
  let matrix_n :=
    Matrix (ncols M)
           (map (fun row => scale_down (guard_zero (norm row)) row) (mrows M)) in
  let norm_v := norm vector in
  if Req_dec_T norm_v 0
  then Ok (repeat 0 (shape0 M))
  else matvec matrix_n (scale_down norm_v vector).

(** The returned dict, without [compute_ms] (wall-clock time, not a function
    of the inputs). *)
Record eas_result : Type := EasResult { scores : list R; raw_scores : list R }.

Definition empty_result : eas_result := EasResult [] [].

(** [np.maximum(sim, 0.0)]. *)
Definition clamp (sim : list R) : list R := map (fun x => Rmax x 0) sim.

(** Element-wise product of two arrays of the same shape. *)
Definition hadamard (a b : list R) : list R :=
  map (fun p => fst p * snd p) (combine a b).

Definition compute_eas (memory_embeddings : embeddings)
           (query_embedding response_embedding : list R) : result eas_result :=
  let M := as_matrix memory_embeddings in
  let q := query_embedding in
  let r := response_embedding in
  let k := shape0 M in
  if Nat.eqb k 0 then Ok empty_result
  else
    sim_mr <- _cosine_similarities M r ;;
    sim_mq <- _cosine_similarities M q ;;
    let sim_mr := clamp sim_mr in
    let sim_mq := clamp sim_mq in
    let raw := hadamard sim_mr sim_mq in
    let total := rsum raw in
    let scores :=
      if Rlt_dec 0 total
      then map (fun x => x / total) raw
      else repeat (1 / INR k) k in
    Ok (EasResult scores raw).

(** The cosine similarity of one row with a vector, as
    [_cosine_similarities] computes it: zero when the vector has norm zero,
    otherwise the dot product of the two normalised vectors. *)
Definition cosine (row v : list R) : R :=
  if Req_dec_T (norm v) 0 then 0
  else dot (scale_down (guard_zero (norm row)) row) (scale_down (norm v) v).

(** The raw product of one memory row. *)
Definition raw_of (q r row : list R) : R :=
  Rmax (cosine row r) 0 * Rmax (cosine row q) 0.

(** *** Facts about sums and the helpers *)

Lemma rsum_repeat (x : R) (n : nat) : rsum (repeat x n) = INR n * x.
Proof.
  induction n as [|n IH].
  - simpl. lra.
  - rewrite S_INR. simpl repeat. unfold rsum in *. simpl. rewrite IH. lra.
Qed.

Lemma rsum_scale (c : R) (l : list R) :
  rsum (map (fun x => x / c) l) = rsum l / c.
Proof.
  unfold rsum. induction l as [|x l IH]; simpl.
  - lra.
  - rewrite IH. lra.
Qed.

Lemma rsum_nonneg (l : list R) : Forall (fun x => 0 <= x) l -> 0 <= rsum l.
Proof.
  unfold rsum. induction 1 as [|x l Hx _ IH]; simpl; lra.
Qed.

Lemma rsum_zeros (n : nat) : rsum (repeat 0 n) = 0.
Proof. rewrite rsum_repeat. lra. Qed.

Lemma clamp_nonneg (l : list R) : Forall (fun x => 0 <= x) (clamp l).
Proof.
  unfold clamp. apply Forall_forall. intros y Hy.
  apply in_map_iff in Hy as (x & <- & _). apply Rmax_r.
Qed.

Lemma clamp_length (l : list R) : length (clamp l) = length l.
Proof. unfold clamp. apply length_map. Qed.

Lemma clamp_zeros (n : nat) : clamp (repeat 0 n) = repeat 0 n.
Proof.
  unfold clamp. induction n as [|n IH]; simpl; [reflexivity|].
  rewrite IH. f_equal. apply Rmax_left. lra.
Qed.

Lemma hadamard_nonneg (a b : list R) :
  Forall (fun x => 0 <= x) a -> Forall (fun x => 0 <= x) b ->
  Forall (fun x => 0 <= x) (hadamard a b).
Proof.
  intros Ha. revert b. unfold hadamard.
  induction Ha as [|x a Hx _ IH]; intros b Hb; simpl; [constructor|].
  destruct Hb as [|y b Hy Hb]; simpl; constructor.
  - apply Rmult_le_pos; assumption.
  - apply IH. assumption.
Qed.

Lemma hadamard_length (a b : list R) :
  length (hadamard a b) = Nat.min (length a) (length b).
Proof. unfold hadamard. rewrite length_map. apply length_combine. Qed.

Lemma hadamard_zeros_l (n : nat) (b : list R) :
  length b = n -> hadamard (repeat 0 n) b = repeat 0 n.
Proof.
  revert b. unfold hadamard.
  induction n as [|n IH]; intros [|y b] Hlen; simpl in *; try discriminate;
    try reflexivity.
  rewrite IH by lia. f_equal. lra.
Qed.

Lemma hadamard_zeros_r (n : nat) (a : list R) :
  length a = n -> hadamard a (repeat 0 n) = repeat 0 n.
Proof.
  revert a. unfold hadamard.
  induction n as [|n IH]; intros [|x a] Hlen; simpl in *; try discriminate;
    try reflexivity.
  rewrite IH by lia. f_equal. lra.
Qed.

(** [_cosine_similarities] returns one entry per row whenever the vector has
    zero norm or the inner dimensions agree. *)
Lemma cosine_similarities_ok (M : matrix) (v : list R) :
  ncols M = length v ->
  exists sim, _cosine_similarities M v = Ok sim /\ length sim = shape0 M.
Proof.
  intros Hd. unfold _cosine_similarities.
  destruct (Req_dec_T (norm v) 0) as [_|_].
  - eexists. split; [reflexivity|]. apply repeat_length.
  - unfold matvec, scale_down. simpl ncols. rewrite length_map.
    rewrite (proj2 (Nat.eqb_eq _ _) Hd).
    eexists. split; [reflexivity|].
    simpl mrows. rewrite !length_map. reflexivity.
Qed.

Lemma cosine_similarities_zero_norm (M : matrix) (v : list R) :
  norm v = 0 -> _cosine_similarities M v = Ok (repeat 0 (shape0 M)).
Proof.
  intros Hn. unfold _cosine_similarities.
  destruct (Req_dec_T (norm v) 0) as [_|Hne]; [reflexivity|contradiction].
Qed.

(** The shared core of the normalisation step: with non-negative raw
    products, the branch on [total > 0] yields non-negative scores that sum
    to one. *)
Lemma normalise_sums_to_one (raw : list R) (k : nat) :
  (1 <= k)%nat ->
  Forall (fun x => 0 <= x) raw ->
  let total := rsum raw in
  let scores :=
    if Rlt_dec 0 total then map (fun x => x / total) raw
    else repeat (1 / INR k) k in
  Forall (fun x => 0 <= x) scores /\ rsum scores = 1.
Proof.
  intros Hk Hraw total scores. subst scores.
  assert (HINR : 0 < INR k) by (apply lt_0_INR; lia).
  destruct (Rlt_dec 0 total) as [Hpos|Hnpos].
  - split.
    + apply Forall_forall. intros y Hy.
      apply in_map_iff in Hy as (x & <- & Hx).
      rewrite Forall_forall in Hraw. specialize (Hraw x Hx).
      apply Rmult_le_pos; [assumption|].
      left. apply Rinv_0_lt_compat. assumption.
    + rewrite rsum_scale. fold total. field. lra.
  - split.
    + apply Forall_forall. intros y Hy. apply repeat_spec in Hy. subst y.
      unfold Rdiv. rewrite Rmult_1_l. left. apply Rinv_0_lt_compat. assumption.
    + rewrite rsum_repeat. field. lra.
Qed.

(** What [compute_eas] returns when [k >= 1] and the inner dimensions agree. *)
Lemma compute_eas_unfold (E : embeddings) (q r : list R) :
  (1 <= shape0 (as_matrix E))%nat ->
  ncols (as_matrix E) = length q ->
  ncols (as_matrix E) = length r ->
  exists sim_mr sim_mq,
    _cosine_similarities (as_matrix E) r = Ok sim_mr /\
    _cosine_similarities (as_matrix E) q = Ok sim_mq /\
    length sim_mr = shape0 (as_matrix E) /\
    length sim_mq = shape0 (as_matrix E) /\
    let raw := hadamard (clamp sim_mr) (clamp sim_mq) in
    let total := rsum raw in
    compute_eas E q r =
    Ok (EasResult
          (if Rlt_dec 0 total then map (fun x => x / total) raw
           else repeat (1 / INR (shape0 (as_matrix E))) (shape0 (as_matrix E)))
          raw).
Proof.
  intros Hk Hq Hr.
  destruct (cosine_similarities_ok (as_matrix E) r Hr) as (sim_mr & Emr & Lmr).
  destruct (cosine_similarities_ok (as_matrix E) q Hq) as (sim_mq & Emq & Lmq).
  exists sim_mr, sim_mq. repeat split; try assumption.
  unfold compute_eas.
  destruct (Nat.eqb_spec (shape0 (as_matrix E)) 0) as [H0|_]; [lia|].
  rewrite Emr, Emq. reflexivity.
Qed.

(** With a zero-norm query or response the raw products all vanish and the
    uniform fallback is taken. *)
Lemma compute_eas_zero_norm (E : embeddings) (q r : list R) :
  (1 <= shape0 (as_matrix E))%nat ->
  ncols (as_matrix E) = length q ->
  ncols (as_matrix E) = length r ->
  norm q = 0 \/ norm r = 0 ->
  let k := shape0 (as_matrix E) in
  compute_eas E q r = Ok (EasResult (repeat (1 / INR k) k) (repeat 0 k)).
Proof.
  intros Hk Hq Hr Hz k.
  destruct (compute_eas_unfold E q r Hk Hq Hr)
    as (sim_mr & sim_mq & Emr & Emq & Lmr & Lmq & Heq).
  cbv zeta in Heq. rewrite Heq. clear Heq.
  assert (Hraw : hadamard (clamp sim_mr) (clamp sim_mq) = repeat 0 k).
  { destruct Hz as [Hz|Hz].
    - rewrite (cosine_similarities_zero_norm _ _ Hz) in Emq.
      injection Emq as <-. rewrite clamp_zeros.
      apply hadamard_zeros_r. rewrite clamp_length. exact Lmr.
    - rewrite (cosine_similarities_zero_norm _ _ Hz) in Emr.
      injection Emr as <-. rewrite clamp_zeros.
      apply hadamard_zeros_l. rewrite clamp_length. exact Lmq. }
  rewrite Hraw, rsum_zeros.
  destruct (Rlt_dec 0 0) as [Habs|_]; [lra|]. reflexivity.
Qed.

Lemma norm_zeros3 : norm [0; 0; 0] = 0.
Proof.
  unfold norm, dot, rsum. simpl.
  replace (0 * 0 + (0 * 0 + (0 * 0 + 0))) with 0 by lra. apply sqrt_0.
Qed.

Lemma norm_unit3_x : norm [1; 0; 0] = 1.
Proof.
  unfold norm, dot, rsum. simpl.
  replace (1 * 1 + (0 * 0 + (0 * 0 + 0))) with 1 by lra. apply sqrt_1.
Qed.

Lemma norm_unit3_y : norm [0; 1; 0] = 1.
Proof.
  unfold norm, dot, rsum. simpl.
  replace (0 * 0 + (1 * 1 + (0 * 0 + 0))) with 1 by lra. apply sqrt_1.
Qed.

Lemma map_const_repeat {A : Type} (c : R) (l : list A) :
  map (fun _ => c) l = repeat c (length l).
Proof. induction l as [|a l IH]; simpl; [reflexivity|]. rewrite IH. reflexivity. Qed.

(** [_cosine_similarities] entry by entry. *)
Lemma cosine_similarities_closed (M : matrix) (v : list R) :
  ncols M = length v ->
  _cosine_similarities M v = Ok (map (fun row => cosine row v) (mrows M)).
Proof.
  intros Hd. unfold _cosine_similarities, cosine, shape0.
  destruct (Req_dec_T (norm v) 0) as [_|_].
  - rewrite map_const_repeat. reflexivity.
  - unfold matvec, scale_down at 2. simpl ncols. rewrite length_map.
    rewrite (proj2 (Nat.eqb_eq _ _) Hd). simpl mrows. rewrite map_map.
    reflexivity.
Qed.

Lemma hadamard_clamp_map {A : Type} (f g : A -> R) (l : list A) :
  hadamard (clamp (map f l)) (clamp (map g l))
  = map (fun x => Rmax (f x) 0 * Rmax (g x) 0) l.
Proof.
  unfold hadamard, clamp. induction l as [|a l IH]; simpl; [reflexivity|].
  rewrite IH. reflexivity.
Qed.

Lemma norm_unit2_x : norm [1; 0] = 1.
Proof.
  unfold norm, dot, rsum. simpl.
  replace (1 * 1 + (0 * 0 + 0)) with 1 by lra. apply sqrt_1.
Qed.

Lemma norm_unit2_y : norm [0; 1] = 1.
Proof.
  unfold norm, dot, rsum. simpl.
  replace (0 * 0 + (1 * 1 + 0)) with 1 by lra. apply sqrt_1.
Qed.

(** A memory pointing the way of both the query and the response has raw
    product 1; one at a right angle to them has raw product 0. *)
Lemma raw_of_aligned : raw_of [1; 0] [1; 0] [1; 0] = 1.
Proof.
  unfold raw_of, cosine, guard_zero. rewrite norm_unit2_x.
  destruct (Req_dec_T 1 0) as [Habs|_]; [lra|].
  unfold scale_down, dot, rsum. simpl.
  replace (1 / 1 * (1 / 1) + (0 / 1 * (0 / 1) + 0)) with 1 by field.
  rewrite Rmax_left by lra. lra.
Qed.

Lemma raw_of_across : raw_of [1; 0] [1; 0] [0; 1] = 0.
Proof.
  unfold raw_of, cosine, guard_zero. rewrite norm_unit2_x, norm_unit2_y.
  destruct (Req_dec_T 1 0) as [Habs|_]; [lra|].
  unfold scale_down, dot, rsum. simpl.
  replace (0 / 1 * (1 / 1) + (1 / 1 * (0 / 1) + 0)) with 0 by field.
  rewrite Rmax_left by lra. lra.
Qed.

(** *** Specified properties of the kernel *)

(** C4.  For every array of [k >= 1] memory embeddings (of the width of the
    query and response embeddings), [compute_eas] returns raw scores that are
    the products of the two clamped cosine similarities of each memory row,
    with the response and with the query; scores and raw scores are all
    non-negative, the scores sum to one, they are [raw / T] when the sum [T]
    of the clamped raw products is positive and the uniform [1 / k] when
    [T = 0]. *)
Theorem compute_eas_scores_normalised (E : embeddings) (q r : list R) :
  embeddings_ok E ->
  (1 <= shape0 (as_matrix E))%nat ->
  ncols (as_matrix E) = length q ->
  ncols (as_matrix E) = length r ->
  exists res,
    compute_eas E q r = Ok res /\
    let k := shape0 (as_matrix E) in
    let T := rsum (raw_scores res) in
    (exists sim_mr sim_mq,
        _cosine_similarities (as_matrix E) r = Ok sim_mr /\
        _cosine_similarities (as_matrix E) q = Ok sim_mq /\
        sim_mr = map (fun row => cosine row r) (mrows (as_matrix E)) /\
        sim_mq = map (fun row => cosine row q) (mrows (as_matrix E)) /\
        raw_scores res = hadamard (clamp sim_mr) (clamp sim_mq)) /\
    raw_scores res = map (raw_of q r) (mrows (as_matrix E)) /\
    length (scores res) = k /\ length (raw_scores res) = k /\
    Forall (fun x => 0 <= x) (scores res) /\
    Forall (fun x => 0 <= x) (raw_scores res) /\
    rsum (scores res) = 1 /\
    (0 < T -> scores res = map (fun x => x / T) (raw_scores res)) /\
    (T = 0 -> scores res = repeat (1 / INR k) k).
Proof.
  intros _ Hk Hq Hr.
  destruct (compute_eas_unfold E q r Hk Hq Hr)
    as (sim_mr & sim_mq & Emr & Emq & Lmr & Lmq & Heq).
  cbv zeta in Heq. eexists. split; [exact Heq|].
  set (k := shape0 (as_matrix E)) in *.
  set (raw := hadamard (clamp sim_mr) (clamp sim_mq)) in *.
  assert (Hraw : Forall (fun x => 0 <= x) raw)
    by (apply hadamard_nonneg; apply clamp_nonneg).
  assert (Lraw : length raw = k).
  { unfold raw. rewrite hadamard_length, !clamp_length, Lmr, Lmq.
    apply Nat.min_id. }
  assert (Cmr : sim_mr = map (fun row => cosine row r) (mrows (as_matrix E))).
  { rewrite (cosine_similarities_closed _ _ Hr) in Emr. congruence. }
  assert (Cmq : sim_mq = map (fun row => cosine row q) (mrows (as_matrix E))).
  { rewrite (cosine_similarities_closed _ _ Hq) in Emq. congruence. }
  destruct (normalise_sums_to_one Hk Hraw) as [Hnn Hsum].
  cbv zeta in Hnn, Hsum. cbv zeta. simpl scores. simpl raw_scores.
  split; [|split].
  - exists sim_mr, sim_mq. repeat split; assumption || reflexivity.
  - unfold raw. rewrite Cmr, Cmq. apply hadamard_clamp_map.
  - repeat split; try assumption.
    + destruct (Rlt_dec 0 (rsum raw)); [rewrite length_map; exact Lraw|].
      apply repeat_length.
    + intros Hpos. destruct (Rlt_dec 0 (rsum raw)); [reflexivity|contradiction].
    + intros Hz. destruct (Rlt_dec 0 (rsum raw)) as [Hpos|_]; [lra|reflexivity].
Qed.

Lemma compute_eas_scores_normalised_witness :
  exists res,
    compute_eas (Rows 2 [[1; 0]; [0; 1]]) [1; 0] [1; 0] = Ok res /\
    raw_scores res = [1; 0] /\ scores res = [1; 0].
Proof.
  assert (Hok : embeddings_ok (Rows 2 [[1; 0]; [0; 1]]))
    by (simpl; repeat constructor).
  assert (Hk : le 1 (shape0 (as_matrix (Rows 2 [[1; 0]; [0; 1]]))))
    by (apply le_S, le_n).
  destruct (@compute_eas_scores_normalised
              (Rows 2 [[1; 0]; [0; 1]]) [1; 0] [1; 0] Hok Hk eq_refl eq_refl)
    as (res & Hres & _ & Hraw & _ & _ & _ & _ & _ & Hpos & _).
  exists res. split; [exact Hres|].
  simpl in Hraw. rewrite raw_of_aligned, raw_of_across in Hraw.
  split; [exact Hraw|].
  rewrite Hpos; rewrite Hraw; unfold rsum; simpl.
  - f_equal; [|f_equal]; field.
  - lra.
Defined.

(** C5, as the code has it.  For [k >= 1] memory embeddings, if the query or
    the response embedding has L2 norm zero, the raw scores are the zero
    vector of length [k] and the scores are the uniform vector [1 / k]. *)
Theorem compute_eas_zero_norm_uniform (E : embeddings) (q r : list R) :
  embeddings_ok E ->
  (1 <= shape0 (as_matrix E))%nat ->
  ncols (as_matrix E) = length q ->
  ncols (as_matrix E) = length r ->
  norm q = 0 \/ norm r = 0 ->
  exists res,
    compute_eas E q r = Ok res /\
    raw_scores res = repeat 0 (shape0 (as_matrix E)) /\
    scores res =
      repeat (1 / INR (shape0 (as_matrix E))) (shape0 (as_matrix E)).
Proof.
  intros _ Hk Hq Hr Hz.
  eexists. split; [apply compute_eas_zero_norm; assumption|].
  split; reflexivity.
Qed.

Lemma compute_eas_zero_norm_uniform_witness :
  exists res,
    compute_eas (Rows 3 [[1; 0; 0]]) [0; 0; 0] [1; 0; 0] = Ok res /\
    raw_scores res = [0] /\ scores res = [1 / INR 1].
Proof.
  apply (@compute_eas_zero_norm_uniform (Rows 3 [[1; 0; 0]]) [0; 0; 0] [1; 0; 0]).
  - simpl. repeat constructor.
  - apply le_n.
  - reflexivity.
  - reflexivity.
  - left. exact norm_zeros3.
Defined.

(** C5, as the specification words it, fails: one memory and a zero query
    embedding give the score vector [[1]], not the zero vector. *)
Lemma compute_eas_zero_norm_not_zeros :
  norm [0; 0; 0] = 0 /\
  exists res,
    compute_eas (Rows 3 [[1; 0; 0]]) [0; 0; 0] [1; 0; 0] = Ok res /\
    scores res = [1] /\
    scores res <> repeat 0 (shape0 (as_matrix (Rows 3 [[1; 0; 0]]))).
Proof.
  split; [exact norm_zeros3|].
  eexists. split.
  - apply compute_eas_zero_norm;
      [apply le_n | reflexivity | reflexivity | left; exact norm_zeros3].
  - simpl. split.
    + f_equal. lra.
    + intros Habs. injection Habs as Habs. lra.
Qed.

(** With [k = 0] rows ([k] being [M.shape[0]], as for [np.empty((0, d))]),
    [compute_eas] returns empty [scores] and [raw_scores] for every query
    and response embedding. *)
Lemma compute_eas_no_rows (E : embeddings) (q r : list R) :
  shape0 (as_matrix E) = 0%nat ->
  compute_eas E q r = Ok (EasResult [] []).
Proof.
  intros Hk. unfold compute_eas. rewrite Hk. reflexivity.
Qed.

Example compute_eas_empty_array :
  compute_eas (Rows 3 []) [1; 0; 0] [0; 1; 0] = Ok (EasResult [] []).
Proof. apply compute_eas_no_rows. reflexivity. Qed.

(** C9.  The claim is that an empty collection of memory embeddings gives
    empty [scores] and [raw_scores] and no failure.  The code does that for
    a two-dimensional array without rows ([compute_eas_no_rows]), but not
    for the empty Python list: [np.asarray([])] is one-dimensional, the
    reshape makes it one row of width zero, so [k = 1] and the [k == 0]
    return is skipped; with the query and response of [test_empty_memories]
    the matrix product then raises [ValueError], and with zero-norm query
    and response the call returns the one score [1]. *)
Theorem compute_eas_empty_list :
  shape0 (as_matrix (Flat [])) = 1%nat /\
  compute_eas (Flat []) [1; 0; 0] [0; 1; 0] = Raise ValueError /\
  compute_eas (Flat []) [] [] = Ok (EasResult [1 / INR 1] [0]).
Proof.
  split; [reflexivity|]. split.
  - unfold compute_eas, _cosine_similarities. simpl.
    rewrite norm_unit3_y.
    destruct (Req_dec_T 1 0) as [Habs|_]; [lra|]. reflexivity.
  - assert (Hn : norm [] = 0) by (unfold norm, dot, rsum; simpl; apply sqrt_0).
    apply (@compute_eas_zero_norm (Flat []) [] []);
      [apply le_n | reflexivity | reflexivity | left; exact Hn].
Qed.

End Eas.

(** ** The attribution pipeline ([cortex/api/transactions.py]) *)

Module Pipeline.

Import Eas.
Local Open Scope R_scope.

Inductive TransactionStatus : Type := pending | completed.

Inductive Trend : Type := up | down | stable.

(** Rows of the tables in [cortex/db/tables.py].  Columns that the
    transaction endpoints neither read nor write ([content], [tokens],
    [tier], [criticality], [metadata_], [created_at] of [memories]; the
    random [id] and the wall-clock [compute_time_ms] of
    [attribution_scores]; [provider], [model_id], [updated_at] of
    [agent_cost_configs]) are left out. *)
Record MemoryRow : Type := {
  mem_id : string;
  mem_embedding : option (list R);
  mem_retrieval_count : nat;
  mem_last_accessed : option datetime;
  mem_deleted_at : option datetime
}.

Record TransactionRow : Type := {
  txn_id : string;
  txn_query_text : string;
  txn_query_embedding : option (list R);
  txn_response_text : option string;
  txn_response_embedding : option (list R);
  txn_status : TransactionStatus;
  txn_retrieved_memory_ids : list string;
  txn_agent_id : string;
  txn_input_tokens : nat;
  txn_output_tokens : nat;
  txn_model : string;
  txn_created_at : datetime
}.

Inductive AttributionMethod : Type := eas | exact | contextcite | amortized.

Record AttributionScore : Type := {
  score_memory_id : string;
  score_transaction_id : string;
  score : R;
  raw_score : R;
  score_method : AttributionMethod;
  score_confidence : R
}.

Record MemoryProfile : Type := {
  prof_memory_id : string;
  mean_attribution : R;
  m2 : R;
  retrieval_count : nat;
  total_attribution : R;
  trend : Trend;
  updated_at : datetime
}.

Record AgentCostConfig : Type := {
  cfg_agent_id : string;
  cfg_input_token_cost : R;
  cfg_output_token_cost : R
}.

(** The committed state of the store. *)
Record Db : Type := {
  memories : list MemoryRow;
  transactions : list TransactionRow;
  attribution_scores : list AttributionScore;
  memory_profiles : list MemoryProfile;
  agent_cost_configs : list AgentCostConfig
}.

Record TokenCostConfig : Type := {
  input_token_cost : R;
  output_token_cost : R
}.

Record TransactionCost : Type := {
  cost_transaction_id : string;
  input_cost : R;
  output_cost : R;
  total_cost : R
}.

Record TransactionWithScores : Type := {
  tws_transaction : TransactionRow;
  tws_scores : list AttributionScore;
  tws_cost : TransactionCost
}.

(** Request bodies ([cortex/models.py]). *)
Record TransactionCreate : Type := {
  tc_query_text : string;
  tc_response_text : string;
  tc_retrieved_memory_ids : list string;
  tc_agent_id : string;
  tc_query_embedding : option (list R);
  tc_response_embedding : option (list R);
  tc_input_tokens : option nat;
  tc_output_tokens : option nat;
  tc_model : string
}.

Record TransactionInitiate : Type := {
  ti_query_text : string;
  ti_retrieved_memory_ids : list string;
  ti_agent_id : string;
  ti_query_embedding : option (list R);
  ti_model : string
}.

Record TransactionComplete : Type := {
  tf_response_text : string;
  tf_response_embedding : option (list R);
  tf_input_tokens : option nat;
  tf_output_tokens : option nat
}.

(** *** Python truthiness and [or] *)

(** [x or y] for an optional list: [None] and [[]] are falsy. *)
Definition list_or {A : Type} (x : option (list A)) (y : list A) : list A :=
  match x with
  | Some (a :: l) => a :: l
  | _ => y
  end.

Definition list_truthy {A : Type} (x : option (list A)) : bool :=
  match x with
  | Some (_ :: _) => true
  | _ => false
  end.

(** [x or y] for an optional integer: [None] and [0] are falsy. *)
Definition nat_or (x : option nat) (y : nat) : nat :=
  match x with
  | Some (S n) => S n
  | _ => y
  end.

Definition is_none {A : Type} (x : option A) : bool :=
  match x with
  | None => true
  | Some _ => false
  end.

(** *** Queries on [memories] *)

(** [memories.c.id.in_(ids)]. *)
Definition id_in (ids : list string) (m : MemoryRow) : bool :=
  existsb (String.eqb (mem_id m)) ids.

(** [ORDER BY id]: a stable insertion sort on the [id] column.  The byte
    order of [String.leb] stands for the collation of the store; nothing
    below depends on which total order it is, only on its reading the [id]
    alone. *)
Fixpoint insert_by_id (m : MemoryRow) (sorted : list MemoryRow) : list MemoryRow :=
  match sorted with
  | [] => [m]
  | x :: rest =>
      if String.leb (mem_id m) (mem_id x) then m :: x :: rest
      else x :: insert_by_id m rest
  end.

Definition order_by_id (rows : list MemoryRow) : list MemoryRow :=
  fold_right insert_by_id [] rows.

(** The query built at the top of [_run_eas_and_store]. *)
Definition select_memories (db : Db) (retrieved_memory_ids : list string)
           (snapshot : bool) : list MemoryRow :=
  match retrieved_memory_ids with
  | [] => []
  | _ :: _ =>
      order_by_id
        (filter (fun m =>
                   id_in retrieved_memory_ids m &&
                   (snapshot || is_none (mem_deleted_at m)))
                (memories db))
  end.

(** [np.array(list_of_rows)]: the empty list gives a one-dimensional array
    of size zero, rows of one common length give a [(k, d)] array, ragged
    rows are refused. *)
Definition np_array (rows : list (list R)) : result embeddings :=
  match rows with
  | [] => Ok (Flat [])
  | row :: _ =>
      if forallb (fun x => Nat.eqb (length x) (length row)) rows
      then Ok (Rows (length row) rows)
      else Raise ValueError
  end.

(** [ndarray.size]. *)
Definition size (E : embeddings) : nat :=
  match E with
  | Flat v => length v
  | Rows d rows => length rows * d
  end.

Definition embedding_of (m : MemoryRow) : list R := list_or (mem_embedding m) [].

(** *** Writes *)

(** A [float8] (binary64) that is neither an infinity nor NaN, as the real
    number it stands for. *)
Definition float8_value (f : float) : option R :=
  match Prim2SF f with
  | S754_zero _ => Some 0
  | S754_finite s m e =>
      Some (IZR (if s then Zneg m else Zpos m) * powerRZ 2 e)
  | S754_infinity _ => None
  | S754_nan => None
  end.

(** The [float8] a column or a bound parameter holds, given the real it
    stands for.  Columns and parameters hold doubles, and a finite double is
    determined by its value but for the sign of a zero
    ([float8_value_same]), which the [CASE] below does not see
    ([trend_case_same]); on a real that no double stands for, the choice is
    left open. *)
Definition float8_of (x : R) : float :=
  epsilon (inhabits 0%float) (fun f => float8_value f = Some x).

(** The literals [1.1] and [0.9] of the statement, read as [float8]. *)
Definition float8_1_1 : float := 0x1.199999999999ap+0%float.
Definition float8_0_9 : float := 0x1.ccccccccccccdp-1%float.

(** [CASE WHEN :score > mean_attribution * 1.1 THEN 'up'
         WHEN :score < mean_attribution * 0.9 THEN 'down'
         ELSE 'stable' END], on [float8] operands: the products are rounded
    before they are compared.  (Where a product overflows, PostgreSQL raises
    an error instead of comparing with an infinity.) *)
Definition trend_case (score mean_attribution : float) : Trend :=
  if PrimFloat.ltb (PrimFloat.mul mean_attribution float8_1_1) score then up
  else if PrimFloat.ltb score (PrimFloat.mul mean_attribution float8_0_9)
       then down
       else stable.

(** Two binary64 values that are the same but for the sign of a zero. *)
Definition sf_same (a b : spec_float) : Prop :=
  a = b \/ exists s s', a = S754_zero s /\ b = S754_zero s'.

(** The Welford [INSERT ... ON CONFLICT (memory_id) DO UPDATE]; every
    right-hand side of the [SET] list reads the row as it was before the
    statement. *)
Definition welford_update (x : R) (now : datetime) (p : MemoryProfile)
  : MemoryProfile :=
  {| prof_memory_id := prof_memory_id p;
     mean_attribution :=
       mean_attribution p
       + (x - mean_attribution p) / INR (retrieval_count p + 1);
     m2 :=
       m2 p
       + (x - mean_attribution p)
         * (x - (mean_attribution p
                 + (x - mean_attribution p) / INR (retrieval_count p + 1)));
     retrieval_count := retrieval_count p + 1;
     total_attribution := total_attribution p + x;
     trend := trend_case (float8_of x) (float8_of (mean_attribution p));
     updated_at := now |}.

Definition welford_insert (mem : string) (x : R) (now : datetime)
  : MemoryProfile :=
  {| prof_memory_id := mem;
     mean_attribution := x;
     m2 := 0;
     retrieval_count := 1;
     total_attribution := x;
     trend := stable;
     updated_at := now |}.

Fixpoint welford_upsert (mem : string) (x : R) (now : datetime)
         (profiles : list MemoryProfile) : list MemoryProfile :=
  match profiles with
  | [] => [welford_insert mem x now]
  | p :: rest =>
      if String.eqb (prof_memory_id p) mem
      then welford_update x now p :: rest
      else p :: welford_upsert mem x now rest
  end.

(** [UPDATE memories SET retrieval_count = retrieval_count + 1,
    last_accessed = :now WHERE id = :mem]. *)
Definition bump_memory (mem : string) (now : datetime) (m : MemoryRow)
  : MemoryRow :=
  if String.eqb (mem_id m) mem
  then {| mem_id := mem_id m;
          mem_embedding := mem_embedding m;
          mem_retrieval_count := mem_retrieval_count m + 1;
          mem_last_accessed := Some now;
          mem_deleted_at := mem_deleted_at m |}
  else m.

Definition find_profile (mem : string) (profiles : list MemoryProfile)
  : option MemoryProfile :=
  find (fun p => String.eqb (prof_memory_id p) mem) profiles.

(** *** The endpoints *)

Section Endpoints.

(** The embedding collaborator [cortex.attribution.embed]: a batch of texts
    to a batch of vectors. *)
Variable embed : list string -> list (list R).

(** [len(text.split())]. *)
Variable count_words : string -> nat.

(** [settings.default_input_token_cost] and
    [settings.default_output_token_cost]. *)
Variable default_input_token_cost : R.
Variable default_output_token_cost : R.

Definition _get_cost_config (db : Db) (agent_id : string) : TokenCostConfig :=
  match find (fun c => String.eqb (cfg_agent_id c) agent_id)
             (agent_cost_configs db) with
  | Some row =>
      {| input_token_cost := cfg_input_token_cost row;
         output_token_cost := cfg_output_token_cost row |}
  | None =>
      {| input_token_cost := default_input_token_cost;
         output_token_cost := default_output_token_cost |}
  end.

(** [cortex.metrics.calculator.transaction_cost]. *)
Definition transaction_cost (input_tokens output_tokens : nat)
           (config : TokenCostConfig) (transaction_id : string)
  : TransactionCost :=
  let ic := INR input_tokens * input_token_cost config in
  let oc := INR output_tokens * output_token_cost config in
  {| cost_transaction_id := transaction_id;
     input_cost := ic;
     output_cost := oc;
     total_cost := ic + oc |}.

(** [enumerate]. *)
Definition enumerate {A : Type} (l : list A) : list (nat * A) :=
  combine (seq 0 (length l)) l.

(** The [AttributionScore] built in the loop over
    [enumerate(mem_with_embeddings)]; [nth i l 0] is
    [l[i] if i < len(l) else 0.0]. *)
Definition score_object (txn : string) (eas_result : eas_result)
           (entry : nat * MemoryRow) : AttributionScore :=
  {| score_memory_id := mem_id (snd entry);
     score_transaction_id := txn;
     score := nth (fst entry) (scores eas_result) 0;
     raw_score := nth (fst entry) (raw_scores eas_result) 0;
     score_method := eas;
     score_confidence := 1 |}.

(** One turn of the second loop: the Welford upsert, then the bump of the
    memory row. *)
Definition store_profile (now : datetime) (db : Db) (s : AttributionScore)
  : Db :=
  {| memories := map (bump_memory (score_memory_id s) now) (memories db);
     transactions := transactions db;
     attribution_scores := attribution_scores db;
     memory_profiles :=
       welford_upsert (score_memory_id s) (score s) now (memory_profiles db);
     agent_cost_configs := agent_cost_configs db |}.

Definition has_embedding (m : MemoryRow) : bool := list_truthy (mem_embedding m).

(** The EAS step of [_run_eas_and_store]. *)
Definition eas_of_rows (mem_rows : list MemoryRow) (q_emb r_emb : list R)
  : result eas_result :=
  match mem_rows with
  | [] => Ok empty_result
  | _ :: _ =>
      mem_embeddings <-
        np_array (map embedding_of (filter has_embedding mem_rows)) ;;
      if Nat.ltb 0 (size mem_embeddings)
      then compute_eas mem_embeddings q_emb r_emb
      else Ok empty_result
  end.

Definition _run_eas_and_store (db : Db) (txn : string)
           (q_emb r_emb : list R) (retrieved_memory_ids : list string)
           (snapshot : bool) (now : datetime)
  : result (list AttributionScore * Db) :=
  let mem_rows := select_memories db retrieved_memory_ids snapshot in
  eas_result <- eas_of_rows mem_rows q_emb r_emb ;;
  let mem_with_embeddings := filter has_embedding mem_rows in
  let score_objs :=
    map (score_object txn eas_result) (enumerate mem_with_embeddings) in
  let db1 :=
    {| memories := memories db;
       transactions := transactions db;
       attribution_scores := attribution_scores db ++ score_objs;
       memory_profiles := memory_profiles db;
       agent_cost_configs := agent_cost_configs db |} in
  Ok (score_objs, fold_left (store_profile now) score_objs db1).

Definition find_transaction (db : Db) (txn : string) : option TransactionRow :=
  find (fun t => String.eqb (txn_id t) txn) (transactions db).

Definition with_transactions (db : Db) (txns : list TransactionRow) : Db :=
  {| memories := memories db;
     transactions := txns;
     attribution_scores := attribution_scores db;
     memory_profiles := memory_profiles db;
     agent_cost_configs := agent_cost_configs db |}.

(** [transactions.insert()]: [id] is the primary key. *)
Definition insert_transaction (db : Db) (row : TransactionRow) : result Db :=
  match find_transaction db (txn_id row) with
  | Some _ => Raise IntegrityError
  | None => Ok (with_transactions db (transactions db ++ [row]))
  end.

(** The response built at the end of [create_transaction] and
    [complete_transaction]: the row is read back after the commit. *)
Definition build_response (db : Db) (txn agent_id : string)
           (input_tokens output_tokens : nat)
           (score_objs : list AttributionScore)
  : result TransactionWithScores :=
  let config := _get_cost_config db agent_id in
  let cost := transaction_cost input_tokens output_tokens config txn in
  match find_transaction db txn with
  | Some txn_row =>
      Ok {| tws_transaction := txn_row;
            tws_scores := score_objs;
            tws_cost := cost |}
  | None => Raise AttributeError
  end.

(** An endpoint returns its response, or the exception it raised, together
    with the committed store: an exception raised before [db.commit()]
    leaves the store as it was.

    [POST /transactions]; [new_id] is the [uuid4] drawn for the row. *)
Definition create_transaction (body : TransactionCreate) (new_id : string)
           (now : datetime) (db : Db) : result TransactionWithScores * Db :=
  let texts_q :=
    if list_truthy (tc_query_embedding body) then []
    else [tc_query_text body] in
  let texts_to_embed :=
    if list_truthy (tc_response_embedding body) then texts_q
    else texts_q ++ [tc_response_text body] in
  let embeddings :=
    match texts_to_embed with [] => [] | _ :: _ => embed texts_to_embed end in
  let q_emb := list_or (tc_query_embedding body) (nth 0 embeddings []) in
  let r_emb :=
    list_or (tc_response_embedding body) (nth (length texts_q) embeddings []) in
  let input_tokens :=
    nat_or (tc_input_tokens body) (count_words (tc_query_text body)) in
  let output_tokens :=
    nat_or (tc_output_tokens body) (count_words (tc_response_text body)) in
  let row :=
    {| txn_id := new_id;
       txn_query_text := tc_query_text body;
       txn_query_embedding := Some q_emb;
       txn_response_text := Some (tc_response_text body);
       txn_response_embedding := Some r_emb;
       txn_status := completed;
       txn_retrieved_memory_ids := tc_retrieved_memory_ids body;
       txn_agent_id := tc_agent_id body;
       txn_input_tokens := input_tokens;
       txn_output_tokens := output_tokens;
       txn_model := tc_model body;
       txn_created_at := now |} in
  match
    (db1 <- insert_transaction db row ;;
     _run_eas_and_store db1 new_id q_emb r_emb
                        (tc_retrieved_memory_ids body) false now)
  with
  | Raise e => (Raise e, db)
  | Ok (score_objs, db2) =>
      (build_response db2 new_id (tc_agent_id body) input_tokens
                      output_tokens score_objs, db2)
  end.

(** [POST /transactions/initiate]. *)
Definition initiate_transaction (body : TransactionInitiate) (new_id : string)
           (now : datetime) (db : Db)
  : result (string * TransactionStatus) * Db :=
  let q_emb :=
    list_or (ti_query_embedding body) (nth 0 (embed [ti_query_text body]) []) in
  let row :=
    {| txn_id := new_id;
       txn_query_text := ti_query_text body;
       txn_query_embedding := Some q_emb;
       txn_response_text := None;
       txn_response_embedding := None;
       txn_status := pending;
       txn_retrieved_memory_ids := ti_retrieved_memory_ids body;
       txn_agent_id := ti_agent_id body;
       txn_input_tokens := 0;
       txn_output_tokens := 0;
       txn_model := ti_model body;
       txn_created_at := now |} in
  match insert_transaction db row with
  | Raise e => (Raise e, db)
  | Ok db1 => (Ok (new_id, pending), db1)
  end.

Definition status_eqb (a b : TransactionStatus) : bool :=
  match a, b with
  | pending, pending | completed, completed => true
  | _, _ => false
  end.

(** The [UPDATE transactions ... WHERE id = :txn_id] of
    [complete_transaction]. *)
Definition complete_row (txn : string) (response_text : string)
           (r_emb : list R) (input_tokens output_tokens : nat)
           (t : TransactionRow) : TransactionRow :=
  if String.eqb (txn_id t) txn
  then {| txn_id := txn_id t;
          txn_query_text := txn_query_text t;
          txn_query_embedding := txn_query_embedding t;
          txn_response_text := Some response_text;
          txn_response_embedding := Some r_emb;
          txn_status := completed;
          txn_retrieved_memory_ids := txn_retrieved_memory_ids t;
          txn_agent_id := txn_agent_id t;
          txn_input_tokens := input_tokens;
          txn_output_tokens := output_tokens;
          txn_model := txn_model t;
          txn_created_at := txn_created_at t |}
  else t.

(** [POST /transactions/{txn_id}/complete]. *)
Definition complete_transaction (txn : string) (body : TransactionComplete)
           (now : datetime) (db : Db) : result TransactionWithScores * Db :=
  match find_transaction db txn with
  | None => (Raise (HTTPException 404), db)
  | Some txn_row =>
      if negb (status_eqb (txn_status txn_row) pending)
      then (Raise (HTTPException 409), db)
      else
        let r_emb :=
          list_or (tf_response_embedding body)
                  (nth 0 (embed [tf_response_text body]) []) in
        let input_tokens :=
          nat_or (tf_input_tokens body) (count_words (txn_query_text txn_row)) in
        let output_tokens :=
          nat_or (tf_output_tokens body) (count_words (tf_response_text body)) in
        let db1 :=
          with_transactions db
            (map (complete_row txn (tf_response_text body) r_emb
                               input_tokens output_tokens)
                 (transactions db)) in
        let q_emb := list_or (txn_query_embedding txn_row) [] in
        match
          _run_eas_and_store db1 txn q_emb r_emb
                             (txn_retrieved_memory_ids txn_row) true now
        with
        | Raise e => (Raise e, db)
        | Ok (score_objs, db2) =>
            (build_response db2 txn (txn_agent_id txn_row) input_tokens
                            output_tokens score_objs, db2)
        end
  end.

(** [DELETE /memories/{memory_id}] ([cortex/api/memories.py]): the soft
    delete. *)
Definition soft_delete (mem : string) (now : datetime) (m : MemoryRow)
  : MemoryRow :=
  if String.eqb (mem_id m) mem
  then {| mem_id := mem_id m;
          mem_embedding := mem_embedding m;
          mem_retrieval_count := mem_retrieval_count m;
          mem_last_accessed := mem_last_accessed m;
          mem_deleted_at := Some now |}
  else m.

Definition delete_memory (mem : string) (now : datetime) (db : Db)
  : result unit * Db :=
  match find (fun m => String.eqb (mem_id m) mem && is_none (mem_deleted_at m))
             (memories db) with
  | None => (Raise (HTTPException 404), db)
  | Some _ =>
      (Ok tt,
       {| memories := map (soft_delete mem now) (memories db);
          transactions := transactions db;
          attribution_scores := attribution_scores db;
          memory_profiles := memory_profiles db;
          agent_cost_configs := agent_cost_configs db |})
  end.

End Endpoints.

(** *** Two-phase against single-shot *)

(** What the scoring reads of a memory row. *)
Definition mem_key (m : MemoryRow) : string * option (list R) :=
  (mem_id m, mem_embedding m).

(** What is compared between the two paths: which memory got which score. *)
Definition score_view (s : AttributionScore) : string * R * R :=
  (score_memory_id s, score s, raw_score s).

Definition response_scores (r : result TransactionWithScores)
  : result (list (string * R * R)) :=
  match r with
  | Ok resp => Ok (map score_view (tws_scores resp))
  | Raise e => Raise e
  end.

(** No requested memory is soft-deleted. *)
Definition live_at (db : Db) (ids : list string) : Prop :=
  forall m, In m (memories db) -> id_in ids m = true -> mem_deleted_at m = None.

(** Two stores hold the same memories with the same embeddings, in the same
    table order; [deleted_at], [retrieval_count] and [last_accessed] may
    differ. *)
Definition same_memory_content (db db' : Db) : Prop :=
  map mem_key (memories db) = map mem_key (memories db').

(** The scores [_run_eas_and_store] returns, seen through [score_view], are
    determined by the keys of the selected rows. *)
Definition run_views (r : result (list AttributionScore * Db))
  : result (list (string * R * R)) :=
  match r with
  | Ok (objs, _) => Ok (map score_view objs)
  | Raise e => Raise e
  end.

(** The request bodies of one scenario: the same query embedding, response
    embedding and memory ids on both paths. *)
Definition initiate_body (query_text agent model : string) (q : list R)
           (ids : list string) : TransactionInitiate :=
  {| ti_query_text := query_text;
     ti_retrieved_memory_ids := ids;
     ti_agent_id := agent;
     ti_query_embedding := Some q;
     ti_model := model |}.

Definition complete_body (response_text : string) (r : list R)
           (in_tok out_tok : option nat) : TransactionComplete :=
  {| tf_response_text := response_text;
     tf_response_embedding := Some r;
     tf_input_tokens := in_tok;
     tf_output_tokens := out_tok |}.

Definition create_body (query_text response_text agent model : string)
           (q r : list R) (ids : list string) (in_tok out_tok : option nat)
  : TransactionCreate :=
  {| tc_query_text := query_text;
     tc_response_text := response_text;
     tc_retrieved_memory_ids := ids;
     tc_agent_id := agent;
     tc_query_embedding := Some q;
     tc_response_embedding := Some r;
     tc_input_tokens := in_tok;
     tc_output_tokens := out_tok;
     tc_model := model |}.

(** *** The scenario of S3 and S4

    Three live memories with unit embeddings, no transaction yet; the
    embedding collaborator is never called because every embedding is
    supplied. *)

Definition no_embed (texts : list string) : list (list R) := [].

Definition no_words (text : string) : nat := 0%nat.

Definition memory_row (id : string) (emb : list R) : MemoryRow :=
  {| mem_id := id;
     mem_embedding := Some emb;
     mem_retrieval_count := 0;
     mem_last_accessed := None;
     mem_deleted_at := None |}.

Definition s4_store : Db :=
  {| memories :=
       [memory_row "m1" [1; 0; 0];
        memory_row "m2" [0; 1; 0];
        memory_row "m3" [0; 0; 1]];
     transactions := [];
     attribution_scores := [];
     memory_profiles := [];
     agent_cost_configs := [] |}.

Definition s4_ids : list string := ["m1"%string; "m2"%string; "m3"%string].

Definition s4_initiated : Db :=
  snd (initiate_transaction no_embed
         (initiate_body "q" "agent" "model" [1; 0; 0] s4_ids)
         "t-two" 1%Z s4_store).

Definition s4_deleted : Db := snd (delete_memory "m2" 2%Z s4_initiated).

Definition s4_two_phase : result TransactionWithScores :=
  fst (complete_transaction no_embed no_words 0 0 "t-two"
         (complete_body "r" [1; 0; 0] None None) 3%Z s4_deleted).

(** The single-shot path on the store as it is after the deletion. *)
Definition s4_fresh_single_shot : result TransactionWithScores :=
  fst (create_transaction no_embed no_words 0 0
         (create_body "q" "r" "agent" "model" [1; 0; 0] [1; 0; 0] s4_ids
                      None None)
         "t-one" 3%Z s4_deleted).

(** The single-shot path on the store as it was at initiate time. *)
Definition s4_single_shot_at_initiate : result TransactionWithScores :=
  fst (create_transaction no_embed no_words 0 0
         (create_body "q" "r" "agent" "model" [1; 0; 0] [1; 0; 0] s4_ids
                      None None)
         "t-one" 3%Z s4_store).

(** The same memories, with [m2] already soft-deleted before anything is
    initiated; the two-phase path then runs without any deletion between
    its two calls. *)
Definition s4_predeleted : Db := snd (delete_memory "m2" 2%Z s4_store).

Definition s4_predeleted_two_phase : result TransactionWithScores :=
  fst (complete_transaction no_embed no_words 0 0 "t-two"
         (complete_body "r" [1; 0; 0] None None) 3%Z
         (snd (initiate_transaction no_embed
                 (initiate_body "q" "agent" "model" [1; 0; 0] s4_ids)
                 "t-two" 1%Z s4_predeleted))).

Definition s4_predeleted_single_shot : result TransactionWithScores :=
  fst (create_transaction no_embed no_words 0 0
         (create_body "q" "r" "agent" "model" [1; 0; 0] [1; 0; 0] s4_ids
                      None None)
         "t-one" 3%Z s4_predeleted).

Definition s4_pending_row : TransactionRow :=
  {| txn_id := "t-two";
     txn_query_text := "q";
     txn_query_embedding := Some [1; 0; 0];
     txn_response_text := None;
     txn_response_embedding := None;
     txn_status := pending;
     txn_retrieved_memory_ids := s4_ids;
     txn_agent_id := "agent";
     txn_input_tokens := 0;
     txn_output_tokens := 0;
     txn_model := "model";
     txn_created_at := 1%Z |}.

Definition completed_row : TransactionRow :=
  {| txn_id := "t-done";
     txn_query_text := "q";
     txn_query_embedding := Some [1; 0; 0];
     txn_response_text := Some "r"%string;
     txn_response_embedding := Some [1; 0; 0];
     txn_status := completed;
     txn_retrieved_memory_ids := s4_ids;
     txn_agent_id := "agent";
     txn_input_tokens := 1;
     txn_output_tokens := 1;
     txn_model := "model";
     txn_created_at := 1%Z |}.

Definition completed_store : Db :=
  with_transactions s4_store [completed_row].

(** A profile whose mean is the double [0.9090909090909091], the one next
    below [1 / 1.1]. *)
Definition boundary_profile : MemoryProfile :=
  welford_insert "m1" (8188362958855447 / 9007199254740992) 3%Z.

(** *** Doubles and the reals they stand for

    A finite double is determined by its value, up to the sign of a zero,
    and the trend does not depend on that sign. *)

Lemma digits2_pos_shift (n : nat) (m1 m2 : positive) :
  Zpos m1 = (Zpos m2 * 2 ^ Z.of_nat n)%Z ->
  Zpos (digits2_pos m1) = (Zpos (digits2_pos m2) + Z.of_nat n)%Z.
Proof.
  revert m2. induction n as [|n IH]; intros m2 H.
  - assert (m1 = m2) by (simpl in H; lia). subst m1. lia.
  - rewrite Nat2Z.inj_succ, Z.pow_succ_r in H by lia.
    rewrite (IH (m2~0)%positive) by (rewrite Pos2Z.inj_xO; lia).
    simpl digits2_pos. rewrite Pos2Z.inj_succ. lia.
Qed.

Lemma canonical_exponent (m : positive) (e : Z) :
  SpecFloat.bounded FloatOps.prec FloatOps.emax m e = true ->
  e = Z.max (Zpos (digits2_pos m) + e - 53) (-1074).
Proof.
  unfold SpecFloat.bounded, canonical_mantissa, fexp. intros H.
  apply andb_prop in H as [H _]. apply Z.eqb_eq in H.
  change (SpecFloat.emin FloatOps.prec FloatOps.emax) with (-1074)%Z in H.
  change FloatOps.prec with 53%Z in H. lia.
Qed.

Lemma value_shift (m1 m2 : positive) (e1 e2 : Z) :
  (e1 <= e2)%Z ->
  IZR (Zpos m1) * powerRZ 2 e1 = IZR (Zpos m2) * powerRZ 2 e2 ->
  Zpos m1 = (Zpos m2 * 2 ^ Z.of_nat (Z.to_nat (e2 - e1)))%Z.
Proof.
  intros Hle H.
  replace e2 with (e1 + Z.of_nat (Z.to_nat (e2 - e1)))%Z in H at 1 by lia.
  rewrite powerRZ_add, <- pow_powerRZ, pow_IZR in H by lra.
  pose proof (powerRZ_lt 2 e1 ltac:(lra)) as HP.
  apply eq_IZR. rewrite mult_IZR.
  apply (Rmult_eq_reg_r (powerRZ 2 e1)); [|lra]. rewrite H. ring.
Qed.

Lemma magnitude_unique (m1 m2 : positive) (e1 e2 : Z) :
  SpecFloat.bounded FloatOps.prec FloatOps.emax m1 e1 = true -> SpecFloat.bounded FloatOps.prec FloatOps.emax m2 e2 = true ->
  IZR (Zpos m1) * powerRZ 2 e1 = IZR (Zpos m2) * powerRZ 2 e2 ->
  m1 = m2 /\ e1 = e2.
Proof.
  intros B1 B2 H.
  apply canonical_exponent in B1, B2.
  destruct (Z_le_gt_dec e1 e2) as [Hle|Hgt].
  - pose proof (@value_shift m1 m2 e1 e2 Hle H) as Hm.
    pose proof (@digits2_pos_shift _ _ _ Hm) as Hd.
    assert (e1 = e2) by lia. subst e2.
    rewrite Z.sub_diag in Hm. simpl in Hm. split; [|reflexivity]. lia.
  - symmetry in H.
    pose proof (@value_shift m2 m1 e2 e1 ltac:(lia) H) as Hm.
    pose proof (@digits2_pos_shift _ _ _ Hm) as Hd.
    assert (e1 = e2) by lia. subst e2.
    rewrite Z.sub_diag in Hm. simpl in Hm. split; [|reflexivity]. lia.
Qed.

Lemma float8_value_same (f g : float) (r : R) :
  float8_value f = Some r -> float8_value g = Some r ->
  sf_same (Prim2SF f) (Prim2SF g).
Proof.
  unfold float8_value. intros Hf Hg.
  pose proof (Prim2SF_valid f) as Vf. pose proof (Prim2SF_valid g) as Vg.
  destruct (Prim2SF f) as [sf| sf| |sf mf ef]; try discriminate;
    destruct (Prim2SF g) as [sg| sg| |sg mg eg]; try discriminate;
    injection Hf as Hf; injection Hg as Hg.
  - right. eauto.
  - exfalso. pose proof (powerRZ_lt 2 eg ltac:(lra)) as HP.
    assert (IZR (Zpos mg) > 0) by (apply IZR_lt; lia).
    assert (IZR (Zneg mg) < 0) by (apply IZR_lt; lia).
    destruct sg; nra.
  - exfalso. pose proof (powerRZ_lt 2 ef ltac:(lra)) as HP.
    assert (IZR (Zpos mf) > 0) by (apply IZR_lt; lia).
    assert (IZR (Zneg mf) < 0) by (apply IZR_lt; lia).
    destruct sf; nra.
  - left. simpl in Vf, Vg.
    pose proof (powerRZ_lt 2 ef ltac:(lra)) as HPf.
    pose proof (powerRZ_lt 2 eg ltac:(lra)) as HPg.
    assert (Pf : IZR (Zpos mf) > 0) by (apply IZR_lt; lia).
    assert (Pg : IZR (Zpos mg) > 0) by (apply IZR_lt; lia).
    assert (Nf : IZR (Zneg mf) = - IZR (Zpos mf))
      by (change (Zneg mf) with (- Zpos mf)%Z; apply opp_IZR).
    assert (Ng : IZR (Zneg mg) = - IZR (Zpos mg))
      by (change (Zneg mg) with (- Zpos mg)%Z; apply opp_IZR).
    assert (Hmag : IZR (Zpos mf) * powerRZ 2 ef = IZR (Zpos mg) * powerRZ 2 eg
                   /\ sf = sg).
    { subst r. destruct sf, sg; rewrite ?Nf, ?Ng in Hg;
        try (split; [lra|reflexivity]); exfalso; nra. }
    destruct Hmag as [Hmag ->].
    destruct (@magnitude_unique mf mg ef eg Vf Vg Hmag) as [-> ->]. reflexivity.
Qed.

Lemma SFltb_same (a a' b b' : spec_float) :
  sf_same a a' -> sf_same b b' -> SFltb a b = SFltb a' b'.
Proof.
  intros [Ha|(s & s' & Ha & Ha')] [Hb|(t & t' & Hb & Hb')]; subst;
    reflexivity.
Qed.

Lemma mul_same (f f' c : float) (s : bool) (m : positive) (e : Z) :
  Prim2SF c = S754_finite s m e ->
  sf_same (Prim2SF f) (Prim2SF f') ->
  sf_same (Prim2SF (PrimFloat.mul f c)) (Prim2SF (PrimFloat.mul f' c)).
Proof.
  intros Hc Hs. rewrite !mul_spec, Hc.
  destruct Hs as [->|(t & t' & -> & ->)]; [left; reflexivity|].
  right. simpl. eauto.
Qed.

Lemma trend_case_same (fx fx' fm fm' : float) :
  sf_same (Prim2SF fx) (Prim2SF fx') ->
  sf_same (Prim2SF fm) (Prim2SF fm') ->
  trend_case fx fm = trend_case fx' fm'.
Proof.
  intros Hx Hm. unfold trend_case. rewrite !ltb_spec.
  assert (H11 : Prim2SF float8_1_1 = S754_finite false 4953959590107546 (-52))
    by (vm_compute; reflexivity).
  assert (H09 : Prim2SF float8_0_9 = S754_finite false 8106479329266893 (-53))
    by (vm_compute; reflexivity).
  rewrite (@SFltb_same _ _ _ _ (@mul_same fm fm' _ _ _ _ H11 Hm) Hx).
  rewrite (@SFltb_same _ _ _ _ Hx (@mul_same fm fm' _ _ _ _ H09 Hm)).
  reflexivity.
Qed.

Lemma float8_of_value (f : float) (r : R) :
  float8_value f = Some r -> float8_value (float8_of r) = Some r.
Proof.
  intros H. unfold float8_of.
  apply (epsilon_spec (inhabits 0%float) (fun f => float8_value f = Some r)).
  exists f. exact H.
Qed.

Lemma trend_of_doubles (fx fm : float) (x mean : R) :
  float8_value fx = Some x -> float8_value fm = Some mean ->
  trend_case (float8_of x) (float8_of mean) = trend_case fx fm.
Proof.
  intros Hx Hm. apply trend_case_same.
  - exact (@float8_value_same _ _ x (@float8_of_value fx x Hx) Hx).
  - exact (@float8_value_same _ _ mean (@float8_of_value fm mean Hm) Hm).
Qed.

Lemma powerRZ_2_neg (n : positive) :
  powerRZ 2 (Zneg n) = / IZR (2 ^ Zpos n).
Proof.
  unfold powerRZ. rewrite pow_IZR, positive_nat_Z. reflexivity.
Qed.

Lemma float8_value_one : float8_value 1%float = Some 1.
Proof.
  unfold float8_value.
  replace (Prim2SF 1%float) with (S754_finite false 4503599627370496 (-52))
    by (vm_compute; reflexivity).
  f_equal. rewrite powerRZ_2_neg.
  change (2 ^ 52)%Z with 4503599627370496%Z. field.
Qed.

Lemma float8_value_half : float8_value 0.5%float = Some (1 / 2).
Proof.
  unfold float8_value.
  replace (Prim2SF 0.5%float) with (S754_finite false 4503599627370496 (-53))
    by (vm_compute; reflexivity).
  f_equal. rewrite powerRZ_2_neg.
  change (2 ^ 53)%Z with 9007199254740992%Z. field.
Qed.

(** [0.9090909090909091], the double next below [1 / 1.1]. *)
Lemma float8_value_boundary :
  float8_value 0x1.d1745d1745d17p-1%float
  = Some (8188362958855447 / 9007199254740992).
Proof.
  unfold float8_value.
  replace (Prim2SF 0x1.d1745d1745d17p-1%float)
    with (S754_finite false 8188362958855447 (-53))
    by (vm_compute; reflexivity).
  f_equal. rewrite powerRZ_2_neg.
  change (2 ^ 53)%Z with 9007199254740992%Z. field.
Qed.

(** *** The Welford upsert *)

Lemma find_profile_upsert_hit (mem : string) (x : R) (now : datetime)
      (profiles : list MemoryProfile) (p : MemoryProfile) :
  find_profile mem profiles = Some p ->
  find_profile mem (welford_upsert mem x now profiles)
  = Some (welford_update x now p).
Proof.
  unfold find_profile. induction profiles as [|p0 rest IH]; simpl.
  - discriminate.
  - destruct (String.eqb (prof_memory_id p0) mem) eqn:E.
    + intros [= <-]. simpl. rewrite E. reflexivity.
    + intros H. simpl. rewrite E. apply IH. exact H.
Qed.

Lemma find_profile_upsert_miss (mem : string) (x : R) (now : datetime)
      (profiles : list MemoryProfile) :
  find_profile mem profiles = None ->
  find_profile mem (welford_upsert mem x now profiles)
  = Some (welford_insert mem x now).
Proof.
  unfold find_profile. induction profiles as [|p0 rest IH]; simpl.
  - intros _. rewrite String.eqb_refl. reflexivity.
  - destruct (String.eqb (prof_memory_id p0) mem) eqn:E.
    + discriminate.
    + intros H. simpl. rewrite E. apply IH. exact H.
Qed.

(** The upsert leaves every other memory's profile alone. *)
Lemma find_profile_upsert_other (mem other : string) (x : R) (now : datetime)
      (profiles : list MemoryProfile) :
  other <> mem ->
  find_profile other (welford_upsert mem x now profiles)
  = find_profile other profiles.
Proof.
  intros Hne. unfold find_profile.
  induction profiles as [|p0 rest IH]; simpl.
  - destruct (String.eqb_spec mem other) as [->|_]; [contradiction|reflexivity].
  - destruct (String.eqb_spec (prof_memory_id p0) mem) as [E|E]; simpl.
    + rewrite E.
      destruct (String.eqb_spec mem other) as [->|_]; [contradiction|reflexivity].
    + rewrite IH. reflexivity.
Qed.

(** Welford's mean stays the running average: if [total = n * mean] held
    before the update, it holds after it. *)
Lemma welford_update_mean_is_average (x : R) (now : datetime)
      (p : MemoryProfile) :
  total_attribution p = INR (retrieval_count p) * mean_attribution p ->
  total_attribution (welford_update x now p)
  = INR (retrieval_count (welford_update x now p))
    * mean_attribution (welford_update x now p).
Proof.
  intros H. simpl. rewrite H.
  assert (Hn : INR (retrieval_count p + 1) <> 0).
  { apply not_0_INR. lia. }
  rewrite plus_INR in *. simpl INR in *. field. exact Hn.
Qed.

(** The profile table after [_run_eas_and_store] is the table before it with
    one upsert per stored score, in order. *)
Lemma run_eas_and_store_profiles (db db' : Db) (txn : string)
      (q r : list R) (ids : list string) (snapshot : bool) (now : datetime)
      (objs : list AttributionScore) :
  _run_eas_and_store db txn q r ids snapshot now = Ok (objs, db') ->
  memory_profiles db'
  = fold_left (fun t s => welford_upsert (score_memory_id s) (score s) now t)
              objs (memory_profiles db).
Proof.
  unfold _run_eas_and_store.
  destruct (eas_of_rows _ q r) as [res|e]; simpl; [|discriminate].
  intros [= <- <-].
  set (objs := map _ _). clearbody objs.
  set (db1 := Build_Db _ _ _ _ _).
  change (memory_profiles db) with (memory_profiles db1).
  clearbody db1. revert db1.
  induction objs as [|s objs IH]; intros db1; simpl; [reflexivity|].
  rewrite IH. reflexivity.
Qed.

(** C2, as the code has it.  [_run_eas_and_store] applies one Welford
    upsert per stored score, and the upsert of a score [x] for a memory does
    this: on an existing profile row [(mean, m2, n, total)] it leaves
    [n + 1], [mean + (x - mean) / (n + 1)], [m2 + (x - mean) * (x - mean')],
    [total + x], all read against the old row, and the trend that the
    [CASE] gives on the [float8] values of [x] and of the old mean: "up" if
    [x] is above the rounded product [mean * 1.1], else "down" if [x] is
    below the rounded product [mean * 0.9], else "stable" (the products
    being finite); on a memory without a row it inserts
    [(x, 0, 1, x, stable)]. *)
Theorem welford_upsert_establishes (mem : string) (x : R) (now : datetime)
        (profiles : list MemoryProfile) :
  (forall db db' txn q r ids snapshot objs,
     _run_eas_and_store db txn q r ids snapshot now = Ok (objs, db') ->
     (exists res,
         eas_of_rows (select_memories db ids snapshot) q r = Ok res /\
         objs = map (score_object txn res)
                    (enumerate (filter has_embedding
                                       (select_memories db ids snapshot)))) /\
     memory_profiles db'
     = fold_left (fun t s => welford_upsert (score_memory_id s) (score s) now t)
                 objs (memory_profiles db)) /\
  (forall p, find_profile mem profiles = Some p ->
     exists p',
       find_profile mem (welford_upsert mem x now profiles) = Some p' /\
       retrieval_count p' = (retrieval_count p + 1)%nat /\
       mean_attribution p'
       = mean_attribution p
         + (x - mean_attribution p) / INR (retrieval_count p') /\
       m2 p' = m2 p + (x - mean_attribution p) * (x - mean_attribution p') /\
       total_attribution p' = total_attribution p + x /\
       (forall fx fm : float,
           float8_value fx = Some x ->
           float8_value fm = Some (mean_attribution p) ->
           PrimFloat.is_finite (PrimFloat.mul fm float8_1_1) = true ->
           PrimFloat.is_finite (PrimFloat.mul fm float8_0_9) = true ->
           trend p' = trend_case fx fm)) /\
  (find_profile mem profiles = None ->
     exists p',
       find_profile mem (welford_upsert mem x now profiles) = Some p' /\
       mean_attribution p' = x /\ m2 p' = 0 /\ retrieval_count p' = 1%nat /\
       total_attribution p' = x /\ trend p' = stable).
Proof.
  split; [|split].
  - intros db db' txn q r ids snapshot objs Hrun. split.
    + unfold _run_eas_and_store in Hrun.
      destruct (eas_of_rows (select_memories db ids snapshot) q r)
        as [res|e]; simpl in Hrun; [|discriminate].
      exists res. split; [reflexivity|]. congruence.
    + apply (run_eas_and_store_profiles _ _ _ _ _ _ _ Hrun).
  - intros p Hp. exists (welford_update x now p).
    split; [apply find_profile_upsert_hit; exact Hp|].
    cbn [welford_update retrieval_count mean_attribution m2 total_attribution
         trend].
    repeat split.
    intros fx fm Hx Hm _ _. apply trend_of_doubles; assumption.
  - intros Hnone. exists (welford_insert mem x now).
    split; [apply find_profile_upsert_miss; exact Hnone|].
    simpl. repeat split.
Qed.

(** C2, as the specification words it, fails: the old mean
    [0.9090909090909091] and the score [1.0] have [x > 1.1 * mean] over the
    reals, but the product [mean * 1.1] rounds to [1.0], so the [CASE]
    falls through to "stable". *)
Lemma welford_trend_compares_rounded_products :
  float8_value 0x1.d1745d1745d17p-1%float
  = Some (mean_attribution boundary_profile) /\
  float8_value 1%float = Some 1 /\
  1 > 11 / 10 * mean_attribution boundary_profile /\
  exists p',
    find_profile "m1" (welford_upsert "m1" 1 7%Z [boundary_profile])
    = Some p' /\
    trend p' = stable /\ trend p' <> up.
Proof.
  split; [exact float8_value_boundary|].
  split; [exact float8_value_one|].
  split; [simpl; lra|].
  eexists. split; [reflexivity|].
  assert (Ht : trend (welford_update 1 7%Z boundary_profile) = stable).
  { unfold boundary_profile.
    cbn [welford_update welford_insert trend mean_attribution].
    rewrite (@trend_of_doubles _ _ _ _ float8_value_one float8_value_boundary).
    vm_compute. reflexivity. }
  split; [exact Ht|]. rewrite Ht. discriminate.
Qed.

(** *** Facts about the two paths *)

Lemma map_cons_eq {A B : Type} (f : A -> B) (a a' : A) (l l' : list A) :
  map f (a :: l) = map f (a' :: l') -> f a = f a' /\ map f l = map f l'.
Proof. simpl. intros [= H1 H2]. split; assumption. Qed.

Lemma mem_key_id (a b : MemoryRow) : mem_key a = mem_key b -> mem_id a = mem_id b.
Proof. intros [= H _]. exact H. Qed.

Lemma mem_key_embedding (a b : MemoryRow) :
  mem_key a = mem_key b -> mem_embedding a = mem_embedding b.
Proof. intros [= _ H]. exact H. Qed.

Lemma insert_by_id_keys (a a' : MemoryRow) (s s' : list MemoryRow) :
  mem_key a = mem_key a' ->
  map mem_key s = map mem_key s' ->
  map mem_key (insert_by_id a s) = map mem_key (insert_by_id a' s').
Proof.
  intros Ha. revert s'.
  induction s as [|x s IH]; intros [|x' s'] Hs; try discriminate.
  - simpl. rewrite Ha. reflexivity.
  - apply map_cons_eq in Hs as [Hx Hs]. simpl.
    rewrite (mem_key_id Ha), (mem_key_id Hx).
    destruct (String.leb (mem_id a') (mem_id x')); simpl.
    + rewrite Ha, Hx, Hs. reflexivity.
    + rewrite Hx, (IH s' Hs). reflexivity.
Qed.

Lemma order_by_id_keys (l l' : list MemoryRow) :
  map mem_key l = map mem_key l' ->
  map mem_key (order_by_id l) = map mem_key (order_by_id l').
Proof.
  revert l'. unfold order_by_id.
  induction l as [|a l IH]; intros [|a' l'] H; try discriminate.
  - reflexivity.
  - apply map_cons_eq in H as [Ha Hl]. simpl. apply insert_by_id_keys; [exact Ha|].
    apply IH. exact Hl.
Qed.

(** A filter that reads only the key of a row commutes with forgetting the
    other columns. *)
Lemma filter_keys (P : string * option (list R) -> bool)
      (l l' : list MemoryRow) :
  map mem_key l = map mem_key l' ->
  map mem_key (filter (fun m => P (mem_key m)) l)
  = map mem_key (filter (fun m => P (mem_key m)) l').
Proof.
  revert l'.
  induction l as [|a l IH]; intros [|a' l'] H; try discriminate.
  - reflexivity.
  - apply map_cons_eq in H as [Ha Hl]. simpl. rewrite Ha.
    destruct (P (mem_key a')); simpl.
    + rewrite Ha, (IH l' Hl). reflexivity.
    + apply IH. exact Hl.
Qed.

Lemma select_snapshot_keys (db db' : Db) (ids : list string) :
  same_memory_content db db' ->
  map mem_key (select_memories db ids true)
  = map mem_key (select_memories db' ids true).
Proof.
  intros H. unfold select_memories. destruct ids as [|i ids]; [reflexivity|].
  apply order_by_id_keys.
  apply (filter_keys
           (fun k => existsb (String.eqb (fst k)) (i :: ids) && (true || false))).
  exact H.
Qed.

(** With every requested memory live, the [deleted_at] filter removes
    nothing. *)
Lemma select_live (db : Db) (ids : list string) :
  live_at db ids ->
  select_memories db ids false = select_memories db ids true.
Proof.
  intros Hlive. unfold select_memories. destruct ids as [|i ids]; [reflexivity|].
  f_equal. apply filter_ext_in. intros m Hm.
  destruct (id_in (i :: ids) m) eqn:E; [|reflexivity].
  rewrite (Hlive m Hm E). reflexivity.
Qed.

Lemma embeddings_of_keys (l l' : list MemoryRow) :
  map mem_key l = map mem_key l' ->
  map embedding_of (filter has_embedding l)
  = map embedding_of (filter has_embedding l').
Proof.
  intros H.
  pose proof (filter_keys (fun k => list_truthy (snd k)) l l' H) as HF.
  change (map mem_key (filter has_embedding l)
          = map mem_key (filter has_embedding l')) in HF.
  assert (E : forall rows, map embedding_of rows
                           = map (fun k => list_or (snd k) []) (map mem_key rows)).
  { intros rows. rewrite map_map. reflexivity. }
  rewrite !E, HF. reflexivity.
Qed.

Lemma eas_of_rows_keys (l l' : list MemoryRow) (q r : list R) :
  map mem_key l = map mem_key l' ->
  eas_of_rows l q r = eas_of_rows l' q r.
Proof.
  intros H. unfold eas_of_rows.
  destruct l as [|a l], l' as [|a' l']; try discriminate; [reflexivity|].
  rewrite (embeddings_of_keys _ _ H). reflexivity.
Qed.

Lemma score_objects_ids (t t' : string) (res : eas_result)
      (l l' : list MemoryRow) (n : nat) :
  map mem_id l = map mem_id l' ->
  map score_view (map (score_object t res) (combine (seq n (length l)) l))
  = map score_view (map (score_object t' res) (combine (seq n (length l')) l')).
Proof.
  revert l' n.
  induction l as [|a l IH]; intros [|a' l'] n H; try discriminate.
  - reflexivity.
  - apply map_cons_eq in H as [Ha Hl]. simpl. rewrite (IH l' (S n) Hl).
    unfold score_view at 1 3. simpl. rewrite Ha. reflexivity.
Qed.

Lemma store_profile_transactions (now : datetime)
      (objs : list AttributionScore) (db : Db) :
  transactions (fold_left (store_profile now) objs db) = transactions db.
Proof.
  revert db. induction objs as [|s objs IH]; intros db; simpl; [reflexivity|].
  rewrite IH. reflexivity.
Qed.

Lemma run_views_keys (db db' : Db) (t t' : string) (q r : list R)
      (ids : list string) (snap snap' : bool) (now now' : datetime) :
  map mem_key (select_memories db ids snap)
  = map mem_key (select_memories db' ids snap') ->
  run_views (_run_eas_and_store db t q r ids snap now)
  = run_views (_run_eas_and_store db' t' q r ids snap' now').
Proof.
  intros H. unfold _run_eas_and_store.
  rewrite (eas_of_rows_keys _ _ q r H).
  destruct (eas_of_rows (select_memories db' ids snap') q r) as [res|e];
    simpl; [|reflexivity].
  f_equal. unfold enumerate. apply score_objects_ids.
  pose proof (filter_keys (fun k => list_truthy (snd k)) _ _ H) as HF.
  change (map mem_key (filter has_embedding (select_memories db ids snap))
          = map mem_key (filter has_embedding (select_memories db' ids snap')))
    in HF.
  assert (E : forall rows, map mem_id rows = map fst (map mem_key rows)).
  { intros rows. rewrite map_map. reflexivity. }
  rewrite !E, HF. reflexivity.
Qed.

Lemma run_scores_length (db db' : Db) (t : string) (q r : list R)
      (ids : list string) (snap : bool) (now : datetime)
      (objs : list AttributionScore) :
  _run_eas_and_store db t q r ids snap now = Ok (objs, db') ->
  length objs = length (filter has_embedding (select_memories db ids snap)) /\
  transactions db' = transactions db.
Proof.
  unfold _run_eas_and_store.
  destruct (eas_of_rows _ q r) as [res|e]; simpl; [|discriminate].
  intros [= <- <-]. split.
  - unfold enumerate. rewrite length_map, length_combine, length_seq.
    apply Nat.min_id.
  - rewrite store_profile_transactions. reflexivity.
Qed.

Lemma filter_insert_by_id_length (p : MemoryRow -> bool) (a : MemoryRow)
      (s : list MemoryRow) :
  length (filter p (insert_by_id a s)) = length (filter p (a :: s)).
Proof.
  induction s as [|x s IH]; [reflexivity|].
  simpl insert_by_id. destruct (String.leb (mem_id a) (mem_id x)); [reflexivity|].
  simpl in *. destruct (p x), (p a); simpl in *; lia.
Qed.

Lemma filter_order_by_id_length (p : MemoryRow -> bool) (l : list MemoryRow) :
  length (filter p (order_by_id l)) = length (filter p l).
Proof.
  unfold order_by_id. induction l as [|a l IH]; [reflexivity|].
  simpl fold_right. rewrite filter_insert_by_id_length. simpl.
  destruct (p a); simpl; rewrite IH; reflexivity.
Qed.

Lemma filter_filter_andb {A : Type} (p q : A -> bool) (l : list A) :
  filter q (filter p l) = filter (fun x => p x && q x) l.
Proof.
  induction l as [|a l IH]; [reflexivity|].
  simpl. destruct (p a); simpl; [|exact IH].
  destruct (q a); rewrite IH; reflexivity.
Qed.

(** The number of rows that get a score: the stored memories that are
    requested, pass the [deleted_at] filter (when it is applied) and have an
    embedding. *)
Lemma scored_count (db : Db) (ids : list string) (snap : bool) :
  length (filter has_embedding (select_memories db ids snap))
  = length (filter (fun m => id_in ids m
                             && (snap || is_none (mem_deleted_at m))
                             && has_embedding m)
                   (memories db)).
Proof.
  unfold select_memories. destruct ids as [|i ids].
  - simpl. induction (memories db) as [|m l IH]; [reflexivity|exact IH].
  - rewrite filter_order_by_id_length, filter_filter_andb. reflexivity.
Qed.

Lemma snapshot_scored_count (db : Db) (ids : list string) :
  length (filter has_embedding (select_memories db ids true))
  = length (filter (fun m => id_in ids m && has_embedding m) (memories db)).
Proof.
  rewrite scored_count. f_equal. apply filter_ext. intros m.
  rewrite orb_true_l, andb_true_r. reflexivity.
Qed.

Lemma in_insert_by_id (x a : MemoryRow) (s : list MemoryRow) :
  In x (insert_by_id a s) -> x = a \/ In x s.
Proof.
  induction s as [|y s IH]; simpl.
  - intros [H|[]]. left. symmetry. exact H.
  - destruct (String.leb (mem_id a) (mem_id y)); simpl.
    + intros [H|H]; [left; symmetry; exact H|right; exact H].
    + intros [H|H]; [right; left; exact H|].
      destruct (IH H) as [E|E]; [left; exact E|right; right; exact E].
Qed.

Lemma in_order_by_id (x : MemoryRow) (l : list MemoryRow) :
  In x (order_by_id l) -> In x l.
Proof.
  unfold order_by_id. induction l as [|a l IH]; simpl; [tauto|].
  intros H. apply in_insert_by_id in H as [->|H]; [left; reflexivity|].
  right. apply IH. exact H.
Qed.

Lemma in_select_memories (x : MemoryRow) (db : Db) (ids : list string)
      (snap : bool) :
  In x (select_memories db ids snap) -> In x (memories db).
Proof.
  unfold select_memories. destruct ids as [|i ids]; [intros []|].
  intros H. apply in_order_by_id in H. apply filter_In in H. apply H.
Qed.

(** When the stored embeddings have the width of the query and response
    embeddings, the EAS step raises nothing. *)
Lemma eas_of_rows_ok (rows : list MemoryRow) (q r : list R) (d : nat) :
  Forall (fun m => has_embedding m = true -> length (embedding_of m) = d) rows ->
  length q = d -> length r = d ->
  exists res, eas_of_rows rows q r = Ok res.
Proof.
  intros Hrows Hq Hr. unfold eas_of_rows.
  destruct rows as [|m0 rows0]; [eexists; reflexivity|].
  set (rows := m0 :: rows0) in *.
  assert (Hemb : Forall (fun e => length e = d)
                        (map embedding_of (filter has_embedding rows))).
  { apply Forall_forall. intros e He.
    apply in_map_iff in He as (m & <- & Hm). apply filter_In in Hm as [Hin Hhas].
    rewrite Forall_forall in Hrows. apply (Hrows m Hin Hhas). }
  destruct (map embedding_of (filter has_embedding rows)) as [|e0 embs] eqn:E.
  - simpl. eexists. reflexivity.
  - unfold np_array.
    assert (Hall : forallb (fun x => Nat.eqb (length x) (length e0)) (e0 :: embs)
                   = true).
    { apply forallb_forall. intros x Hx. apply Nat.eqb_eq.
      rewrite Forall_forall in Hemb.
      rewrite (Hemb x Hx), (Hemb e0 (or_introl eq_refl)). reflexivity. }
    rewrite Hall. simpl bind.
    match goal with
    | |- context [if ?c then _ else _] => destruct c
    end; [|eexists; reflexivity].
    assert (Hd : length e0 = d).
    { rewrite Forall_forall in Hemb. apply Hemb. left. reflexivity. }
    destruct (@compute_eas_unfold (Rows (length e0) (e0 :: embs)) q r)
      as (sim_mr & sim_mq & _ & _ & _ & _ & Heq).
    + unfold shape0. simpl. lia.
    + simpl. congruence.
    + simpl. congruence.
    + cbv zeta in Heq. rewrite Heq. eexists. reflexivity.
Qed.

Lemma run_eas_and_store_ok (db : Db) (t : string) (q r : list R)
      (ids : list string) (snap : bool) (now : datetime) (d : nat) :
  Forall (fun m => has_embedding m = true -> length (embedding_of m) = d)
         (memories db) ->
  length q = d -> length r = d ->
  exists objs db',
    _run_eas_and_store db t q r ids snap now = Ok (objs, db') /\
    length objs
    = length (filter (fun m => id_in ids m
                               && (snap || is_none (mem_deleted_at m))
                               && has_embedding m)
                     (memories db)).
Proof.
  intros Hmem Hq Hr.
  destruct (@eas_of_rows_ok (select_memories db ids snap) q r d) as [res Hres];
    try assumption.
  { apply Forall_forall. intros m Hm. rewrite Forall_forall in Hmem.
    apply Hmem. apply (in_select_memories _ _ _ _ Hm). }
  destruct (_run_eas_and_store db t q r ids snap now) as [[objs db']|e] eqn:Erun.
  - exists objs, db'. split; [reflexivity|].
    destruct (run_scores_length _ _ _ _ _ _ _ Erun) as [Hlen _].
    rewrite Hlen. apply scored_count.
  - exfalso. unfold _run_eas_and_store in Erun. rewrite Hres in Erun.
    simpl in Erun. discriminate.
Qed.

(** The soft delete touches [deleted_at] only. *)
Lemma delete_memory_same_content (mem : string) (now : datetime) (db : Db) :
  same_memory_content db (snd (delete_memory mem now db)).
Proof.
  unfold same_memory_content, delete_memory.
  destruct (find _ (memories db)); simpl; [|reflexivity].
  rewrite map_map. apply map_ext. intros x. unfold soft_delete.
  destruct (String.eqb (mem_id x) mem); reflexivity.
Qed.

Lemma delete_memory_transactions (mem : string) (now : datetime) (db : Db)
      (t : string) :
  find_transaction (snd (delete_memory mem now db)) t = find_transaction db t.
Proof.
  unfold delete_memory. destruct (find _ (memories db)); reflexivity.
Qed.

Lemma find_transaction_app_fresh (db : Db) (row : TransactionRow) :
  find_transaction db (txn_id row) = None ->
  find_transaction (with_transactions db (transactions db ++ [row])) (txn_id row)
  = Some row.
Proof.
  unfold find_transaction. simpl. intros H.
  induction (transactions db) as [|x l IH]; simpl in *.
  - rewrite String.eqb_refl. reflexivity.
  - destruct (String.eqb (txn_id x) (txn_id row)); [discriminate|].
    apply IH. exact H.
Qed.

Lemma find_complete_row (txns : list TransactionRow) (t : string)
      (text : string) (r_emb : list R) (i o : nat) (row : TransactionRow) :
  find (fun x => String.eqb (txn_id x) t) txns = Some row ->
  find (fun x => String.eqb (txn_id x) t)
       (map (complete_row t text r_emb i o) txns)
  = Some (complete_row t text r_emb i o row).
Proof.
  induction txns as [|x l IH]; simpl; [discriminate|].
  destruct (String.eqb (txn_id x) t) eqn:E.
  - intros [= <-]. unfold complete_row at 1. rewrite E. simpl.
    rewrite E. reflexivity.
  - intros H. unfold complete_row at 1. rewrite E, E. apply IH. exact H.
Qed.

Lemma scored_count_keys (db db' : Db) (ids : list string) :
  same_memory_content db db' ->
  length (filter (fun m => id_in ids m && has_embedding m) (memories db))
  = length (filter (fun m => id_in ids m && has_embedding m) (memories db')).
Proof.
  intros H.
  pose proof (filter_keys
                (fun k => existsb (String.eqb (fst k)) ids && list_truthy (snd k))
                _ _ H) as HF.
  apply (f_equal (@length _)) in HF. rewrite !length_map in HF. exact HF.
Qed.

Section TwoPhase.

Variable embed : list string -> list (list R).
Variable count_words : string -> nat.
Variable pi_in pi_out : R.
Variables (query_text response_text agent model : string).
Variables (q r : list R) (ids : list string).
Variables (in_tok out_tok : option nat).

Local Abbreviation the_initiate :=
  (initiate_body query_text agent model q ids).

Local Abbreviation the_complete :=
  (complete_body response_text r in_tok out_tok).

Local Abbreviation the_create :=
  (create_body query_text response_text agent model q r ids in_tok out_tok).

(** Completing the pending transaction scores the rows selected with
    [snapshot = true] from the store at completion time. *)
Lemma complete_transaction_scores (t : string) (now : datetime) (db : Db)
      (row : TransactionRow) :
  q <> [] -> r <> [] ->
  find_transaction db t = Some row ->
  txn_status row = pending ->
  txn_query_embedding row = Some q ->
  txn_retrieved_memory_ids row = ids ->
  exists db1,
    memories db1 = memories db /\
    response_scores
      (fst (complete_transaction embed count_words pi_in pi_out t
                                 the_complete now db))
    = run_views (_run_eas_and_store db1 t q r ids true now) /\
    (forall resp,
       fst (complete_transaction embed count_words pi_in pi_out t
                                 the_complete now db) = Ok resp ->
       exists db2,
         _run_eas_and_store db1 t q r ids true now = Ok (tws_scores resp, db2)) /\
    (forall objs db2,
       _run_eas_and_store db1 t q r ids true now = Ok (objs, db2) ->
       exists resp,
         fst (complete_transaction embed count_words pi_in pi_out t
                                   the_complete now db) = Ok resp /\
         tws_scores resp = objs).
Proof.
  intros Hq Hr Hfind Hst Hqe Hids.
  destruct q as [|q0 q'] eqn:Eq; [contradiction|].
  destruct r as [|r0 r'] eqn:Er; [contradiction|].
  unfold complete_transaction. rewrite Hfind, Hst. simpl negb. cbv iota.
  unfold complete_body. simpl tf_response_embedding.
  simpl list_or. rewrite Hqe, Hids. simpl list_or.
  set (db1 := with_transactions db _).
  exists db1. split; [reflexivity|].
  destruct (_run_eas_and_store db1 t (q0 :: q') (r0 :: r') ids true now)
    as [[objs db2]|e] eqn:Erun.
  - destruct (run_scores_length _ _ _ _ _ _ _ Erun) as [_ Htx].
    assert (Hf : exists row', find_transaction db2 t = Some row').
    { unfold find_transaction. rewrite Htx. unfold db1. simpl transactions.
      eexists. apply find_complete_row. exact Hfind. }
    destruct Hf as [row' Hf].
    unfold build_response. rewrite Hf. simpl. split; [reflexivity|]. split.
    + intros resp [= <-]. simpl. exists db2. reflexivity.
    + intros objs' db2' [= <- <-]. eexists. split; reflexivity.
  - simpl. split; [reflexivity|]. split.
    + intros resp Habs. discriminate.
    + intros objs' db2' Habs. discriminate.
Qed.

(** The single-shot path scores the rows selected with [snapshot = false]
    from the store it is run on. *)
Lemma create_transaction_scores (t : string) (now : datetime) (db : Db) :
  q <> [] -> r <> [] ->
  find_transaction db t = None ->
  exists db1,
    memories db1 = memories db /\
    response_scores
      (fst (create_transaction embed count_words pi_in pi_out
                               the_create t now db))
    = run_views (_run_eas_and_store db1 t q r ids false now) /\
    (forall objs db2,
       _run_eas_and_store db1 t q r ids false now = Ok (objs, db2) ->
       exists resp,
         fst (create_transaction embed count_words pi_in pi_out
                                 the_create t now db) = Ok resp /\
         tws_scores resp = objs).
Proof.
  intros Hq Hr Hfresh.
  destruct q as [|q0 q'] eqn:Eq; [contradiction|].
  destruct r as [|r0 r'] eqn:Er; [contradiction|].
  unfold create_transaction, create_body. simpl tc_query_embedding.
  simpl tc_response_embedding. simpl list_truthy. cbv iota.
  simpl list_or. simpl tc_retrieved_memory_ids.
  unfold insert_transaction. simpl txn_id. rewrite Hfresh. simpl bind.
  set (row := Build_TransactionRow _ _ _ _ _ _ _ _ _ _ _ _).
  set (db1 := with_transactions db _).
  exists db1. split; [reflexivity|].
  destruct (_run_eas_and_store db1 t (q0 :: q') (r0 :: r') ids false now)
    as [[objs db2]|e] eqn:Erun.
  - destruct (run_scores_length _ _ _ _ _ _ _ Erun) as [_ Htx].
    assert (Hf : find_transaction db2 t = Some row).
    { unfold find_transaction. rewrite Htx.
      apply (find_transaction_app_fresh db row). exact Hfresh. }
    unfold build_response. rewrite Hf. simpl. split; [reflexivity|].
    intros objs' db2' [= <- <-]. eexists. split; reflexivity.
  - simpl. split; [reflexivity|]. intros objs' db2' Habs. discriminate.
Qed.

Lemma initiate_transaction_store (t : string) (now : datetime) (db : Db) :
  q <> [] ->
  find_transaction db t = None ->
  let db_i := snd (initiate_transaction embed the_initiate t now db) in
  memories db_i = memories db /\
  exists row,
    find_transaction db_i t = Some row /\
    txn_status row = pending /\
    txn_query_embedding row = Some q /\
    txn_retrieved_memory_ids row = ids.
Proof.
  intros Hq Hfresh.
  destruct q as [|q0 q'] eqn:Eq; [contradiction|].
  unfold initiate_transaction, initiate_body, insert_transaction.
  simpl txn_id. rewrite Hfresh. simpl.
  split; [reflexivity|].
  set (row := Build_TransactionRow _ _ _ _ _ _ _ _ _ _ _ _).
  exists row. split; [|repeat split].
  apply (find_transaction_app_fresh db row). exact Hfresh.
Qed.

Lemma select_memories_memories (db db' : Db) (l : list string) (snap : bool) :
  memories db = memories db' ->
  select_memories db l snap = select_memories db' l snap.
Proof. intros H. unfold select_memories. rewrite H. reflexivity. Qed.

(** The two-phase path, completed on any later store that still holds the
    same memories with the same embeddings, returns the scores the
    single-shot path returns on the initiate-time store, provided no
    requested memory was already soft-deleted then. *)
Lemma two_phase_single_shot (db0 db_c : Db) (t_two t_one : string)
      (now_i now_c now_s : datetime) :
  q <> [] -> r <> [] ->
  find_transaction db0 t_two = None ->
  find_transaction db0 t_one = None ->
  live_at db0 ids ->
  let db_i := snd (initiate_transaction embed the_initiate t_two now_i db0) in
  same_memory_content db_i db_c ->
  find_transaction db_c t_two = find_transaction db_i t_two ->
  response_scores
    (fst (complete_transaction embed count_words pi_in pi_out t_two
                               the_complete now_c db_c))
  = response_scores
      (fst (create_transaction embed count_words pi_in pi_out
                               the_create t_one now_s db0)) /\
  forall resp,
    fst (complete_transaction embed count_words pi_in pi_out t_two
                              the_complete now_c db_c) = Ok resp ->
    length (tws_scores resp)
    = length (filter (fun m => id_in ids m && has_embedding m) (memories db0)).
Proof.
  intros Hq Hr Hf2 Hf1 Hlive db_i Hsame Hkeep.
  destruct (initiate_transaction_store t_two now_i db0 Hq Hf2)
    as (Hmem_i & row & Hrow & Hst & Hqe & Hids).
  fold db_i in Hmem_i, Hrow. rewrite Hrow in Hkeep.
  destruct (complete_transaction_scores t_two now_c db_c Hq Hr Hkeep Hst Hqe Hids)
    as (dbc1 & Hmem_c & Hcomplete & Hresp & _).
  destruct (create_transaction_scores t_one now_s db0 Hq Hr Hf1)
    as (db01 & Hmem_0 & Hcreate & _).
  assert (Hsame0 : same_memory_content db0 db_c).
  { unfold same_memory_content in *. rewrite <- Hmem_i. exact Hsame. }
  split.
  - rewrite Hcomplete, Hcreate. apply run_views_keys.
    rewrite (select_memories_memories dbc1 db_c ids true Hmem_c).
    rewrite (select_memories_memories db01 db0 ids false Hmem_0).
    rewrite (select_live Hlive). symmetry.
    apply select_snapshot_keys. exact Hsame0.
  - intros resp Hok. destruct (Hresp resp Hok) as (db2 & Hrun).
    destruct (run_scores_length _ _ _ _ _ _ _ Hrun) as [Hlen _].
    rewrite Hlen, (select_memories_memories dbc1 db_c ids true Hmem_c).
    rewrite snapshot_scored_count. symmetry.
    apply scored_count_keys. exact Hsame0.
Qed.

End TwoPhase.

Lemma s4_deleted_widths :
  Forall (fun m => has_embedding m = true -> length (embedding_of m) = 3%nat)
         (memories s4_deleted).
Proof. repeat constructor. Qed.

(** *** Specified properties of the endpoints *)

(** C8.  Completing a transaction id that is not stored raises
    [HTTPException 404]; completing a stored transaction whose status is not
    [pending] raises [HTTPException 409]; in both cases the store is left
    exactly as it was. *)
Theorem complete_transaction_rejects
        (embed : list string -> list (list R)) (count_words : string -> nat)
        (pi_in pi_out : R)
        (txn : string) (body : TransactionComplete) (now : datetime) (db : Db) :
  (find_transaction db txn = None ->
   complete_transaction embed count_words pi_in pi_out txn body now db
   = (Raise (HTTPException 404), db)) /\
  (forall row,
     find_transaction db txn = Some row ->
     txn_status row <> pending ->
     complete_transaction embed count_words pi_in pi_out txn body now db
     = (Raise (HTTPException 409), db)).
Proof.
  unfold complete_transaction. split.
  - intros ->. reflexivity.
  - intros row -> Hst. destruct (txn_status row); [contradiction|reflexivity].
Qed.

(** C1, as the code has it.  For a query embedding [q], a response embedding
    [r] and a list of memory ids none of which is soft-deleted at initiate
    time, the scores returned by the two-phase path, completed on any later
    store that still holds the same memories and embeddings (so after any
    soft deletions in between), equal, memory by memory, those the
    single-shot path returns on the initiate-time store, and there is one
    score for each requested initiate-time memory with an embedding. *)
Theorem two_phase_matches_single_shot_at_initiate
        (embed : list string -> list (list R)) (count_words : string -> nat)
        (pi_in pi_out : R)
        (query_text response_text agent model : string)
        (q r : list R) (ids : list string) (in_tok out_tok : option nat)
        (db0 db_c : Db) (t_two t_one : string)
        (now_i now_c now_s : datetime) :
  q <> [] -> r <> [] ->
  find_transaction db0 t_two = None ->
  find_transaction db0 t_one = None ->
  live_at db0 ids ->
  let db_i :=
    snd (initiate_transaction embed
           (initiate_body query_text agent model q ids) t_two now_i db0) in
  same_memory_content db_i db_c ->
  find_transaction db_c t_two = find_transaction db_i t_two ->
  response_scores
    (fst (complete_transaction embed count_words pi_in pi_out t_two
            (complete_body response_text r in_tok out_tok) now_c db_c))
  = response_scores
      (fst (create_transaction embed count_words pi_in pi_out
              (create_body query_text response_text agent model q r ids
                           in_tok out_tok)
              t_one now_s db0)) /\
  forall resp,
    fst (complete_transaction embed count_words pi_in pi_out t_two
           (complete_body response_text r in_tok out_tok) now_c db_c) = Ok resp ->
    length (tws_scores resp)
    = length (filter (fun m => id_in ids m && has_embedding m) (memories db0)).
Proof.
  intros Hq Hr Hf2 Hf1 Hlive db_i Hsame Hkeep.
  apply two_phase_single_shot with (now_i := now_i); assumption.
Qed.

Lemma two_phase_matches_single_shot_at_initiate_witness :
  response_scores s4_two_phase = response_scores s4_single_shot_at_initiate /\
  forall resp, s4_two_phase = Ok resp -> length (tws_scores resp) = 3%nat.
Proof.
  apply (@two_phase_matches_single_shot_at_initiate
           no_embed no_words 0 0 "q" "r" "agent" "model"
           [1; 0; 0] [1; 0; 0] s4_ids None None
           s4_store s4_deleted "t-two" "t-one" 1%Z 3%Z 3%Z).
  - discriminate.
  - discriminate.
  - reflexivity.
  - reflexivity.
  - intros m Hm _. simpl in Hm.
    destruct Hm as [<-|[<-|[<-|[]]]]; reflexivity.
  - reflexivity.
  - reflexivity.
Defined.

(** On a store holding the three memories with [m2] soft-deleted, the
    two-phase path scores three memories and the single-shot path two. *)
Lemma s4_three_against_two (db_c db_s : Db) :
  memories db_c = memories s4_deleted ->
  memories db_s = memories s4_deleted ->
  find_transaction db_c "t-two" = Some s4_pending_row ->
  find_transaction db_s "t-one" = None ->
  let two_phase :=
    fst (complete_transaction no_embed no_words 0 0 "t-two"
           (complete_body "r" [1; 0; 0] None None) 3%Z db_c) in
  let single_shot :=
    fst (create_transaction no_embed no_words 0 0
           (create_body "q" "r" "agent" "model" [1; 0; 0] [1; 0; 0] s4_ids
                        None None)
           "t-one" 3%Z db_s) in
  exists two one,
    two_phase = Ok two /\ single_shot = Ok one /\
    length (tws_scores two) = 3%nat /\ length (tws_scores one) = 2%nat /\
    response_scores two_phase <> response_scores single_shot.
Proof.
  intros Hmem_c Hmem_s Hpending Hfresh two_phase single_shot.
  assert (Hq : [1; 0; 0] <> @nil R) by discriminate.
  destruct (@complete_transaction_scores
              no_embed no_words 0 0 "r" [1; 0; 0] [1; 0; 0] s4_ids None None
              "t-two" 3%Z db_c s4_pending_row
              Hq Hq Hpending eq_refl eq_refl eq_refl)
    as (dbc & Hmc & _ & _ & Hcomplete).
  destruct (@create_transaction_scores
              no_embed no_words 0 0 "q" "r" "agent" "model"
              [1; 0; 0] [1; 0; 0] s4_ids None None
              "t-one" 3%Z db_s Hq Hq Hfresh)
    as (dbs & Hms & _ & Hcreate).
  rewrite Hmem_c in Hmc. rewrite Hmem_s in Hms.
  destruct (@run_eas_and_store_ok dbc "t-two" [1; 0; 0] [1; 0; 0] s4_ids true
                                  3%Z 3%nat)
    as (objs2 & db2 & Hrun2 & Hlen2);
    [rewrite Hmc; exact s4_deleted_widths | reflexivity | reflexivity |].
  destruct (@run_eas_and_store_ok dbs "t-one" [1; 0; 0] [1; 0; 0] s4_ids false
                                  3%Z 3%nat)
    as (objs1 & db1 & Hrun1 & Hlen1);
    [rewrite Hms; exact s4_deleted_widths | reflexivity | reflexivity |].
  rewrite Hmc in Hlen2. rewrite Hms in Hlen1.
  change (length objs2 = 3%nat) in Hlen2.
  change (length objs1 = 2%nat) in Hlen1.
  destruct (Hcomplete objs2 db2 Hrun2) as (two & Htwo & Hs2).
  destruct (Hcreate objs1 db1 Hrun1) as (one & Hone & Hs1).
  exists two, one.
  fold two_phase in Htwo. fold single_shot in Hone.
  rewrite Hs2, Hs1. repeat split; try assumption.
  rewrite Htwo, Hone. simpl. intros [= Habs].
  apply (f_equal (@length _)) in Habs. rewrite !length_map in Habs.
  rewrite Hs2, Hs1 in Habs. lia.
Qed.

(** C1, as the specification words it, fails.  On S4, after [m2] is
    soft-deleted between initiate and complete, the two-phase path returns
    three scores and a single-shot transaction with the same inputs returns
    two; and with [m2] soft-deleted before the initiate, the two paths
    started from one and the same store return three and two scores. *)
Lemma two_phase_differs_from_fresh_single_shot :
  (exists two one,
     s4_two_phase = Ok two /\
     s4_fresh_single_shot = Ok one /\
     length (tws_scores two) = 3%nat /\
     length (tws_scores one) = 2%nat /\
     response_scores s4_two_phase <> response_scores s4_fresh_single_shot) /\
  (exists two one,
     s4_predeleted_two_phase = Ok two /\
     s4_predeleted_single_shot = Ok one /\
     length (tws_scores two) = 3%nat /\
     length (tws_scores one) = 2%nat /\
     response_scores s4_predeleted_two_phase
     <> response_scores s4_predeleted_single_shot).
Proof.
  split.
  - apply (@s4_three_against_two s4_deleted s4_deleted); reflexivity.
  - apply (@s4_three_against_two
             (snd (initiate_transaction no_embed
                     (initiate_body "q" "agent" "model" [1; 0; 0] s4_ids)
                     "t-two" 1%Z s4_predeleted))
             s4_predeleted); reflexivity.
Qed.

Lemma welford_upsert_establishes_witness :
  exists p',
    find_profile "m1"
      (welford_upsert "m1" 1 7%Z [welford_insert "m1" (1 / 2) 3%Z]) = Some p' /\
    retrieval_count p' = 2%nat /\
    total_attribution p' = 1 / 2 + 1 /\
    trend p' = up.
Proof.
  destruct (welford_upsert_establishes "m1" 1 7%Z [welford_insert "m1" (1 / 2) 3%Z])
    as (_ & Hhit & _).
  destruct (Hhit (welford_insert "m1" (1 / 2) 3%Z) eq_refl)
    as (p' & Hfind & Hn & _ & _ & Htot & Htrend).
  exists p'. repeat split; try assumption.
  rewrite (Htrend 1%float 0.5%float float8_value_one float8_value_half
                  eq_refl eq_refl).
  vm_compute. reflexivity.
Defined.

Lemma complete_transaction_rejects_witness :
  complete_transaction no_embed no_words 0 0 "t-missing"
    (complete_body "r" [1; 0; 0] None None) 3%Z completed_store
  = (Raise (HTTPException 404), completed_store) /\
  complete_transaction no_embed no_words 0 0 "t-done"
    (complete_body "r" [1; 0; 0] None None) 3%Z completed_store
  = (Raise (HTTPException 409), completed_store).
Proof.
  split.
  - apply (complete_transaction_rejects no_embed no_words 0 0 "t-missing"
             (complete_body "r" [1; 0; 0] None None) 3%Z completed_store).
    reflexivity.
  - apply (complete_transaction_rejects no_embed no_words 0 0 "t-done"
             (complete_body "r" [1; 0; 0] None None) 3%Z completed_store)
      with (row := completed_row).
    + reflexivity.
    + discriminate.
Defined.

End Pipeline.

(** ** The provenance graph ([cortex/compliance/provenance.py]) *)

Module Provenance.

Local Open Scope Z_scope.

(** A UUID, as its 128-bit integer. *)
Definition UUID : Type := N.

Inductive ScoreType : Type := eas | contextcite | calibrated.

Inductive NodeType : Type := memory | summary | embedding.

Inductive DerivationType : Type :=
| consolidation | embedding_derivation | re_embedding | summary_derivation.

(** Rows of the graph tables ([cortex/db/models/provenance.py]).  The
    [metadata] columns and the generated [id] of the edge rows, which no
    recorder or query reads, are left out; so is the foreign key from
    [attribution_edges.target_id] to [interaction_nodes.id]. *)
Record InteractionNode : Type := {
  in_id : UUID;
  in_user_id : string;
  in_query : string;
  in_response : string;
  in_timestamp : datetime;
  in_agent_id : string;
  in_transaction_cost : Q
}.

Record CreationEdge : Type := {
  ce_source_id : UUID;
  ce_target_id : UUID;
  ce_created_at : datetime
}.

Record DerivationEdge : Type := {
  de_source_id : UUID;
  de_source_type : NodeType;
  de_target_id : UUID;
  de_target_type : NodeType;
  de_derivation_type : DerivationType;
  de_created_at : datetime
}.

Record AttributionEdge : Type := {
  ae_source_id : UUID;
  ae_target_id : UUID;
  ae_score : Q;
  ae_score_type : ScoreType;
  ae_version : Z;
  ae_is_current : bool;
  ae_created_at : datetime
}.

(** The tables the recorders and footprint queries below touch, each in
    insertion order. *)
Record Graph : Type := {
  interaction_nodes : list InteractionNode;
  creation_edges : list CreationEdge;
  derivation_edges : list DerivationEdge;
  attribution_edges : list AttributionEdge
}.

Definition empty_graph : Graph :=
  {| interaction_nodes := [];
     creation_edges := [];
     derivation_edges := [];
     attribution_edges := [] |}.

(** *** Write path *)

(** [session.add(edge)] for an attribution edge. *)
Definition add_attribution_edge (g : Graph) (edge : AttributionEdge) : Graph :=
  {| interaction_nodes := interaction_nodes g;
     creation_edges := creation_edges g;
     derivation_edges := derivation_edges g;
     attribution_edges := attribution_edges g ++ [edge] |}.

Definition add_interaction (g : Graph) (node : InteractionNode) : Graph :=
  {| interaction_nodes := interaction_nodes g ++ [node];
     creation_edges := creation_edges g;
     derivation_edges := derivation_edges g;
     attribution_edges := attribution_edges g |}.

(** Python's [zip]: stops at the end of the shorter list. *)
Fixpoint zip {A B : Type} (l : list A) (l' : list B) : list (A * B) :=
  match l, l' with
  | a :: t, b :: t' => (a, b) :: zip t t'
  | _, _ => []
  end.

(** [record_transaction]; [new_id] is the id generated for the interaction
    when it is flushed, [clock] what [datetime.now(UTC)] returns. *)
Definition record_transaction (g : Graph) (new_id : UUID) (clock : datetime)
           (user_id query response agent_id : string) (transaction_cost : Q)
           (memory_ids : list UUID) (attribution_scores : list Q)
           (score_type : ScoreType) (timestamp : option datetime)
  : InteractionNode * Graph :=
  let now := match timestamp with Some t => t | None => clock end in
  let interaction :=
    {| in_id := new_id;
       in_user_id := user_id;
       in_query := query;
       in_response := response;
       in_timestamp := now;
       in_agent_id := agent_id;
       in_transaction_cost := transaction_cost |} in
  let g1 := add_interaction g interaction in
  let g2 :=
    fold_left
      (fun acc pair =>
         add_attribution_edge acc
           {| ae_source_id := fst pair;
              ae_target_id := in_id interaction;
              ae_score := snd pair;
              ae_score_type := score_type;
              ae_version := 1;
              ae_is_current := true;
              ae_created_at := now |})
      (zip memory_ids attribution_scores) g1 in
  (interaction, g2).

(** The [WHERE] clause shared by the select and the update of
    [update_attribution]. *)
Definition is_current_for (source_id target_id : UUID) (e : AttributionEdge)
  : bool :=
  N.eqb (ae_source_id e) source_id && N.eqb (ae_target_id e) target_id
  && ae_is_current e.

(** [Result.scalar_one_or_none()]. *)
Definition scalar_one_or_none {A : Type} (rows : list A) : result (option A) :=
  match rows with
  | [] => Ok None
  | [x] => Ok (Some x)
  | _ :: _ :: _ => Raise MultipleResultsFound
  end.

(** [current or 0] on an optional integer: [None] and [0] are falsy. *)
Definition int_or (x : option Z) (y : Z) : Z :=
  match x with
  | Some v => if Z.eqb v 0 then y else v
  | None => y
  end.

Definition supersede (source_id target_id : UUID) (e : AttributionEdge)
  : AttributionEdge :=
  if is_current_for source_id target_id e
  then {| ae_source_id := ae_source_id e;
          ae_target_id := ae_target_id e;
          ae_score := ae_score e;
          ae_score_type := ae_score_type e;
          ae_version := ae_version e;
          ae_is_current := false;
          ae_created_at := ae_created_at e |}
  else e.

Definition update_attribution (g : Graph) (clock : datetime)
           (source_id target_id : UUID) (new_score : Q)
           (new_score_type : ScoreType) : result (AttributionEdge * Graph) :=
  let now := clock in
  current <-
    scalar_one_or_none
      (map ae_version
           (filter (is_current_for source_id target_id) (attribution_edges g))) ;;
  let next_version := int_or current 0 + 1 in
  let g1 :=
    {| interaction_nodes := interaction_nodes g;
       creation_edges := creation_edges g;
       derivation_edges := derivation_edges g;
       attribution_edges :=
         map (supersede source_id target_id) (attribution_edges g) |} in
  let new_edge :=
    {| ae_source_id := source_id;
       ae_target_id := target_id;
       ae_score := new_score;
       ae_score_type := new_score_type;
       ae_version := next_version;
       ae_is_current := true;
       ae_created_at := now |} in
  Ok (new_edge, add_attribution_edge g1 new_edge).

(** *** Read path *)

(** The result of F(u). *)
Record UserFootprint : Type := {
  user_id : string;
  memory_node_ids : list UUID;
  summary_node_ids : list UUID;
  embedding_node_ids : list UUID;
  interaction_node_ids : list UUID
}.

(** A row [(node_id, node_type)] of the recursive query [user_footprint]. *)
Definition footprint_row : Type := (UUID * NodeType)%type.

Definition node_type_eqb (a b : NodeType) : bool :=
  match a, b with
  | memory, memory | summary, summary | embedding, embedding => true
  | _, _ => false
  end.

Definition row_eqb (a b : footprint_row) : bool :=
  N.eqb (fst a) (fst b) && node_type_eqb (snd a) (snd b).

Definition row_mem (x : footprint_row) (rows : list footprint_row) : bool :=
  existsb (row_eqb x) rows.

(** [UNION]: the rows of [acc], then those of [rows] not yet present. *)
Definition union_rows (acc rows : list footprint_row) : list footprint_row :=
  fold_left (fun a x => if row_mem x a then a else a ++ [x]) rows acc.

(** The non-recursive term: memories created from the user's interactions. *)
Definition base_rows (g : Graph) (u : string) : list footprint_row :=
  flat_map
    (fun ce =>
       map (fun _ => (ce_target_id ce, memory))
           (filter (fun i => N.eqb (ce_source_id ce) (in_id i)
                             && String.eqb (in_user_id i) u)
                   (interaction_nodes g)))
    (creation_edges g).

(** The recursive term, joined against the rows found so far. *)
Definition step_rows (g : Graph) (found : list footprint_row)
  : list footprint_row :=
  flat_map
    (fun de =>
       map (fun _ => (de_target_id de, de_target_type de))
           (filter (fun uf => N.eqb (de_source_id de) (fst uf)) found))
    (derivation_edges g).

(** Iteration of the recursive term until a round adds no row.  Every
    productive round adds the target of a derivation edge that was not yet
    present, so one round more than there are derivation edges is enough
    ([iterate_closed] below). *)
Fixpoint iterate (g : Graph) (fuel : nat) (found : list footprint_row)
  : list footprint_row :=
  match fuel with
  | O => found
  | S fuel' =>
      let found' := union_rows found (step_rows g found) in
      if Nat.eqb (length found') (length found) then found
      else iterate g fuel' found'
  end.

(** [WITH RECURSIVE user_footprint AS (...)]. *)
Definition user_footprint (g : Graph) (u : string) : list footprint_row :=
  iterate g (S (length (derivation_edges g))) (union_rows [] (base_rows g u)).

Definition ids_of_type (ty : NodeType) (rows : list footprint_row) : list UUID :=
  map fst (filter (fun row => node_type_eqb (snd row) ty) rows).

Definition compute_user_footprint (g : Graph) (u : string) : UserFootprint :=
  let rows := user_footprint g u in
  {| user_id := u;
     memory_node_ids := ids_of_type memory rows;
     summary_node_ids := ids_of_type summary rows;
     embedding_node_ids := ids_of_type embedding rows;
     interaction_node_ids :=
       map in_id
           (filter (fun i => String.eqb (in_user_id i) u) (interaction_nodes g)) |}.

(** [ae.score > 0]. *)
Definition positive (x : Q) : bool := negb (Qle_bool x 0).

(** [SELECT DISTINCT ae.target_id FROM attribution_edges ae JOIN
    user_footprint uf ON ae.source_id = uf.node_id WHERE uf.node_type =
    'memory' AND ae.is_current = TRUE AND ae.score > 0]. *)
Definition compute_influence_footprint (g : Graph) (u : string) : list UUID :=
  let uf := user_footprint g u in
  nodup N.eq_dec
    (flat_map
       (fun ae =>
          map (fun _ => ae_target_id ae)
              (filter (fun row => N.eqb (ae_source_id ae) (fst row)
                                  && node_type_eqb (snd row) memory
                                  && ae_is_current ae
                                  && positive (ae_score ae))
                      uf))
       (attribution_edges g)).

(** Reachability in the provenance graph, as the specification defines
    F(u): the memories created from an interaction of [u], closed under
    derivation edges. *)
Inductive reaches (g : Graph) (u : string) : footprint_row -> Prop :=
| reach_base (ce : CreationEdge) (i : InteractionNode) :
    In ce (creation_edges g) -> In i (interaction_nodes g) ->
    ce_source_id ce = in_id i -> in_user_id i = u ->
    reaches g u (ce_target_id ce, memory)
| reach_step (de : DerivationEdge) (uf : footprint_row) :
    reaches g u uf -> In de (derivation_edges g) ->
    de_source_id de = fst uf ->
    reaches g u (de_target_id de, de_target_type de).

(** *** Invariants of the attribution table *)

Definition for_pair (source_id target_id : UUID) (e : AttributionEdge) : bool :=
  N.eqb (ae_source_id e) source_id && N.eqb (ae_target_id e) target_id.

(** At most one current row per (source, target) pair. *)
Definition single_current (edges : list AttributionEdge) : Prop :=
  forall s t, (length (filter (is_current_for s t) edges) <= 1)%nat.

(** The rows of a pair, in insertion order, carry the versions [1, 2, ..., n]
    and only the last of them is current. *)
Definition version_flags (n : nat) : list (Z * bool) :=
  map (fun i => (Z.of_nat i, Nat.eqb i n)) (seq 1 n).

Definition versioned (edges : list AttributionEdge) : Prop :=
  forall s t,
    map (fun e => (ae_version e, ae_is_current e)) (filter (for_pair s t) edges)
    = version_flags (length (filter (for_pair s t) edges)).

(** *** Auxiliary definitions *)

Definition first_edge (target : UUID) (score_type : ScoreType) (now : datetime)
           (pair : UUID * Q) : AttributionEdge :=
  {| ae_source_id := fst pair;
     ae_target_id := target;
     ae_score := snd pair;
     ae_score_type := score_type;
     ae_version := 1;
     ae_is_current := true;
     ae_created_at := now |}.

(** The version the select of [update_attribution] reads. *)
Definition current_versions (g : Graph) (s t : UUID) : list Z :=
  map ae_version (filter (is_current_for s t) (attribution_edges g)).

Definition flag (e : AttributionEdge) : Z * bool :=
  (ae_version e, ae_is_current e).

Definition target_row (de : DerivationEdge) : footprint_row :=
  (de_target_id de, de_target_type de).

(** The derivation edges whose target is not yet among the rows found: the
    quantity that a productive round decreases. *)
Definition pending_targets (g : Graph) (found : list footprint_row) : nat :=
  length (filter (fun de => negb (row_mem (target_row de) found))
                 (derivation_edges g)).

(** *** The scenario of S5 *)

Definition memory_A : UUID := 10%N.

Definition s5_recorded : InteractionNode * Graph :=
  record_transaction empty_graph 100%N 0 "user-1" "q" "r" "a" 0
                     [memory_A] [7 # 10] eas None.

Definition s5_graph : Graph := snd s5_recorded.

Definition s5_txn : UUID := in_id (fst s5_recorded).

Definition s5_final : result (AttributionEdge * Graph) :=
  out1 <- update_attribution s5_graph 1 memory_A s5_txn (65 # 100) calibrated ;;
  update_attribution (snd out1) 2 memory_A s5_txn (58 # 100) calibrated.

(** *** The scenarios of S6 and S7

    Alice records an interaction and a memory is created from it (the
    creation edge and the memory-to-embedding derivation edge are the rows
    [record_memory_creation] adds to the tables modelled here); Bob then
    records an interaction that retrieved Alice's memory with the given
    score. *)

Definition alice_memory : UUID := 10%N.

Definition influence_scenario (bob_score : Q) : Graph :=
  let g1 :=
    snd (record_transaction empty_graph 1%N 0 "alice" "q" "r" "a" 0 [] []
                            eas None) in
  let g2 :=
    {| interaction_nodes := interaction_nodes g1;
       creation_edges :=
         creation_edges g1
         ++ [{| ce_source_id := 1%N;
                ce_target_id := alice_memory;
                ce_created_at := 1 |}];
       derivation_edges :=
         derivation_edges g1
         ++ [{| de_source_id := alice_memory;
                de_source_type := memory;
                de_target_id := 20%N;
                de_target_type := embedding;
                de_derivation_type := embedding_derivation;
                de_created_at := 1 |}];
       attribution_edges := attribution_edges g1 |} in
  snd (record_transaction g2 2%N 2 "bob" "q2" "r2" "a" 0
                          [alice_memory] [bob_score] eas None).

(** *** [record_transaction] *)

Lemma fold_add_attribution_edges (f : UUID * Q -> AttributionEdge)
      (pairs : list (UUID * Q)) (g : Graph) :
  let g' := fold_left (fun acc pair => add_attribution_edge acc (f pair)) pairs g in
  attribution_edges g' = attribution_edges g ++ map f pairs /\
  interaction_nodes g' = interaction_nodes g /\
  creation_edges g' = creation_edges g /\
  derivation_edges g' = derivation_edges g.
Proof.
  revert g. induction pairs as [|p pairs IH]; intros g; simpl.
  - rewrite app_nil_r. repeat split.
  - destruct (IH (add_attribution_edge g (f p))) as (Ha & Hi & Hc & Hd).
    rewrite Ha, Hi, Hc, Hd. simpl. rewrite <- app_assoc. repeat split.
Qed.

Lemma zip_length {A B : Type} (l : list A) (l' : list B) :
  length (zip l l') = Nat.min (length l) (length l').
Proof.
  revert l'. induction l as [|a l IH]; intros [|b l']; simpl; try reflexivity.
  rewrite IH. reflexivity.
Qed.

Lemma zip_nth_error {A B : Type} (l : list A) (l' : list B) (i : nat) :
  nth_error (zip l l') i
  = match nth_error l i, nth_error l' i with
    | Some a, Some b => Some (a, b)
    | _, _ => None
    end.
Proof.
  revert l' i. induction l as [|a l IH]; intros [|b l'] [|i]; simpl;
    try reflexivity.
  - destruct (nth_error l i); reflexivity.
  - apply IH.
Qed.

Lemma record_transaction_edges (g : Graph) (new_id : UUID) (clock : datetime)
      (user_id query response agent_id : string) (cost : Q)
      (memory_ids : list UUID) (attribution_scores : list Q)
      (score_type : ScoreType) (timestamp : option datetime) :
  let now := match timestamp with Some t => t | None => clock end in
  let out := record_transaction g new_id clock user_id query response agent_id
                                cost memory_ids attribution_scores score_type
                                timestamp in
  attribution_edges (snd out)
  = attribution_edges g
    ++ map (first_edge new_id score_type now) (zip memory_ids attribution_scores)
  /\ interaction_nodes (snd out) = interaction_nodes g ++ [fst out]
  /\ creation_edges (snd out) = creation_edges g
  /\ derivation_edges (snd out) = derivation_edges g
  /\ in_id (fst out) = new_id.
Proof.
  intros now out. subst out. unfold record_transaction. simpl snd. simpl fst.
  match goal with
  | |- context [fold_left ?f ?l ?g0] =>
      destruct (fold_add_attribution_edges
                  (first_edge new_id score_type now) l g0) as (Ha & Hi & Hc & Hd)
  end.
  cbv zeta in Ha, Hi, Hc, Hd. unfold first_edge in Ha, Hi, Hc, Hd.
  subst now. simpl in_id in *.
  rewrite Ha, Hi, Hc, Hd. repeat split.
Qed.

(** *** [update_attribution] *)

Lemma is_current_for_split (s t : UUID) (e : AttributionEdge) :
  is_current_for s t e = for_pair s t e && ae_is_current e.
Proof. reflexivity. Qed.

Lemma for_pair_supersede (s t s' t' : UUID) (e : AttributionEdge) :
  for_pair s' t' (supersede s t e) = for_pair s' t' e.
Proof.
  unfold supersede. destruct (is_current_for s t e); reflexivity.
Qed.

Lemma for_pair_unique (s t s' t' : UUID) (e : AttributionEdge) :
  for_pair s t e = true -> for_pair s' t' e = true -> s' = s /\ t' = t.
Proof.
  unfold for_pair. intros H H'.
  apply andb_true_iff in H as [Hs Ht]. apply andb_true_iff in H' as [Hs' Ht'].
  apply N.eqb_eq in Hs, Ht, Hs', Ht'. split; congruence.
Qed.

Lemma supersede_not_current (s t : UUID) (e : AttributionEdge) :
  is_current_for s t (supersede s t e) = false.
Proof.
  unfold supersede. destruct (is_current_for s t e) eqn:E; [|exact E].
  unfold is_current_for. simpl. apply andb_false_r.
Qed.

Lemma filter_current_superseded (s t : UUID) (edges : list AttributionEdge) :
  filter (is_current_for s t) (map (supersede s t) edges) = [].
Proof.
  induction edges as [|e edges IH]; [reflexivity|].
  simpl. rewrite supersede_not_current. exact IH.
Qed.

(** Superseding the pair [(s, t)] leaves the rows of every other pair as
    they were. *)
Lemma supersede_other_pair (s t s' t' : UUID) (e : AttributionEdge) :
  (s', t') <> (s, t) ->
  for_pair s' t' e = true -> supersede s t e = e.
Proof.
  intros Hne H'. unfold supersede.
  destruct (is_current_for s t e) eqn:E; [|reflexivity].
  rewrite is_current_for_split in E. apply andb_true_iff in E as [E _].
  destruct (for_pair_unique _ _ _ _ _ E H') as [-> ->]. contradiction Hne. reflexivity.
Qed.

Lemma filter_pair_superseded_other (s t s' t' : UUID)
      (edges : list AttributionEdge) :
  (s', t') <> (s, t) ->
  filter (for_pair s' t') (map (supersede s t) edges)
  = filter (for_pair s' t') edges.
Proof.
  intros Hne. induction edges as [|e edges IH]; [reflexivity|].
  simpl. rewrite for_pair_supersede.
  destruct (for_pair s' t' e) eqn:E; [|exact IH].
  rewrite (@supersede_other_pair s t s' t' e Hne E), IH. reflexivity.
Qed.

Lemma filter_current_superseded_other (s t s' t' : UUID)
      (edges : list AttributionEdge) :
  (s', t') <> (s, t) ->
  filter (is_current_for s' t') (map (supersede s t) edges)
  = filter (is_current_for s' t') edges.
Proof.
  intros Hne. induction edges as [|e edges IH]; [reflexivity|].
  simpl. destruct (for_pair s' t' e) eqn:E.
  - rewrite (@supersede_other_pair s t s' t' e Hne E), IH. reflexivity.
  - rewrite !is_current_for_split, for_pair_supersede, E. exact IH.
Qed.

Lemma filter_pair_superseded (s t : UUID) (edges : list AttributionEdge) :
  filter (for_pair s t) (map (supersede s t) edges)
  = map (supersede s t) (filter (for_pair s t) edges).
Proof.
  induction edges as [|e edges IH]; [reflexivity|].
  simpl. rewrite for_pair_supersede.
  destruct (for_pair s t e); simpl; rewrite IH; reflexivity.
Qed.

Lemma pair_dec (s t s' t' : UUID) : {(s', t') = (s, t)} + {(s', t') <> (s, t)}.
Proof.
  destruct (N.eq_dec s' s) as [->|Hs]; [|right; congruence].
  destruct (N.eq_dec t' t) as [->|Ht]; [left; reflexivity|right; congruence].
Defined.

Lemma for_pair_new (s t s' t' : UUID) (e : AttributionEdge) :
  ae_source_id e = s -> ae_target_id e = t ->
  for_pair s' t' e = if pair_dec s t s' t' then true else false.
Proof.
  intros <- <-. unfold for_pair.
  destruct (pair_dec (ae_source_id e) (ae_target_id e) s' t') as [E|E].
  - injection E as -> ->. rewrite !N.eqb_refl. reflexivity.
  - destruct (N.eqb_spec (ae_source_id e) s') as [<-|_]; [|reflexivity].
    destruct (N.eqb_spec (ae_target_id e) t') as [<-|_]; [|reflexivity].
    contradiction E. reflexivity.
Qed.

Lemma update_attribution_ok (g : Graph) (clock : datetime) (s t : UUID)
      (new_score : Q) (new_score_type : ScoreType) (current : option Z) :
  scalar_one_or_none (current_versions g s t) = Ok current ->
  exists e g',
    update_attribution g clock s t new_score new_score_type = Ok (e, g') /\
    ae_source_id e = s /\ ae_target_id e = t /\
    ae_score e = new_score /\ ae_score_type e = new_score_type /\
    ae_is_current e = true /\
    ae_version e = int_or current 0 + 1 /\
    attribution_edges g' = map (supersede s t) (attribution_edges g) ++ [e].
Proof.
  intros Hcur. unfold update_attribution. fold (current_versions g s t).
  rewrite Hcur. simpl bind. eexists. eexists. split; [reflexivity|].
  simpl. repeat split.
Qed.

Lemma int_or_default (current : option Z) :
  int_or current 0 = match current with Some v => v | None => 0 end.
Proof.
  destruct current as [v|]; [|reflexivity].
  simpl. destruct (Z.eqb_spec v 0) as [->|_]; reflexivity.
Qed.

Lemma single_current_select (g : Graph) (s t : UUID) :
  single_current (attribution_edges g) ->
  exists current, scalar_one_or_none (current_versions g s t) = Ok current.
Proof.
  intros H. specialize (H s t). unfold current_versions.
  destruct (filter (is_current_for s t) (attribution_edges g)) as [|e [|e' l]];
    simpl in *; try (eexists; reflexivity). lia.
Qed.

Lemma update_attribution_single_current (g : Graph) (clock : datetime)
      (s t : UUID) (new_score : Q) (new_score_type : ScoreType) :
  single_current (attribution_edges g) ->
  exists e g' current,
    scalar_one_or_none (current_versions g s t) = Ok current /\
    update_attribution g clock s t new_score new_score_type = Ok (e, g') /\
    single_current (attribution_edges g') /\
    filter (is_current_for s t) (attribution_edges g') = [e] /\
    ae_is_current e = true /\
    ae_version e = match current with Some v => v | None => 0 end + 1 /\
    attribution_edges g' = map (supersede s t) (attribution_edges g) ++ [e].
Proof.
  intros Hinv.
  destruct (single_current_select g s t Hinv) as [current Hcur].
  destruct (update_attribution_ok g clock s t new_score new_score_type Hcur)
    as (e & g' & Hup & Hs & Ht & _ & _ & Hc & Hv & Hedges).
  exists e, g', current. rewrite int_or_default in Hv.
  assert (Hnew : is_current_for s t e = true).
  { rewrite is_current_for_split, (@for_pair_new s t s t e Hs Ht), Hc.
    destruct (pair_dec s t s t) as [_|E]; [reflexivity|].
    contradiction E. reflexivity. }
  repeat split; try assumption.
  - intros s' t'. rewrite Hedges, filter_app, length_app.
    destruct (pair_dec s t s' t') as [E|E].
    + injection E as -> ->. rewrite filter_current_superseded.
      simpl. rewrite Hnew. simpl. lia.
    + rewrite (@filter_current_superseded_other s t s' t' _ E). simpl.
      rewrite is_current_for_split, (@for_pair_new s t s' t' e Hs Ht).
      destruct (pair_dec s t s' t') as [E'|_].
      * injection E' as -> ->. contradiction E. reflexivity.
      * simpl. specialize (Hinv s' t'). lia.
  - rewrite Hedges, filter_app, filter_current_superseded. simpl.
    rewrite Hnew. reflexivity.
Qed.

Lemma versioned_flag (edges : list AttributionEdge) :
  versioned edges <->
  forall s t,
    map flag (filter (for_pair s t) edges)
    = version_flags (length (filter (for_pair s t) edges)).
Proof. reflexivity. Qed.

Lemma filter_none {A : Type} (f : A -> bool) (l : list A) :
  (forall x, In x l -> f x = false) -> filter f l = [].
Proof.
  induction l as [|a l IH]; intros H; [reflexivity|].
  simpl. rewrite (H a (or_introl eq_refl)). apply IH.
  intros x Hx. apply H. right. exact Hx.
Qed.

Lemma version_flags_S (n : nat) :
  version_flags (S n)
  = map (fun p => (fst p, false)) (version_flags n) ++ [(Z.of_nat (S n), true)].
Proof.
  unfold version_flags. rewrite seq_S, map_app. simpl map at 2.
  rewrite Nat.eqb_refl. f_equal. rewrite map_map. apply map_ext_in.
  intros i Hi. apply in_seq in Hi. simpl.
  destruct (Nat.eqb_spec i (S n)) as [E|_]; [lia|reflexivity].
Qed.

Lemma filter_snd_version_flags (n : nat) :
  filter snd (version_flags n)
  = match n with
    | O => []
    | S _ => [(Z.of_nat n, true)]
    end.
Proof.
  destruct n as [|n]; [reflexivity|].
  rewrite version_flags_S, filter_app. simpl.
  rewrite filter_none; [reflexivity|].
  intros x Hx. apply in_map_iff in Hx as (p & <- & _). reflexivity.
Qed.

Lemma current_versions_flags (rows : list AttributionEdge) :
  map ae_version (filter ae_is_current rows)
  = map fst (filter snd (map flag rows)).
Proof.
  induction rows as [|e rows IH]; [reflexivity|].
  simpl. destruct (ae_is_current e); simpl; rewrite IH; reflexivity.
Qed.

Lemma filter_current_of_pair (s t : UUID) (edges : list AttributionEdge) :
  filter (is_current_for s t) edges
  = filter ae_is_current (filter (for_pair s t) edges).
Proof.
  induction edges as [|e edges IH]; [reflexivity|].
  simpl. rewrite is_current_for_split.
  destruct (for_pair s t e); simpl; [|exact IH].
  destruct (ae_is_current e); rewrite IH; reflexivity.
Qed.

Lemma versioned_current_versions (g : Graph) (s t : UUID) :
  versioned (attribution_edges g) ->
  current_versions g s t
  = match length (filter (for_pair s t) (attribution_edges g)) with
    | O => []
    | S n => [Z.of_nat (S n)]
    end.
Proof.
  intros H. unfold current_versions.
  rewrite filter_current_of_pair, current_versions_flags.
  rewrite (proj1 (versioned_flag _) H s t), filter_snd_version_flags.
  destruct (length _); reflexivity.
Qed.

Lemma flags_superseded (s t : UUID) (rows : list AttributionEdge) :
  Forall (fun e => for_pair s t e = true) rows ->
  map flag (map (supersede s t) rows)
  = map (fun p => (fst p, false)) (map flag rows).
Proof.
  induction 1 as [|e rows He _ IH]; [reflexivity|].
  simpl. rewrite IH. f_equal. unfold supersede.
  rewrite is_current_for_split, He. simpl.
  destruct (ae_is_current e) eqn:E; unfold flag; simpl; [reflexivity|].
  rewrite E. reflexivity.
Qed.

Lemma filter_all {A : Type} (f : A -> bool) (l : list A) :
  Forall (fun x => f x = true) (filter f l).
Proof.
  apply Forall_forall. intros x Hx. apply filter_In in Hx. apply Hx.
Qed.

Lemma update_attribution_versioned (g : Graph) (clock : datetime)
      (s t : UUID) (new_score : Q) (new_score_type : ScoreType) :
  versioned (attribution_edges g) ->
  exists e g',
    update_attribution g clock s t new_score new_score_type = Ok (e, g') /\
    versioned (attribution_edges g') /\
    ae_version e
    = Z.of_nat (S (length (filter (for_pair s t) (attribution_edges g)))).
Proof.
  intros Hinv.
  pose proof (versioned_current_versions g s t Hinv) as Hcv.
  set (n := length (filter (for_pair s t) (attribution_edges g))) in *.
  assert (Hsel : exists current,
             scalar_one_or_none (current_versions g s t) = Ok current /\
             int_or current 0 + 1 = Z.of_nat (S n)).
  { rewrite Hcv. destruct n as [|m].
    - exists None. split; reflexivity.
    - exists (Some (Z.of_nat (S m))). split; [reflexivity|].
      unfold int_or. destruct (Z.eqb_spec (Z.of_nat (S m)) 0); lia. }
  destruct Hsel as (current & Hcur & Hnext).
  destruct (update_attribution_ok g clock s t new_score new_score_type Hcur)
    as (e & g' & Hup & Hs & Ht & _ & _ & Hc & Hv & Hedges).
  exists e, g'. rewrite Hnext in Hv. repeat split; try assumption.
  apply versioned_flag. intros s' t'.
  rewrite Hedges, filter_app.
  assert (Hnew : filter (for_pair s' t') [e]
                 = if pair_dec s t s' t' then [e] else []).
  { simpl. rewrite (@for_pair_new s t s' t' e Hs Ht).
    destruct (pair_dec s t s' t'); reflexivity. }
  rewrite Hnew. clear Hnew.
  destruct (pair_dec s t s' t') as [E|E].
  - injection E as -> ->.
    rewrite filter_pair_superseded, map_app, length_app, length_map.
    rewrite flags_superseded by apply filter_all.
    rewrite (proj1 (versioned_flag _) Hinv s t). fold n.
    simpl length. replace (n + 1)%nat with (S n) by lia.
    rewrite version_flags_S. unfold flag at 1. simpl map at 2.
    rewrite Hv, Hc. reflexivity.
  - rewrite (@filter_pair_superseded_other s t s' t' _ E), app_nil_r.
    apply (proj1 (versioned_flag _) Hinv).
Qed.

(** [versioned] is the stronger invariant. *)
Lemma versioned_single_current (edges : list AttributionEdge) :
  versioned edges -> single_current edges.
Proof.
  intros H s t.
  rewrite filter_current_of_pair.
  rewrite <- (length_map ae_version), current_versions_flags.
  rewrite (proj1 (versioned_flag _) H s t), filter_snd_version_flags.
  destruct (length (filter (for_pair s t) edges)); simpl; lia.
Qed.

(** *** The footprint queries *)

Lemma node_type_eqb_eq (a b : NodeType) : node_type_eqb a b = true <-> a = b.
Proof. destruct a, b; simpl; split; congruence. Qed.

Lemma row_eqb_eq (a b : footprint_row) : row_eqb a b = true <-> a = b.
Proof.
  destruct a as [a1 a2], b as [b1 b2]. unfold row_eqb. simpl.
  rewrite andb_true_iff, N.eqb_eq, node_type_eqb_eq. split.
  - intros [-> ->]. reflexivity.
  - intros [= -> ->]. split; reflexivity.
Qed.

Lemma row_mem_in (x : footprint_row) (rows : list footprint_row) :
  row_mem x rows = true <-> In x rows.
Proof.
  unfold row_mem. rewrite existsb_exists. split.
  - intros (y & Hy & E). apply row_eqb_eq in E. subst y. exact Hy.
  - intros H. exists x. split; [exact H|]. apply row_eqb_eq. reflexivity.
Qed.

Lemma union_rows_in (x : footprint_row) (acc rows : list footprint_row) :
  In x (union_rows acc rows) <-> In x acc \/ In x rows.
Proof.
  unfold union_rows. revert acc.
  induction rows as [|c rows IH]; intros acc; simpl; [tauto|].
  rewrite IH. destruct (row_mem c acc) eqn:E.
  - apply row_mem_in in E. split; [tauto|].
    intros [H|[<-|H]]; tauto.
  - rewrite in_app_iff. simpl. tauto.
Qed.

Lemma union_rows_length (acc rows : list footprint_row) :
  (length acc <= length (union_rows acc rows))%nat /\
  (length (union_rows acc rows) = length acc ->
   forall x, In x rows -> In x acc).
Proof.
  unfold union_rows. revert acc.
  induction rows as [|c rows IH]; intros acc; simpl.
  - split; [lia|]. intros _ x [].
  - destruct (row_mem c acc) eqn:E.
    + destruct (IH acc) as [Hle Heq]. split; [exact Hle|].
      intros Hlen x [<-|Hx]; [apply row_mem_in; exact E|].
      apply Heq; assumption.
    + destruct (IH (acc ++ [c])) as [Hle _].
      rewrite length_app in Hle. simpl in Hle. split; [lia|].
      intros Hlen. lia.
Qed.

Lemma union_rows_nodup (acc rows : list footprint_row) :
  NoDup acc -> NoDup (union_rows acc rows).
Proof.
  unfold union_rows. revert acc.
  induction rows as [|c rows IH]; intros acc Hacc; simpl; [exact Hacc|].
  apply IH. destruct (row_mem c acc) eqn:E; [exact Hacc|].
  apply NoDup_app; [exact Hacc|constructor; [intros []|constructor]|].
  intros x Hx [<-|[]]. apply row_mem_in in Hx. congruence.
Qed.

Lemma in_step_rows (g : Graph) (found : list footprint_row) (x : footprint_row) :
  In x (step_rows g found) <->
  exists de uf,
    In de (derivation_edges g) /\ In uf found /\
    de_source_id de = fst uf /\ x = target_row de.
Proof.
  unfold step_rows. rewrite in_flat_map. split.
  - intros (de & Hde & Hx). apply in_map_iff in Hx as (uf & <- & Huf).
    apply filter_In in Huf as [Huf E]. apply N.eqb_eq in E.
    exists de, uf. repeat split; assumption.
  - intros (de & uf & Hde & Huf & E & ->). exists de. split; [exact Hde|].
    apply in_map_iff. exists uf. split; [reflexivity|].
    apply filter_In. split; [exact Huf|]. apply N.eqb_eq. exact E.
Qed.

Lemma in_base_rows (g : Graph) (u : string) (x : footprint_row) :
  In x (base_rows g u) <->
  exists ce i,
    In ce (creation_edges g) /\ In i (interaction_nodes g) /\
    ce_source_id ce = in_id i /\ in_user_id i = u /\
    x = (ce_target_id ce, memory).
Proof.
  unfold base_rows. rewrite in_flat_map. split.
  - intros (ce & Hce & Hx). apply in_map_iff in Hx as (i & <- & Hi).
    apply filter_In in Hi as [Hi E]. apply andb_true_iff in E as [E1 E2].
    apply N.eqb_eq in E1. apply String.eqb_eq in E2.
    exists ce, i. repeat split; assumption.
  - intros (ce & i & Hce & Hi & E1 & E2 & ->). exists ce. split; [exact Hce|].
    apply in_map_iff. exists i. split; [reflexivity|].
    apply filter_In. split; [exact Hi|].
    apply andb_true_iff. split; [apply N.eqb_eq|apply String.eqb_eq]; assumption.
Qed.

Lemma filter_length_lt {A : Type} (f f' : A -> bool) (l : list A) (a : A) :
  (forall x, In x l -> f' x = true -> f x = true) ->
  In a l -> f a = true -> f' a = false ->
  (length (filter f' l) < length (filter f l))%nat.
Proof.
  intros Hmono Ha Hfa Hfa'.
  assert (Hle : forall l', (forall x, In x l' -> f' x = true -> f x = true) ->
                           (length (filter f' l') <= length (filter f l'))%nat).
  { induction l' as [|y l' IH]; intros H; simpl; [lia|].
    assert (IH' := IH (fun x Hx => H x (or_intror Hx))).
    destruct (f' y) eqn:E'.
    - rewrite (H y (or_introl eq_refl) E'). simpl. lia.
    - destruct (f y); simpl; lia. }
  induction l as [|y l IH]; [destruct Ha|].
  simpl. destruct Ha as [->|Ha].
  - rewrite Hfa, Hfa'. simpl.
    assert (H := Hle l (fun x Hx => Hmono x (or_intror Hx))). lia.
  - assert (IH' := IH (fun x Hx => Hmono x (or_intror Hx)) Ha).
    destruct (f' y) eqn:E'.
    + rewrite (Hmono y (or_introl eq_refl) E'). simpl. lia.
    + destruct (f y); simpl; lia.
Qed.

Lemma productive_round (g : Graph) (found : list footprint_row) :
  length (union_rows found (step_rows g found)) <> length found ->
  (pending_targets g (union_rows found (step_rows g found))
   < pending_targets g found)%nat.
Proof.
  intros Hlen.
  assert (Hnew : exists x, In x (step_rows g found) /\ row_mem x found = false).
  { destruct (existsb (fun x => negb (row_mem x found)) (step_rows g found))
      eqn:E.
    - apply existsb_exists in E as (x & Hx & Hn). exists x.
      split; [exact Hx|]. destruct (row_mem x found); [discriminate|reflexivity].
    - exfalso. apply Hlen. clear Hlen.
      assert (Hall : forall x, In x (step_rows g found) -> In x found).
      { intros x Hx. apply row_mem_in.
        destruct (row_mem x found) eqn:Em; [reflexivity|].
        assert (Habs : existsb (fun x => negb (row_mem x found))
                               (step_rows g found) = true).
        { apply existsb_exists. exists x. split; [exact Hx|].
          rewrite Em. reflexivity. }
        congruence. }
      unfold union_rows. revert Hall.
      generalize (step_rows g found) as rows.
      induction rows as [|c rows IH]; intros Hall; simpl; [reflexivity|].
      rewrite (proj2 (row_mem_in c found) (Hall c (or_introl eq_refl))).
      apply IH. intros x Hx. apply Hall. right. exact Hx. }
  destruct Hnew as (x & Hx & Hnot).
  apply in_step_rows in Hx as (de & uf & Hde & Huf & Esrc & ->).
  unfold pending_targets.
  apply filter_length_lt with (a := de).
  - intros d _ Hd. destruct (row_mem (target_row d) found) eqn:E;
      [|reflexivity].
    apply row_mem_in in E.
    assert (Hin : In (target_row d) (union_rows found (step_rows g found)))
      by (apply union_rows_in; left; exact E).
    apply row_mem_in in Hin. rewrite Hin in Hd. discriminate.
  - exact Hde.
  - rewrite Hnot. reflexivity.
  - assert (Hin : In (target_row de) (union_rows found (step_rows g found))).
    { apply union_rows_in. right. apply in_step_rows.
      exists de, uf. repeat split; assumption. }
    apply row_mem_in in Hin. rewrite Hin. reflexivity.
Qed.

(** With more fuel than pending targets, the iteration stops on a set that
    is closed under the recursive term. *)
Lemma iterate_closed (g : Graph) (fuel : nat) (found : list footprint_row) :
  (pending_targets g found < fuel)%nat ->
  (forall x, In x (step_rows g (iterate g fuel found)) ->
             In x (iterate g fuel found)) /\
  incl found (iterate g fuel found).
Proof.
  revert found. induction fuel as [|fuel IH]; intros found Hfuel; [lia|].
  simpl. destruct (Nat.eqb_spec (length (union_rows found (step_rows g found)))
                                (length found)) as [E|E].
  - split; [|apply incl_refl].
    intros x Hx. apply (proj2 (union_rows_length found (step_rows g found)) E).
    exact Hx.
  - pose proof (productive_round g found E) as Hlt.
    destruct (IH (union_rows found (step_rows g found))) as [Hclosed Hincl];
      [lia|].
    split; [exact Hclosed|].
    intros x Hx. apply Hincl. apply union_rows_in. left. exact Hx.
Qed.

Lemma iterate_invariant (g : Graph) (P : footprint_row -> Prop)
      (fuel : nat) (found : list footprint_row) :
  (forall de uf, P uf -> In de (derivation_edges g) ->
                 de_source_id de = fst uf -> P (target_row de)) ->
  (forall x, In x found -> P x) ->
  forall x, In x (iterate g fuel found) -> P x.
Proof.
  intros Hstep. revert found.
  induction fuel as [|fuel IH]; intros found Hfound x; simpl; [apply Hfound|].
  destruct (Nat.eqb (length (union_rows found (step_rows g found)))
                    (length found)); [apply Hfound|].
  apply IH. intros y Hy. apply union_rows_in in Hy as [Hy|Hy];
    [apply Hfound; exact Hy|].
  apply in_step_rows in Hy as (de & uf & Hde & Huf & Esrc & ->).
  apply (Hstep de uf); [apply Hfound; exact Huf|exact Hde|exact Esrc].
Qed.

Lemma iterate_nodup (g : Graph) (fuel : nat) (found : list footprint_row) :
  NoDup found -> NoDup (iterate g fuel found).
Proof.
  revert found. induction fuel as [|fuel IH]; intros found H; simpl; [exact H|].
  destruct (Nat.eqb (length (union_rows found (step_rows g found)))
                    (length found)); [exact H|].
  apply IH. apply union_rows_nodup. exact H.
Qed.

(** The recursive query computes exactly the reachable rows, each once. *)
Lemma user_footprint_reaches (g : Graph) (u : string) (x : footprint_row) :
  In x (user_footprint g u) <-> reaches g u x.
Proof.
  unfold user_footprint. split.
  - apply iterate_invariant.
    + intros de uf Huf Hde E. apply (@reach_step g u de uf Huf Hde E).
    + intros y Hy. apply union_rows_in in Hy as [[]|Hy].
      apply in_base_rows in Hy as (ce & i & Hce & Hi & E1 & E2 & ->).
      apply (@reach_base g u ce i Hce Hi E1 E2).
  - destruct (@iterate_closed g (S (length (derivation_edges g)))
                              (union_rows [] (base_rows g u)))
      as [Hclosed Hincl].
    { unfold pending_targets.
      pose proof (filter_length_le
                    (fun de => negb (row_mem (target_row de)
                                             (union_rows [] (base_rows g u))))
                    (derivation_edges g)). lia. }
    induction 1 as [ce i Hce Hi E1 E2|de uf Huf IH Hde E].
    + apply Hincl. apply union_rows_in. right. apply in_base_rows.
      exists ce, i. repeat split; assumption.
    + apply Hclosed. apply in_step_rows. exists de, uf.
      repeat split; assumption.
Qed.

Lemma user_footprint_nodup (g : Graph) (u : string) :
  NoDup (user_footprint g u).
Proof.
  unfold user_footprint. apply iterate_nodup, union_rows_nodup. constructor.
Qed.

Lemma in_ids_of_type (ty : NodeType) (rows : list footprint_row) (n : UUID) :
  In n (ids_of_type ty rows) <-> In (n, ty) rows.
Proof.
  unfold ids_of_type. rewrite in_map_iff. split.
  - intros ([n' ty'] & <- & H). apply filter_In in H as [H E].
    apply node_type_eqb_eq in E. simpl in E. subst ty'. exact H.
  - intros H. exists (n, ty). split; [reflexivity|].
    apply filter_In. split; [exact H|]. apply node_type_eqb_eq. reflexivity.
Qed.

Lemma positive_iff (x : Q) : positive x = true <-> (0 < x)%Q.
Proof.
  unfold positive. rewrite negb_true_iff. split.
  - intros H. apply Qnot_le_lt. intros Hle.
    apply Qle_bool_iff in Hle. congruence.
  - intros H. destruct (Qle_bool x 0) eqn:E; [|reflexivity].
    apply Qle_bool_iff in E. exfalso. apply (Qlt_not_le _ _ H E).
Qed.

Lemma in_influence_footprint (g : Graph) (u : string) (x : UUID) :
  In x (compute_influence_footprint g u) <->
  exists ae,
    In ae (attribution_edges g) /\ ae_target_id ae = x /\
    In (ae_source_id ae) (memory_node_ids (compute_user_footprint g u)) /\
    ae_is_current ae = true /\ (0 < ae_score ae)%Q.
Proof.
  unfold compute_influence_footprint. cbv zeta.
  rewrite nodup_In, in_flat_map. simpl memory_node_ids. split.
  - intros (ae & Hae & Hx). apply in_map_iff in Hx as ([n ty] & <- & Hrow).
    apply filter_In in Hrow as [Hrow E].
    apply andb_true_iff in E as [E Hpos]. apply andb_true_iff in E as [E Hcur].
    apply andb_true_iff in E as [Hsrc Hty]. simpl in Hsrc, Hty.
    apply N.eqb_eq in Hsrc. apply node_type_eqb_eq in Hty. subst ty.
    exists ae. repeat split; try assumption.
    + apply in_ids_of_type. rewrite Hsrc. exact Hrow.
    + apply positive_iff. exact Hpos.
  - intros (ae & Hae & <- & Hsrc & Hcur & Hpos).
    apply in_ids_of_type in Hsrc. exists ae. split; [exact Hae|].
    apply in_map_iff. exists (ae_source_id ae, memory).
    split; [reflexivity|]. apply filter_In. split; [exact Hsrc|].
    simpl. rewrite N.eqb_refl, Hcur, (proj2 (positive_iff _) Hpos). reflexivity.
Qed.

Lemma s5_graph_versioned : versioned (attribution_edges s5_graph).
Proof.
  intros s t.
  change (attribution_edges s5_graph)
    with [first_edge 100%N eas 0 (memory_A, 7 # 10)].
  cbn [filter]. destruct (for_pair s t _); reflexivity.
Qed.

(** *** Specified properties of the write path *)

(** C3.  [update_attribution] keeps at most one current row per
    (source, target) pair: on a table with that property it reads the
    current version [v], clears [is_current] on that row and appends a row
    with version [(v ?? 0) + 1] and [is_current = TRUE], which is then the
    only current row of its pair; on a table whose pairs carry the versions
    [1..n] with only the last current it leaves versions [1..n+1] with only
    the last current; and after recording a version-1 edge and two updates
    there are three rows, of versions 1, 2, 3, only the third current. *)
Theorem update_attribution_keeps_single_current (g : Graph) (clock : datetime)
        (s t : UUID) (new_score : Q) (new_score_type : ScoreType) :
  (single_current (attribution_edges g) ->
   exists e g' v,
     scalar_one_or_none (current_versions g s t) = Ok v /\
     update_attribution g clock s t new_score new_score_type = Ok (e, g') /\
     single_current (attribution_edges g') /\
     filter (is_current_for s t) (attribution_edges g') = [e] /\
     ae_is_current e = true /\
     ae_version e = match v with Some v => v | None => 0 end + 1 /\
     attribution_edges g' = map (supersede s t) (attribution_edges g) ++ [e]) /\
  (versioned (attribution_edges g) ->
   exists e g',
     update_attribution g clock s t new_score new_score_type = Ok (e, g') /\
     versioned (attribution_edges g') /\
     ae_version e
     = Z.of_nat (S (length (filter (for_pair s t) (attribution_edges g))))) /\
  (exists e3 g3,
     s5_final = Ok (e3, g3) /\
     map (fun e => (ae_version e, ae_is_current e, ae_score e))
         (attribution_edges g3)
     = [(1, false, 7 # 10); (2, false, 65 # 100); (3, true, 58 # 100)] /\
     ae_version e3 = 3).
Proof.
  split; [|split].
  - apply update_attribution_single_current.
  - apply update_attribution_versioned.
  - eexists. eexists. split; [reflexivity|]. split; reflexivity.
Qed.

Lemma update_attribution_keeps_single_current_witness :
  exists e g',
    update_attribution s5_graph 1 memory_A s5_txn (65 # 100) calibrated
    = Ok (e, g') /\
    single_current (attribution_edges g') /\
    versioned (attribution_edges g') /\
    ae_version e = 2.
Proof.
  destruct (update_attribution_keeps_single_current
              s5_graph 1 memory_A s5_txn (65 # 100) calibrated)
    as (Hsingle & Hversioned & _).
  destruct (Hversioned s5_graph_versioned) as (e & g' & Hup & Hv & Hn).
  destruct (Hsingle (versioned_single_current s5_graph_versioned))
    as (e1 & g1 & v & _ & Hup1 & Hs1 & _).
  rewrite Hup in Hup1. injection Hup1 as <- <-.
  exists e, g'. repeat split; assumption.
Defined.

(** C10.  [record_transaction] raises nothing whatever the lengths of
    [memory_ids] and [attribution_scores]: it appends the interaction node
    and one version-1 current attribution edge for each positional pair up
    to the shorter of the two lists, ignoring the surplus; with
    [memory_ids = []] it appends the interaction node only. *)
Theorem record_transaction_zips_to_shorter (g : Graph) (new_id : UUID)
        (clock : datetime) (user_id query response agent_id : string)
        (cost : Q) (memory_ids : list UUID) (attribution_scores : list Q)
        (score_type : ScoreType) (timestamp : option datetime) :
  let out := record_transaction g new_id clock user_id query response agent_id
                                cost memory_ids attribution_scores score_type
                                timestamp in
  exists new_edges,
    attribution_edges (snd out) = attribution_edges g ++ new_edges /\
    length new_edges
    = Nat.min (length memory_ids) (length attribution_scores) /\
    (forall i m x,
       nth_error memory_ids i = Some m ->
       nth_error attribution_scores i = Some x ->
       exists e,
         nth_error new_edges i = Some e /\
         ae_source_id e = m /\ ae_target_id e = in_id (fst out) /\
         ae_score e = x /\ ae_score_type e = score_type /\
         ae_version e = 1 /\ ae_is_current e = true) /\
    interaction_nodes (snd out) = interaction_nodes g ++ [fst out] /\
    creation_edges (snd out) = creation_edges g /\
    derivation_edges (snd out) = derivation_edges g /\
    (memory_ids = [] -> attribution_edges (snd out) = attribution_edges g).
Proof.
  intros out.
  destruct (record_transaction_edges g new_id clock user_id query response
              agent_id cost memory_ids attribution_scores score_type timestamp)
    as (Ha & Hi & Hc & Hd & Hid).
  cbv zeta in Ha, Hi, Hc, Hd, Hid. fold out in Ha, Hi, Hc, Hd, Hid.
  eexists. split; [exact Ha|].
  split; [rewrite length_map; apply zip_length|].
  split; [|split; [exact Hi|split; [exact Hc|split; [exact Hd|]]]].
  - intros i m x Hm Hx.
    eexists. split.
    + apply map_nth_error. rewrite zip_nth_error, Hm, Hx. reflexivity.
    + rewrite Hid. simpl. repeat split.
  - intros ->. rewrite Ha. simpl. apply app_nil_r.
Qed.

Lemma record_transaction_zips_to_shorter_witness :
  exists new_edges,
    attribution_edges
      (snd (record_transaction empty_graph 100%N 0 "u" "q" "r" "a" 0
              [1%N; 2%N; 3%N] [1 # 2; 1 # 4] eas None))
    = new_edges /\
    length new_edges = 2%nat.
Proof.
  destruct (record_transaction_zips_to_shorter
              empty_graph 100%N 0 "u" "q" "r" "a" 0
              [1%N; 2%N; 3%N] [1 # 2; 1 # 4] eas None)
    as (new_edges & Ha & Hlen & _).
  exists new_edges. split; [exact Ha | exact Hlen].
Defined.

Example s6_footprints :
  memory_node_ids (compute_user_footprint (influence_scenario (92 # 100)) "alice")
  = [alice_memory] /\
  memory_node_ids (compute_user_footprint (influence_scenario (92 # 100)) "bob")
  = [] /\
  compute_influence_footprint (influence_scenario (92 # 100)) "alice" = [2%N].
Proof. repeat split. Qed.

(** *** Specified properties of the read path *)

(** C7.  [compute_influence_footprint u] holds, each once, exactly the
    targets of the attribution edges that are current, have a positive
    score and whose source is a memory of F(u) (the memories reachable from
    [u]'s interactions through creation and derivation edges); an
    interaction all of whose current attribution edges from memories of F(u)
    have score zero is not in it. *)
Theorem influence_footprint_exact (g : Graph) (u : string) :
  (forall x,
     In x (compute_influence_footprint g u) <->
     exists ae,
       In ae (attribution_edges g) /\ ae_target_id ae = x /\
       In (ae_source_id ae) (memory_node_ids (compute_user_footprint g u)) /\
       ae_is_current ae = true /\ (0 < ae_score ae)%Q) /\
  NoDup (compute_influence_footprint g u) /\
  (forall m,
     In m (memory_node_ids (compute_user_footprint g u)) <->
     reaches g u (m, memory)) /\
  (forall x,
     (forall ae,
        In ae (attribution_edges g) -> ae_target_id ae = x ->
        In (ae_source_id ae) (memory_node_ids (compute_user_footprint g u)) ->
        ae_is_current ae = true ->
        (ae_score ae == 0)%Q) ->
     ~ In x (compute_influence_footprint g u)).
Proof.
  split; [|split; [|split]].
  - intros x. apply in_influence_footprint.
  - unfold compute_influence_footprint. apply NoDup_nodup.
  - intros m. simpl memory_node_ids.
    rewrite in_ids_of_type. apply user_footprint_reaches.
  - intros x Hzero Hx.
    apply in_influence_footprint in Hx as (ae & Hae & Ht & Hsrc & Hcur & Hpos).
    specialize (Hzero ae Hae Ht Hsrc Hcur).
    rewrite Hzero in Hpos. apply (Qlt_irrefl 0 Hpos).
Qed.

Lemma influence_footprint_exact_witness :
  In alice_memory
     (memory_node_ids (compute_user_footprint (influence_scenario 0) "alice")) /\
  ~ In 2%N (compute_influence_footprint (influence_scenario 0) "alice").
Proof.
  destruct (influence_footprint_exact (influence_scenario 0) "alice")
    as (_ & _ & _ & Hzero).
  split; [left; reflexivity|].
  apply Hzero. intros ae Hae _ _ _.
  simpl in Hae. destruct Hae as [<-|[]]. reflexivity.
Defined.

End Provenance.

(** ** SHA-256 ([hashlib.sha256], FIPS 180-4) *)

Module Sha256.

Local Open Scope Z_scope.

(** Words are 32-bit: integers in [0, 2^32), with the wrap-around written
    out. *)
Definition wrap (x : Z) : Z := x mod 2 ^ 32.

Definition add (x y : Z) : Z := wrap (x + y).

Definition rotr (n x : Z) : Z :=
  Z.lor (Z.shiftr x n) (wrap (Z.shiftl x (32 - n))).

Definition complement (x : Z) : Z := Z.lxor x (2 ^ 32 - 1).

Definition Ch (x y z : Z) : Z :=
  Z.lxor (Z.land x y) (Z.land (complement x) z).

Definition Maj (x y z : Z) : Z :=
  Z.lxor (Z.lxor (Z.land x y) (Z.land x z)) (Z.land y z).

Definition big_sigma0 (x : Z) : Z :=
  Z.lxor (Z.lxor (rotr 2 x) (rotr 13 x)) (rotr 22 x).

Definition big_sigma1 (x : Z) : Z :=
  Z.lxor (Z.lxor (rotr 6 x) (rotr 11 x)) (rotr 25 x).

Definition small_sigma0 (x : Z) : Z :=
  Z.lxor (Z.lxor (rotr 7 x) (rotr 18 x)) (Z.shiftr x 3).

Definition small_sigma1 (x : Z) : Z :=
  Z.lxor (Z.lxor (rotr 17 x) (rotr 19 x)) (Z.shiftr x 10).

(** The first 64 primes; the round constants are the first 32 bits of the
    fractional parts of their cube roots, the initial hash value those of
    the square roots of the first eight. *)
Definition primes : list Z :=
  [2; 3; 5; 7; 11; 13; 17; 19; 23; 29; 31; 37; 41; 43; 47; 53;
   59; 61; 67; 71; 73; 79; 83; 89; 97; 101; 103; 107; 109; 113; 127; 131;
   137; 139; 149; 151; 157; 163; 167; 173; 179; 181; 191; 193; 197; 199; 211;
   223; 227; 229; 233; 239; 241; 251; 257; 263; 269; 271; 277; 281; 283; 293;
   307; 311].

(** The integer cube root, bit by bit from [2 ^ bits] down. *)
Fixpoint cube_root (bits : nat) (n acc : Z) : Z :=
  match bits with
  | O => acc
  | S b =>
      let candidate := acc + 2 ^ Z.of_nat b in
      if candidate * candidate * candidate <=? n
      then cube_root b n candidate
      else cube_root b n acc
  end.

Definition round_constants : list Z :=
  Eval vm_compute in map (fun p => wrap (cube_root 36 (p * 2 ^ 96) 0)) primes.

Definition initial_hash : list Z :=
  Eval vm_compute in map (fun p => wrap (Z.sqrt (p * 2 ^ 64))) (firstn 8 primes).

Record registers : Type := Registers {
  ra : Z; rb : Z; rc : Z; rd : Z; re : Z; rf : Z; rg : Z; rh : Z
}.

Definition initial_registers : registers :=
  match initial_hash with
  | [a; b; c; d; e; f; g; h] => Registers a b c d e f g h
  | _ => Registers 0 0 0 0 0 0 0 0
  end.

(** Message padding: a one bit, zeros up to 56 modulo 64 bytes, then the
    length in bits as a 64-bit big-endian integer. *)
Fixpoint big_endian (bytes : nat) (x : Z) : list Z :=
  match bytes with
  | O => []
  | S b => (x / 2 ^ (8 * Z.of_nat b)) mod 256 :: big_endian b x
  end.

Definition pad (msg : list Z) : list Z :=
  let len := Z.of_nat (length msg) in
  msg ++ [128] ++ repeat 0 (Z.to_nat ((55 - len) mod 64))
      ++ big_endian 8 (8 * len).

Fixpoint words_of (n : nat) (bytes : list Z) : list Z :=
  match n, bytes with
  | S n', b0 :: b1 :: b2 :: b3 :: rest =>
      (((b0 * 256 + b1) * 256 + b2) * 256 + b3) :: words_of n' rest
  | _, _ => []
  end.

(** The message schedule, by a sliding window over the last 16 words. *)
Fixpoint extend (n : nat) (window : list Z) : list Z :=
  match n with
  | O => []
  | S n' =>
      let w :=
        add (add (small_sigma1 (nth 14 window 0)) (nth 9 window 0))
            (add (small_sigma0 (nth 1 window 0)) (nth 0 window 0)) in
      w :: extend n' (tl window ++ [w])
  end.

Definition schedule (block : list Z) : list Z :=
  let w16 := words_of 16 block in
  w16 ++ extend 48 w16.

Definition round (s : registers) (kw : Z * Z) : registers :=
  let t1 :=
    add (add (add (rh s) (big_sigma1 (re s))) (Ch (re s) (rf s) (rg s)))
        (add (fst kw) (snd kw)) in
  let t2 := add (big_sigma0 (ra s)) (Maj (ra s) (rb s) (rc s)) in
  Registers (add t1 t2) (ra s) (rb s) (rc s) (add (rd s) t1)
            (re s) (rf s) (rg s).

Definition compress (s : registers) (block : list Z) : registers :=
  let t := fold_left round (combine round_constants (schedule block)) s in
  Registers (add (ra s) (ra t)) (add (rb s) (rb t)) (add (rc s) (rc t))
            (add (rd s) (rd t)) (add (re s) (re t)) (add (rf s) (rf t))
            (add (rg s) (rg t)) (add (rh s) (rh t)).

Fixpoint blocks (n : nat) (bytes : list Z) : list (list Z) :=
  match n with
  | O => []
  | S n' =>
      match bytes with
      | [] => []
      | _ :: _ => firstn 64 bytes :: blocks n' (skipn 64 bytes)
      end
  end.

(** [hashlib.sha256(data)]. *)
Definition sha256 (data : list Z) : registers :=
  let padded := pad data in
  fold_left compress (blocks (length padded) padded) initial_registers.

Definition hex_digit (d : Z) : ascii :=
  nth (Z.to_nat d) (list_ascii_of_string "0123456789abcdef") "0"%char.

(** ['%08x' % w]. *)
Definition hex8 (w : Z) : string :=
  String (hex_digit ((w / 16 ^ 7) mod 16))
  (String (hex_digit ((w / 16 ^ 6) mod 16))
  (String (hex_digit ((w / 16 ^ 5) mod 16))
  (String (hex_digit ((w / 16 ^ 4) mod 16))
  (String (hex_digit ((w / 16 ^ 3) mod 16))
  (String (hex_digit ((w / 16 ^ 2) mod 16))
  (String (hex_digit ((w / 16) mod 16))
  (String (hex_digit (w mod 16)) EmptyString))))))).

(** [.hexdigest()]. *)
Definition hexdigest (s : registers) : string :=
  (hex8 (ra s) ++ hex8 (rb s) ++ hex8 (rc s) ++ hex8 (rd s)
   ++ hex8 (re s) ++ hex8 (rf s) ++ hex8 (rg s) ++ hex8 (rh s))%string.

(** [str.encode()] of an ASCII string. *)
Definition encode (s : string) : list Z :=
  map (fun c => Z.of_nat (nat_of_ascii c)) (list_ascii_of_string s).

Definition is_lower_hex (c : ascii) : bool :=
  let n := nat_of_ascii c in
  (Nat.leb 48 n && Nat.leb n 57) || (Nat.leb 97 n && Nat.leb n 102).

Example sha256_abc :
  hexdigest (sha256 (encode "abc"))
  = "ba7816bf8f01cfea414140de5dae2223b00361a396177a9cb410ff61f20015ad"%string.
Proof. vm_compute. reflexivity. Qed.

Example sha256_two_blocks :
  hexdigest
    (sha256 (encode "abcdbcdecdefdefgefghfghighijhijkijkljklmklmnlmnomnopnopq"))
  = "248d6a61d20638b8e5c026930c3e6039a33ce45964ff2167f6ecedd419db06c1"%string.
Proof. vm_compute. reflexivity. Qed.

Lemma hex_digit_lower (x : Z) : is_lower_hex (hex_digit (x mod 16)) = true.
Proof.
  assert (H : 0 <= x mod 16 < 16) by (apply Z.mod_pos_bound; lia).
  assert (Hn : (Z.to_nat (x mod 16) < 16)%nat) by lia.
  unfold hex_digit. destruct (Z.to_nat (x mod 16)) as [|n]; [reflexivity|].
  do 15 (destruct n as [|n]; [reflexivity|]). lia.
Qed.

Lemma hex8_length (w : Z) : String.length (hex8 w) = 8%nat.
Proof. reflexivity. Qed.

Lemma hex8_lower (w : Z) :
  Forall (fun c => is_lower_hex c = true) (list_ascii_of_string (hex8 w)).
Proof.
  unfold hex8. simpl. repeat constructor; apply hex_digit_lower.
Qed.

Lemma string_length_append (a b : string) :
  String.length (a ++ b) = (String.length a + String.length b)%nat.
Proof. induction a as [|c a IH]; simpl; [reflexivity|]. rewrite IH. reflexivity. Qed.

Lemma list_ascii_append (a b : string) :
  list_ascii_of_string (a ++ b)
  = (list_ascii_of_string a ++ list_ascii_of_string b)%list.
Proof. induction a as [|c a IH]; simpl; [reflexivity|]. rewrite IH. reflexivity. Qed.

Lemma hexdigest_length (s : registers) : String.length (hexdigest s) = 64%nat.
Proof.
  unfold hexdigest. rewrite !string_length_append, !hex8_length. reflexivity.
Qed.

Lemma hexdigest_lower (s : registers) :
  Forall (fun c => is_lower_hex c = true) (list_ascii_of_string (hexdigest s)).
Proof.
  unfold hexdigest. rewrite !list_ascii_append.
  repeat (apply Forall_app; split); apply hex8_lower.
Qed.

End Sha256.

(** ** The certificate hash ([UserFootprint.certificate_hash]) *)

Module Certificate.

Import Provenance.

Local Open Scope string_scope.

(** The JSON values [UserFootprint.serialize] builds. *)
#[warnings="-register-all"]
Inductive json : Type :=
| JString (s : string)
| JArray (items : list json)
| JObject (members : list (string * json)).

Definition quote : string := String (ascii_of_nat 34) EmptyString.

Definition backslash : string := String (ascii_of_nat 92) EmptyString.

(** ['\\u{0:04x}'.format(n)] for a code point below 256. *)
Definition unicode_escape (n : Z) : string :=
  backslash ++ "u00"
  ++ String (Sha256.hex_digit ((n / 16) mod 16))
       (String (Sha256.hex_digit (n mod 16)) EmptyString).

(** One character of [json.encoder.encode_basestring_ascii]: the short
    escapes, a [u]-escape for everything outside the printable ASCII range,
    the character itself otherwise.  A character of a Rocq string stands
    for the code point of its byte value. *)
Definition escape_char (c : ascii) : string :=
  let n := Z.of_nat (nat_of_ascii c) in
  if Z.eqb n 34 then backslash ++ quote
  else if Z.eqb n 92 then backslash ++ backslash
  else if Z.eqb n 10 then backslash ++ "n"
  else if Z.eqb n 13 then backslash ++ "r"
  else if Z.eqb n 9 then backslash ++ "t"
  else if Z.eqb n 8 then backslash ++ "b"
  else if Z.eqb n 12 then backslash ++ "f"
  else if (Z.ltb n 32 || Z.ltb 126 n)%bool then unicode_escape n
  else String c EmptyString.

Definition encode_string (s : string) : string :=
  quote ++ String.concat EmptyString (map escape_char (list_ascii_of_string s))
        ++ quote.

(** [sorted(dct.items())] on the rendered members: a stable insertion sort
    on the key. *)
Fixpoint insert_member (m : string * string) (sorted : list (string * string))
  : list (string * string) :=
  match sorted with
  | [] => [m]
  | x :: rest =>
      if String.leb (fst m) (fst x) then m :: x :: rest
      else x :: insert_member m rest
  end.

Definition sort_members (members : list (string * string))
  : list (string * string) :=
  fold_right insert_member [] members.

(** [json.dumps(value, sort_keys=sort_keys)] with the default separators
    [", "] and [": "] and [ensure_ascii=True]. *)
Fixpoint dumps (sort_keys : bool) (value : json) : string :=
  match value with
  | JString s => encode_string s
  | JArray items =>
      "[" ++ String.concat ", " (map (dumps sort_keys) items) ++ "]"
  | JObject members =>
      let rendered := map (fun kv => (fst kv, dumps sort_keys (snd kv))) members in
      let ordered := if sort_keys then sort_members rendered else rendered in
      "{"
      ++ String.concat ", "
           (map (fun kv => encode_string (fst kv) ++ ": " ++ snd kv) ordered)
      ++ "}"
  end.

Fixpoint hex_digits (n : nat) (x : Z) : string :=
  match n with
  | O => EmptyString
  | S n' =>
      String (Sha256.hex_digit ((x / 16 ^ Z.of_nat n') mod 16)) (hex_digits n' x)
  end.

(** [str(uuid)]: the 32 hex digits of the 128-bit integer, grouped
    8-4-4-4-12. *)
Definition str_uuid (u : UUID) : string :=
  let x := Z.of_N u in
  hex_digits 8 (x / 16 ^ 24) ++ "-" ++ hex_digits 4 (x / 16 ^ 20) ++ "-"
  ++ hex_digits 4 (x / 16 ^ 16) ++ "-" ++ hex_digits 4 (x / 16 ^ 12) ++ "-"
  ++ hex_digits 12 x.

Definition id_strings (ids : list UUID) : json :=
  JArray (map (fun x => JString (str_uuid x)) ids).

(** [UserFootprint.serialize], keys in the order the dict literal has
    them. *)
Definition serialize (fp : UserFootprint) : json :=
  JObject
    [("user_id", JString (user_id fp));
     ("memory_node_ids", id_strings (memory_node_ids fp));
     ("summary_node_ids", id_strings (summary_node_ids fp));
     ("embedding_node_ids", id_strings (embedding_node_ids fp));
     ("interaction_node_ids", id_strings (interaction_node_ids fp))].

Definition certificate_hash (fp : UserFootprint) : string :=
  Sha256.hexdigest (Sha256.sha256 (Sha256.encode (dumps true (serialize fp)))).

Definition footprint_ab : UserFootprint :=
  {| user_id := "u";
     memory_node_ids := [1%N; 2%N];
     summary_node_ids := [];
     embedding_node_ids := [];
     interaction_node_ids := [] |}.

Definition footprint_ba : UserFootprint :=
  {| user_id := "u";
     memory_node_ids := [2%N; 1%N];
     summary_node_ids := [];
     embedding_node_ids := [];
     interaction_node_ids := [] |}.

Example certificate_json :
  dumps true (serialize footprint_ab)
  = "{" ++ quote ++ "embedding_node_ids" ++ quote ++ ": [], "
    ++ quote ++ "interaction_node_ids" ++ quote ++ ": [], "
    ++ quote ++ "memory_node_ids" ++ quote ++ ": ["
    ++ quote ++ "00000000-0000-0000-0000-000000000001" ++ quote ++ ", "
    ++ quote ++ "00000000-0000-0000-0000-000000000002" ++ quote ++ "], "
    ++ quote ++ "summary_node_ids" ++ quote ++ ": [], "
    ++ quote ++ "user_id" ++ quote ++ ": " ++ quote ++ "u" ++ quote ++ "}".
Proof. vm_compute. reflexivity. Qed.

Example certificate_hash_ab :
  certificate_hash footprint_ab
  = "f64c24742b7510c8aa3f179485c474ecfa926edc57b244dccb9f4dc4d98e0aa1".
Proof. vm_compute. reflexivity. Qed.

Example certificate_hash_ba :
  certificate_hash footprint_ba
  = "6c52a6b058f121454882f0255ec872d0df68756d449b4a79b23f4593e9ad3d73".
Proof. vm_compute. reflexivity. Qed.

(** *** Specified properties of the certificate hash *)

(** C6, as the code has it.  [certificate_hash] always returns 64 lowercase
    hexadecimal characters, is a function of the footprint (so repeated
    computation gives the same string), and two footprints with the same
    user id and the same four id lists, in the same order, have the same
    hash. *)
Theorem certificate_hash_well_formed (fp fp' : UserFootprint) :
  String.length (certificate_hash fp) = 64%nat /\
  Forall (fun c => Sha256.is_lower_hex c = true)
         (list_ascii_of_string (certificate_hash fp)) /\
  (user_id fp = user_id fp' ->
   memory_node_ids fp = memory_node_ids fp' ->
   summary_node_ids fp = summary_node_ids fp' ->
   embedding_node_ids fp = embedding_node_ids fp' ->
   interaction_node_ids fp = interaction_node_ids fp' ->
   certificate_hash fp = certificate_hash fp').
Proof.
  split; [apply Sha256.hexdigest_length|].
  split; [apply Sha256.hexdigest_lower|].
  intros Hu Hm Hs He Hi. unfold certificate_hash, serialize.
  rewrite Hu, Hm, Hs, He, Hi. reflexivity.
Qed.

Lemma certificate_hash_well_formed_witness :
  String.length (certificate_hash footprint_ab) = 64%nat /\
  certificate_hash footprint_ab = certificate_hash footprint_ab.
Proof.
  destruct (certificate_hash_well_formed footprint_ab footprint_ab)
    as (Hlen & _ & Heq).
  split; [exact Hlen|].
  apply Heq; reflexivity.
Defined.

(** C6, as the specification words it, fails: the id lists are serialized
    in the order they are held, [sort_keys] orders the keys of the object
    only, and two footprints with the same ids in a different order hash
    differently. *)
Lemma certificate_hash_depends_on_order :
  user_id footprint_ab = user_id footprint_ba /\
  Permutation (memory_node_ids footprint_ab) (memory_node_ids footprint_ba) /\
  Permutation (summary_node_ids footprint_ab) (summary_node_ids footprint_ba) /\
  Permutation (embedding_node_ids footprint_ab)
              (embedding_node_ids footprint_ba) /\
  Permutation (interaction_node_ids footprint_ab)
              (interaction_node_ids footprint_ba) /\
  certificate_hash footprint_ab <> certificate_hash footprint_ba.
Proof.
  repeat split; try apply Permutation_refl.
  - apply perm_swap.
  - rewrite certificate_hash_ab, certificate_hash_ba. discriminate.
Qed.

End Certificate.

(** ** Further properties of the EAS kernel *)

Module EasFacts.

Import Eas.
Local Open Scope R_scope.

(** The normalised score of one memory row among [rows]. *)
Definition score_of (q r : list R) (rows : list (list R)) (row : list R) : R :=
  let total := rsum (map (raw_of q r) rows) in
  if Rlt_dec 0 total then raw_of q r row / total
  else 1 / INR (length rows).

Lemma dot_nonneg (v : list R) : 0 <= dot v v.
Proof.
  unfold dot. apply rsum_nonneg. apply Forall_forall. intros y Hy.
  apply in_map_iff in Hy as ([a b] & <- & Hab). simpl.
  assert (a = b).
  { clear -Hab. induction v as [|x v IH]; simpl in Hab; [destruct Hab|].
    destruct Hab as [[= -> ->]|H]; [reflexivity|apply IH; exact H]. }
  subst b. nra.
Qed.




(** [compute_eas] row by row: each raw score is a function of its own row,
    and each score of its own row, the sum of all raw scores and the number
    of rows. *)
Lemma compute_eas_closed (E : embeddings) (q r : list R) :
  (1 <= shape0 (as_matrix E))%nat ->
  ncols (as_matrix E) = length q ->
  ncols (as_matrix E) = length r ->
  compute_eas E q r
  = Ok (EasResult (map (score_of q r (mrows (as_matrix E))) (mrows (as_matrix E)))
                  (map (raw_of q r) (mrows (as_matrix E)))).
Proof.
  intros Hk Hq Hr. unfold compute_eas.
  destruct (Nat.eqb_spec (shape0 (as_matrix E)) 0) as [H0|_]; [lia|].
  rewrite (cosine_similarities_closed _ _ Hr), (cosine_similarities_closed _ _ Hq).
  simpl bind. rewrite hadamard_clamp_map. fold (raw_of q r).
  change (fun x => Rmax (cosine x r) 0 * Rmax (cosine x q) 0) with (raw_of q r).
  f_equal. f_equal. unfold score_of, shape0.
  destruct (Rlt_dec 0 (rsum (map (raw_of q r) (mrows (as_matrix E))))).
  - rewrite map_map. reflexivity.
  - rewrite map_const_repeat. reflexivity.
Qed.



Lemma rsum_permutation (l l' : list R) : Permutation l l' -> rsum l = rsum l'.
Proof.
  unfold rsum. induction 1; simpl; lra.
Qed.

(** *** Properties *)

(** X1.  With exactly one memory, its score is 1 whatever the embeddings are:
    either the single raw product is positive and is divided by itself, or
    the uniform fallback gives [1 / 1]. *)
Theorem compute_eas_single_memory (E : embeddings) (q r : list R) :
  shape0 (as_matrix E) = 1%nat ->
  ncols (as_matrix E) = length q ->
  ncols (as_matrix E) = length r ->
  exists res, compute_eas E q r = Ok res /\ scores res = [1].
Proof.
  intros Hk Hq Hr.
  eexists. split; [apply compute_eas_closed; try assumption; lia|].
  simpl scores. unfold shape0 in Hk.
  destruct (mrows (as_matrix E)) as [|row [|row' rows]]; try discriminate.
  simpl. f_equal. unfold score_of. simpl. unfold rsum. simpl.
  destruct (Rlt_dec 0 (raw_of q r row + 0)) as [Hpos|_]; field. lra.
Qed.

Lemma compute_eas_single_memory_witness :
  exists res,
    compute_eas (Rows 3 [[0; 0; 1]]) [1; 0; 0] [0; 1; 0] = Ok res /\
    scores res = [1].
Proof.
  apply (@compute_eas_single_memory (Rows 3 [[0; 0; 1]]) [1; 0; 0] [0; 1; 0]);
    reflexivity.
Defined.



End EasFacts.

(** ** Further properties of the pipeline
    ([cortex/api/transactions.py], [cortex/api/attribution.py],
    [cortex/api/memories.py], [cortex/models.py]) *)

Module PipelineFacts.

Import Eas Pipeline EasFacts.
Local Open Scope R_scope.

(** [MemoryProfile.attribution_variance] ([cortex/models.py]):
    [m2 / max(retrieval_count - 1, 1)]. *)
Definition attribution_variance (p : MemoryProfile) : R :=
  m2 p / INR (Nat.max (retrieval_count p - 1) 1).

(** One execution of the Welford upsert: the memory, the score and the time
    of the statement. *)
Definition upsert_event : Type := (string * R * datetime)%type.

Definition upsert_all (events : list upsert_event)
           (profiles : list MemoryProfile) : list MemoryProfile :=
  fold_left
    (fun t ev => welford_upsert (fst (fst ev)) (snd (fst ev)) (snd ev) t)
    events profiles.

(** The scores upserted for one memory, oldest first. *)
Definition history (mem : string) (events : list upsert_event) : list R :=
  map (fun ev => snd (fst ev))
      (filter (fun ev => String.eqb (fst (fst ev)) mem) events).

Definition mean (xs : list R) : R := rsum xs / INR (length xs).

(** Sum of the squared deviations from the mean. *)
Definition sum_sq_dev (xs : list R) : R :=
  rsum (map (fun x => (x - mean xs) * (x - mean xs)) xs).

(** What a profile row records of the scores [xs], in the form the update
    preserves. *)
Definition stats (p : MemoryProfile) (xs : list R) : Prop :=
  retrieval_count p = length xs /\
  total_attribution p = rsum xs /\
  INR (length xs) * mean_attribution p = rsum xs /\
  m2 p = rsum (map (fun x => x * x) xs)
         - INR (length xs) * (mean_attribution p * mean_attribution p).

(** The rows [_run_eas_and_store] scores: requested, passing the
    [deleted_at] filter when it is applied, and holding an embedding. *)
Definition scored (ids : list string) (snapshot : bool) (m : MemoryRow) : bool :=
  id_in ids m && (snapshot || is_none (mem_deleted_at m)) && has_embedding m.

(** The row after the [UPDATE memories] of the second loop hit it once. *)
Definition bumped (now : datetime) (m : MemoryRow) : MemoryRow :=
  {| mem_id := mem_id m;
     mem_embedding := mem_embedding m;
     mem_retrieval_count := mem_retrieval_count m + 1;
     mem_last_accessed := Some now;
     mem_deleted_at := mem_deleted_at m |}.

(** [WHERE attribution_scores.transaction_id = :txn_id], rows in table
    order. *)
Definition scores_of_transaction (db : Db) (txn : string)
  : list AttributionScore :=
  filter (fun s => String.eqb (score_transaction_id s) txn)
         (attribution_scores db).



(** [_row_to_memory] ([cortex/api/memories.py]), on the columns modelled:
    [embedding = row.embedding or []]. *)
Definition _row_to_memory (row : MemoryRow) : MemoryRow :=
  {| mem_id := mem_id row;
     mem_embedding := Some (list_or (mem_embedding row) []);
     mem_retrieval_count := mem_retrieval_count row;
     mem_last_accessed := mem_last_accessed row;
     mem_deleted_at := mem_deleted_at row |}.

(** [GET /memories/{memory_id}]: the memory, with its profile if it has
    one. *)
Definition get_memory (mem : string) (db : Db)
  : result (MemoryRow * option MemoryProfile) :=
  match find (fun m => String.eqb (mem_id m) mem && is_none (mem_deleted_at m))
             (memories db) with
  | None => Raise (HTTPException 404)
  | Some row => Ok (_row_to_memory row, find_profile mem (memory_profiles db))
  end.

(** [WHERE attribution_scores.memory_id = :memory_id], rows in table
    order. *)
Definition scores_of_memory (db : Db) (mem : string) : list AttributionScore :=
  filter (fun s => String.eqb (score_memory_id s) mem) (attribution_scores db).

(** [ORDER BY score DESC]: an insertion sort, a row going before the first
    one whose score is not larger. *)
Fixpoint insert_by_score (s : AttributionScore)
         (sorted : list AttributionScore) : list AttributionScore :=
  match sorted with
  | [] => [s]
  | x :: rest =>
      if Rle_dec (score x) (score s) then s :: x :: rest
      else x :: insert_by_score s rest
  end.

Definition order_by_score_desc (rows : list AttributionScore)
  : list AttributionScore :=
  fold_right insert_by_score [] rows.

(** [GET /attribution/memory/{memory_id}] ([cortex/api/attribution.py]). *)
Definition get_attribution_by_memory (mem : string) (db : Db)
  : list AttributionScore * option MemoryProfile :=
  (order_by_score_desc (scores_of_memory db mem),
   find_profile mem (memory_profiles db)).

Fixpoint descending (rows : list AttributionScore) : Prop :=
  match rows with
  | [] => True
  | x :: rest => Forall (fun y => score y <= score x) rest /\ descending rest
  end.

(** The upsert executed for one score row. *)
Definition score_event (now : datetime) (s : AttributionScore) : upsert_event :=
  (score_memory_id s, score s, now).

(** Every memory has a profile exactly when it has score rows, and the
    profile then records those scores. *)
Definition profiles_track_scores (db : Db) : Prop :=
  forall mem,
    match find_profile mem (memory_profiles db) with
    | Some p => stats p (map score (scores_of_memory db mem)) /\
                map score (scores_of_memory db mem) <> []
    | None => map score (scores_of_memory db mem) = []
    end.










(** What the endpoints keep true of the store: every score row belongs to a
    stored transaction; a pending transaction has no score row, no response
    and no token counts; a completed one has a response and a response
    embedding. *)
Definition row_consistent (t : TransactionRow) : Prop :=
  match txn_status t with
  | pending =>
      txn_response_text t = None /\ txn_response_embedding t = None /\
      txn_input_tokens t = 0%nat /\ txn_output_tokens t = 0%nat
  | completed =>
      txn_response_text t <> None /\ txn_response_embedding t <> None
  end.

Definition store_consistent (db : Db) : Prop :=
  (forall s, In s (attribution_scores db) ->
             exists t, In t (transactions db) /\
                       txn_id t = score_transaction_id s /\
                       txn_status t = completed) /\
  (forall t, In t (transactions db) -> txn_status t = pending ->
             scores_of_transaction db (txn_id t) = []) /\
  (forall t, In t (transactions db) -> row_consistent t).

(** Ascending order of a list of ids. *)
Fixpoint ascending_ids (l : list string) : Prop :=
  match l with
  | [] => True
  | a :: rest => Forall (fun b => String.leb a b = true) rest /\ ascending_ids rest
  end.

(** The [UPDATE memories] statements of one call, applied to one row. *)
Definition bump_all (now : datetime) (ids : list string) (m : MemoryRow)
  : MemoryRow :=
  fold_left (fun m id => bump_memory id now m) ids m.

(** The score rows a call returns, or the exception it raised. *)
Definition returned_scores (r : result (list AttributionScore * Db))
  : result (list AttributionScore) :=
  match r with
  | Ok (objs, _) => Ok objs
  | Raise e => Raise e
  end.

(** *** Sums *)

Lemma rsum_app (l l' : list R) : rsum (l ++ l') = rsum l + rsum l'.
Proof.
  unfold rsum. induction l as [|x l IH]; simpl; [lra|]. rewrite IH. lra.
Qed.

Lemma rsum_sq_dev (c : R) (xs : list R) :
  rsum (map (fun x => (x - c) * (x - c)) xs)
  = rsum (map (fun x => x * x) xs) - 2 * c * rsum xs
    + INR (length xs) * (c * c).
Proof.
  induction xs as [|x xs IH].
  - unfold rsum. simpl. lra.
  - change (length (x :: xs)) with (S (length xs)). rewrite S_INR.
    unfold rsum in *. simpl. rewrite IH. lra.
Qed.

(** *** Welford statistics *)

Lemma stats_insert (mem : string) (x : R) (now : datetime) :
  stats (welford_insert mem x now) [x].
Proof.
  unfold stats, rsum. simpl. repeat split; lra.
Qed.

Lemma stats_update (x : R) (now : datetime) (p : MemoryProfile) (xs : list R) :
  stats p xs -> stats (welford_update x now p) (xs ++ [x]).
Proof.
  intros (Hn & Ht & Hm & Hq).
  assert (Hlen : length (xs ++ [x]) = S (length xs))
    by (rewrite length_app; simpl; lia).
  assert (HN : INR (retrieval_count p + 1) = INR (length xs) + 1).
  { rewrite Hn, Nat.add_1_r, S_INR. reflexivity. }
  pose proof (pos_INR (length xs)) as Hpos.
  unfold stats. simpl. rewrite Hlen, S_INR, HN, !rsum_app, map_app, rsum_app.
  unfold rsum at 2 4 6. simpl.
  set (n := INR (length xs)) in *. set (mu := mean_attribution p) in *.
  repeat split.
  - rewrite Hn. lia.
  - rewrite Ht. lra.
  - rewrite <- Hm. field. lra.
  - rewrite Hq. field. lra.
Qed.

Lemma upsert_all_stats (mem : string) (events : list upsert_event) :
  forall (profiles : list MemoryProfile) (xs : list R),
    match find_profile mem profiles with
    | Some p => stats p xs /\ xs <> []
    | None => xs = []
    end ->
    match find_profile mem (upsert_all events profiles) with
    | Some p => stats p (xs ++ history mem events) /\
                xs ++ history mem events <> []
    | None => xs ++ history mem events = []
    end.
Proof.
  induction events as [|[[m x] now] events IH]; intros profiles xs H.
  - unfold history. simpl. rewrite app_nil_r. exact H.
  - unfold upsert_all. simpl fold_left. fold (upsert_all events).
    unfold history. simpl filter.
    destruct (String.eqb_spec m mem) as [->|Hne].
    + simpl map. fold (history mem events).
      replace (xs ++ x :: history mem events)
        with ((xs ++ [x]) ++ history mem events)
        by (rewrite <- app_assoc; reflexivity).
      apply IH.
      destruct (find_profile mem profiles) as [p|] eqn:E.
      * rewrite (find_profile_upsert_hit _ x now _ E). destruct H as [Hs _].
        split; [apply stats_update; exact Hs|].
        intros Habs. apply app_eq_nil in Habs as [_ Habs]. discriminate.
      * rewrite (find_profile_upsert_miss _ x now _ E). subst xs.
        split; [apply stats_insert|discriminate].
    + fold (history mem events). apply IH.
      rewrite find_profile_upsert_other by (intros E; apply Hne; symmetry; exact E).
      exact H.
Qed.

(** X6.  After any sequence of upserts into a table that held no row for a
    memory, the memory's row (there is one as soon as one upsert was for it)
    holds the number of its scores, their sum, their arithmetic mean, and in
    [m2] the sum of their squared deviations from that mean. *)
Theorem welford_profile_statistics (mem : string)
        (events : list upsert_event) (profiles : list MemoryProfile) :
  find_profile mem profiles = None ->
  history mem events <> [] ->
  exists p,
    find_profile mem (upsert_all events profiles) = Some p /\
    retrieval_count p = length (history mem events) /\
    total_attribution p = rsum (history mem events) /\
    mean_attribution p = mean (history mem events) /\
    m2 p = sum_sq_dev (history mem events).
Proof.
  intros Hnone Hne.
  pose proof (upsert_all_stats mem events profiles []) as H.
  rewrite Hnone in H. specialize (H eq_refl). simpl app in H.
  destruct (find_profile mem (upsert_all events profiles)) as [p|];
    [|contradiction].
  destruct H as [(Hn & Ht & Hm & Hq) _].
  set (xs := history mem events) in *.
  assert (Hpos : 0 < INR (length xs)).
  { apply lt_0_INR. destruct xs; [contradiction|simpl; lia]. }
  assert (Hmean : mean_attribution p = mean xs).
  { unfold mean. rewrite <- Hm. field. lra. }
  exists p. repeat split; try assumption.
  unfold sum_sq_dev. rewrite rsum_sq_dev, Hq, <- Hmean, <- Hm. ring.
Qed.

Lemma welford_profile_statistics_witness :
  exists p,
    find_profile "m1" (upsert_all [("m1"%string, 1 / 2, 1%Z);
                                   ("m2"%string, 1 / 2, 1%Z);
                                   ("m1"%string, 1, 2%Z)] [])
    = Some p /\
    retrieval_count p = 2%nat.
Proof.
  destruct (@welford_profile_statistics
              "m1" [("m1"%string, 1 / 2, 1%Z); ("m2"%string, 1 / 2, 1%Z);
                    ("m1"%string, 1, 2%Z)] [])
    as (p & Hp & Hn & _).
  - reflexivity.
  - discriminate.
  - exists p. split; assumption.
Defined.

(** X7.  [attribution_variance] of such a row is the unbiased sample variance of
    the memory's scores once there are two of them, and zero after the
    first; it is never negative. *)
Theorem attribution_variance_is_sample_variance (mem : string)
        (events : list upsert_event) (profiles : list MemoryProfile) :
  find_profile mem profiles = None ->
  history mem events <> [] ->
  exists p,
    find_profile mem (upsert_all events profiles) = Some p /\
    0 <= attribution_variance p /\
    (length (history mem events) = 1%nat -> attribution_variance p = 0) /\
    ((2 <= length (history mem events))%nat ->
     attribution_variance p
     = sum_sq_dev (history mem events)
       / (INR (length (history mem events)) - 1)).
Proof.
  intros Hnone Hne.
  pose proof (upsert_all_stats mem events profiles []) as H.
  rewrite Hnone in H. specialize (H eq_refl). simpl app in H.
  destruct (find_profile mem (upsert_all events profiles)) as [p|];
    [|contradiction].
  destruct H as [(Hn & Ht & Hm & Hq) _].
  set (xs := history mem events) in *.
  assert (Hpos : 0 < INR (length xs)).
  { apply lt_0_INR. destruct xs; [contradiction|simpl; lia]. }
  assert (Hmean : mean_attribution p = mean xs).
  { unfold mean. rewrite <- Hm. field. lra. }
  assert (Hm2 : m2 p = sum_sq_dev xs).
  { unfold sum_sq_dev. rewrite rsum_sq_dev, Hq, <- Hmean, <- Hm. ring. }
  assert (Hdev : 0 <= sum_sq_dev xs).
  { unfold sum_sq_dev. apply rsum_nonneg, Forall_forall. intros y Hy.
    apply in_map_iff in Hy as (x & <- & _).
    pose proof (Rle_0_sqr (x - mean xs)) as Hs. unfold Rsqr in Hs. exact Hs. }
  assert (Hden : 0 < INR (Nat.max (retrieval_count p - 1) 1)).
  { apply lt_0_INR. lia. }
  exists p. split; [reflexivity|]. unfold attribution_variance.
  split; [|split].
  - rewrite Hm2. apply Rmult_le_pos; [exact Hdev|].
    apply Rlt_le, Rinv_0_lt_compat, Hden.
  - intros H1. rewrite Hm2. unfold sum_sq_dev, mean.
    destruct xs as [|x [|x' xs']]; try discriminate.
    unfold rsum. simpl. field_simplify_eq; [lra|].
    rewrite Hn. simpl. lra.
  - intros H2. rewrite Hm2, Hn.
    replace (Nat.max (length xs - 1) 1) with (length xs - 1)%nat by lia.
    rewrite minus_INR by lia. reflexivity.
Qed.

Lemma attribution_variance_is_sample_variance_witness :
  exists p,
    find_profile "m1" (upsert_all [("m1"%string, 1 / 2, 1%Z);
                                   ("m1"%string, 1, 2%Z)] [])
    = Some p /\
    0 <= attribution_variance p.
Proof.
  destruct (@attribution_variance_is_sample_variance
              "m1" [("m1"%string, 1 / 2, 1%Z); ("m1"%string, 1, 2%Z)] [])
    as (p & Hp & Hv & _).
  - reflexivity.
  - discriminate.
  - exists p. split; assumption.
Defined.

(** *** The scores [_run_eas_and_store] stores *)

Lemma cosine_similarities_length (M : matrix) (v sim : list R) :
  _cosine_similarities M v = Ok sim -> length sim = shape0 M.
Proof.
  unfold _cosine_similarities, matvec.
  destruct (Req_dec_T (norm v) 0) as [_|_].
  - intros [= <-]. apply repeat_length.
  - simpl ncols. simpl mrows.
    destruct (Nat.eqb _ _); [|discriminate].
    intros [= <-]. rewrite !length_map. reflexivity.
Qed.

(** Whenever [compute_eas] returns on at least one row, it returns one
    non-negative score per row and the scores sum to one. *)
Lemma compute_eas_ok_shape (E : embeddings) (q r : list R) (res : eas_result) :
  (1 <= shape0 (as_matrix E))%nat ->
  compute_eas E q r = Ok res ->
  length (scores res) = shape0 (as_matrix E) /\
  length (raw_scores res) = shape0 (as_matrix E) /\
  Forall (fun x => 0 <= x) (scores res) /\
  rsum (scores res) = 1.
Proof.
  intros Hk. unfold compute_eas.
  destruct (Nat.eqb_spec (shape0 (as_matrix E)) 0) as [H0|_]; [lia|].
  destruct (_cosine_similarities (as_matrix E) r) as [smr|e] eqn:Er;
    [|discriminate].
  destruct (_cosine_similarities (as_matrix E) q) as [smq|e] eqn:Eq;
    [|discriminate].
  simpl bind. intros [= <-]. simpl scores. simpl raw_scores.
  apply cosine_similarities_length in Er, Eq.
  set (k := shape0 (as_matrix E)) in *.
  set (raw := hadamard (clamp smr) (clamp smq)).
  assert (Lraw : length raw = k).
  { unfold raw. rewrite hadamard_length, !clamp_length, Er, Eq.
    apply Nat.min_id. }
  assert (Hraw : Forall (fun x => 0 <= x) raw)
    by (apply hadamard_nonneg; apply clamp_nonneg).
  destruct (@normalise_sums_to_one raw k Hk Hraw) as [Hnn Hsum].
  cbv zeta in Hnn, Hsum. repeat split; try assumption.
  destruct (Rlt_dec 0 (rsum raw)); [rewrite length_map; exact Lraw|].
  apply repeat_length.
Qed.

Lemma map_fst_enumerate {A : Type} (l : list A) (n : nat) :
  map fst (combine (seq n (length l)) l) = seq n (length l).
Proof.
  revert n. induction l as [|a l IH]; intros n; simpl; [reflexivity|].
  rewrite IH. reflexivity.
Qed.

Lemma map_snd_enumerate {A : Type} (l : list A) (n : nat) :
  map snd (combine (seq n (length l)) l) = l.
Proof.
  revert n. induction l as [|a l IH]; intros n; simpl; [reflexivity|].
  rewrite IH. reflexivity.
Qed.

Lemma map_nth_seq_all (l : list R) :
  map (fun i => nth i l 0) (seq 0 (length l)) = l.
Proof.
  induction l as [|x l IH]; [reflexivity|].
  simpl. f_equal. rewrite <- seq_shift, map_map. exact IH.
Qed.

Lemma has_embedding_nonempty (m : MemoryRow) :
  has_embedding m = true -> (1 <= length (embedding_of m))%nat.
Proof.
  unfold has_embedding, embedding_of, list_truthy, list_or.
  destruct (mem_embedding m) as [[|x l]|]; try discriminate.
  intros _. simpl. lia.
Qed.

(** When some selected memory holds an embedding, the EAS step is a call of
    [compute_eas] on one row per such memory. *)
Lemma eas_of_rows_scored (rows : list MemoryRow) (q r : list R)
      (res : eas_result) :
  filter has_embedding rows <> [] ->
  eas_of_rows rows q r = Ok res ->
  exists E,
    shape0 (as_matrix E) = length (filter has_embedding rows) /\
    compute_eas E q r = Ok res.
Proof.
  intros Hne. unfold eas_of_rows.
  destruct rows as [|m0 rows0]; [contradiction Hne; reflexivity|].
  set (rows := m0 :: rows0) in *.
  destruct (filter has_embedding rows) as [|m mwe] eqn:Ef; [contradiction|].
  assert (Hm : has_embedding m = true).
  { assert (Hin : In m (filter has_embedding rows)) by (rewrite Ef; left; reflexivity).
    apply filter_In in Hin. apply Hin. }
  unfold np_array. simpl map. cbv beta iota.
  match goal with
  | |- context [forallb ?f ?l] => destruct (forallb f l)
  end; [|discriminate].
  simpl bind. unfold size.
  pose proof (has_embedding_nonempty m Hm) as Hd.
  match goal with
  | |- context [Nat.ltb 0 ?n] => destruct (Nat.ltb_spec 0 n) as [_|Habs]
  end.
  - intros Hres. eexists. split; [|exact Hres].
    unfold shape0. simpl. rewrite length_map. reflexivity.
  - simpl in Habs. lia.
Qed.

Lemma store_profile_scores (now : datetime) (objs : list AttributionScore)
      (db : Db) :
  attribution_scores (fold_left (store_profile now) objs db)
  = attribution_scores db.
Proof.
  revert db. induction objs as [|s objs IH]; intros db; simpl; [reflexivity|].
  rewrite IH. reflexivity.
Qed.

Lemma run_unfold (db db' : Db) (t : string) (q r : list R)
      (ids : list string) (snap : bool) (now : datetime)
      (objs : list AttributionScore) :
  _run_eas_and_store db t q r ids snap now = Ok (objs, db') ->
  exists res,
    eas_of_rows (select_memories db ids snap) q r = Ok res /\
    objs = map (score_object t res)
               (enumerate (filter has_embedding (select_memories db ids snap))) /\
    attribution_scores db' = attribution_scores db ++ objs /\
    memories db'
    = fold_left (fun ms s => map (bump_memory (score_memory_id s) now) ms)
                objs (memories db).
Proof.
  unfold _run_eas_and_store.
  destruct (eas_of_rows _ q r) as [res|e]; simpl; [|discriminate].
  intros [= <- <-]. exists res. split; [reflexivity|]. split; [reflexivity|].
  split.
  - rewrite store_profile_scores. reflexivity.
  - set (objs := map _ _). clearbody objs.
    set (db1 := Build_Db _ _ _ _ _).
    change (memories db) with (memories db1). clearbody db1. revert db1.
    induction objs as [|s objs IH]; intros db1; simpl; [reflexivity|].
    rewrite IH. reflexivity.
Qed.

Lemma scores_in_unit (l : list R) :
  Forall (fun x => 0 <= x) l -> rsum l = 1 -> Forall (fun x => 0 <= x <= 1) l.
Proof.
  intros Hnn Hsum.
  assert (Hle : Forall (fun x => x <= rsum l) l).
  { clear Hsum. induction Hnn as [|x l Hx Hl IH]; constructor.
    - unfold rsum. simpl. pose proof (rsum_nonneg Hl). unfold rsum in *. lra.
    - eapply Forall_impl; [|exact IH]. intros a Ha. unfold rsum in *. simpl.
      lra. }
  rewrite Hsum in Hle. rewrite Forall_forall in *.
  intros x Hx. split; [apply Hnn|apply Hle]; exact Hx.
Qed.

(** X8.  The score rows of one transaction: whenever [_run_eas_and_store] stores
    any, they are appended to [attribution_scores], there is one per scored
    memory, each carries the transaction's id, the method [eas] and
    confidence 1, each score lies in [[0, 1]], and together they sum to
    one. *)
Theorem stored_scores_sum_to_one (db db' : Db) (t : string) (q r : list R)
        (ids : list string) (snap : bool) (now : datetime)
        (objs : list AttributionScore) :
  _run_eas_and_store db t q r ids snap now = Ok (objs, db') ->
  objs <> [] ->
  attribution_scores db' = attribution_scores db ++ objs /\
  length objs = length (filter (scored ids snap) (memories db)) /\
  Forall (fun s => score_transaction_id s = t /\ score_method s = eas /\
                   score_confidence s = 1 /\ 0 <= score s <= 1) objs /\
  rsum (map score objs) = 1.
Proof.
  intros Hrun Hne.
  destruct (run_scores_length _ _ _ _ _ _ _ Hrun) as [Hlen _].
  destruct (run_unfold _ _ _ _ _ _ _ Hrun) as (res & Heas & Hobjs & Hsc & _).
  set (mwe := filter has_embedding (select_memories db ids snap)) in *.
  assert (Hmwe : mwe <> []).
  { intros E. rewrite E in Hlen. destruct objs; [contradiction|discriminate]. }
  destruct (eas_of_rows_scored _ q r Hmwe Heas) as (E & Hk & Hres).
  fold mwe in Hk.
  assert (Hk1 : (1 <= shape0 (as_matrix E))%nat).
  { rewrite Hk. destruct mwe; [contradiction|simpl; lia]. }
  destruct (compute_eas_ok_shape E q r Hk1 Hres) as (Ls & _ & Hnn & Hsum).
  assert (Hmap : map score objs = scores res).
  { rewrite Hobjs, map_map. unfold enumerate.
    transitivity (map (fun i => nth i (scores res) 0)
                      (map fst (combine (seq 0 (length mwe)) mwe))).
    - rewrite map_map. apply map_ext. intros x. reflexivity.
    - rewrite map_fst_enumerate, <- Hk, <- Ls. apply map_nth_seq_all. }
  split; [exact Hsc|]. split.
  { rewrite Hlen. unfold mwe, scored. apply scored_count. }
  split; [|rewrite Hmap; exact Hsum].
  pose proof (scores_in_unit Hnn Hsum) as Hunit. rewrite <- Hmap in Hunit.
  rewrite Forall_forall in *. intros s Hs.
  assert (Hs' := Hs). rewrite Hobjs in Hs'.
  apply in_map_iff in Hs' as (entry & <- & _).
  repeat split; try reflexivity;
    apply (Hunit _ (in_map score _ _ Hs)).
Qed.

Lemma stored_scores_sum_to_one_witness :
  exists objs db',
    _run_eas_and_store s4_store "t" [1; 0; 0] [1; 0; 0] s4_ids false 3%Z
    = Ok (objs, db') /\
    rsum (map score objs) = 1.
Proof.
  destruct (@run_eas_and_store_ok s4_store "t" [1; 0; 0] [1; 0; 0] s4_ids
                                  false 3%Z 3%nat)
    as (objs & db' & Hrun & Hlen);
    [repeat constructor|reflexivity|reflexivity|].
  exists objs, db'. split; [exact Hrun|].
  apply (@stored_scores_sum_to_one s4_store db' "t" [1; 0; 0] [1; 0; 0] s4_ids
                                   false 3%Z objs Hrun).
  intros E. rewrite E in Hlen. discriminate.
Defined.

(** *** The list of retrieved memory ids is read as a set *)

Lemma id_in_ext (ids ids' : list string) (m : MemoryRow) :
  (forall x, In x ids <-> In x ids') -> id_in ids m = id_in ids' m.
Proof.
  intros H. unfold id_in.
  destruct (existsb (String.eqb (mem_id m)) ids) eqn:E1;
    destruct (existsb (String.eqb (mem_id m)) ids') eqn:E2; try reflexivity.
  - apply existsb_exists in E1 as (x & Hx & Hx').
    assert (existsb (String.eqb (mem_id m)) ids' = true)
      by (apply existsb_exists; exists x; split; [apply H; exact Hx|exact Hx']).
    congruence.
  - apply existsb_exists in E2 as (x & Hx & Hx').
    assert (existsb (String.eqb (mem_id m)) ids = true)
      by (apply existsb_exists; exists x; split; [apply H; exact Hx|exact Hx']).
    congruence.
Qed.

Lemma select_memories_ext (db : Db) (ids ids' : list string) (snap : bool) :
  (forall x, In x ids <-> In x ids') ->
  select_memories db ids snap = select_memories db ids' snap.
Proof.
  intros H. unfold select_memories.
  destruct ids as [|i ids], ids' as [|i' ids'].
  - reflexivity.
  - exfalso. apply (proj2 (H i')). left. reflexivity.
  - exfalso. apply (proj1 (H i)). left. reflexivity.
  - f_equal. apply filter_ext. intros m.
    rewrite (id_in_ext (i :: ids) (i' :: ids') m H). reflexivity.
Qed.

(** X9.  Neither the order of [retrieved_memory_ids] nor a repeated id changes
    what is scored and stored: two lists with the same members give the same
    score rows and the same store. *)
Theorem retrieved_ids_read_as_set (db : Db) (t : string) (q r : list R)
        (ids ids' : list string) (snap : bool) (now : datetime) :
  (forall x, In x ids <-> In x ids') ->
  _run_eas_and_store db t q r ids snap now
  = _run_eas_and_store db t q r ids' snap now.
Proof.
  intros H. unfold _run_eas_and_store.
  rewrite (select_memories_ext db ids ids' snap H). reflexivity.
Qed.

Lemma retrieved_ids_read_as_set_witness :
  _run_eas_and_store s4_store "t" [1; 0; 0] [1; 0; 0]
                     ["m1"%string; "m2"%string] false 3%Z
  = _run_eas_and_store s4_store "t" [1; 0; 0] [1; 0; 0]
                       ["m2"%string; "m1"%string; "m2"%string] false 3%Z.
Proof.
  apply (@retrieved_ids_read_as_set s4_store "t" [1; 0; 0] [1; 0; 0]
           ["m1"%string; "m2"%string] ["m2"%string; "m1"%string; "m2"%string]
           false 3%Z).
  intros x. simpl. tauto.
Defined.

(** *** Side effects on the [memories] table *)

Lemma fold_bump_map (now : datetime) (ids : list string) (ms : list MemoryRow) :
  fold_left (fun ms id => map (bump_memory id now) ms) ids ms
  = map (bump_all now ids) ms.
Proof.
  revert ms. induction ids as [|id ids IH]; intros ms; simpl.
  - symmetry. apply map_id.
  - rewrite IH, map_map. reflexivity.
Qed.

Lemma fold_left_map_arg {A B C : Type} (f : A -> C -> A) (g : B -> C)
      (l : list B) (a : A) :
  fold_left (fun acc x => f acc (g x)) l a = fold_left f (map g l) a.
Proof.
  revert a. induction l as [|x l IH]; intros a; simpl; [reflexivity|].
  apply IH.
Qed.

Lemma bump_memory_id (id : string) (now : datetime) (m : MemoryRow) :
  mem_id (bump_memory id now m) = mem_id m.
Proof. unfold bump_memory. destruct (String.eqb (mem_id m) id); reflexivity. Qed.

Lemma bump_all_cons (now : datetime) (id : string) (ids : list string)
      (m : MemoryRow) :
  bump_all now (id :: ids) m = bump_all now ids (bump_memory id now m).
Proof. reflexivity. Qed.

Lemma bump_all_notin (now : datetime) (ids : list string) (m : MemoryRow) :
  ~ In (mem_id m) ids -> bump_all now ids m = m.
Proof.
  revert m. induction ids as [|id ids IH]; intros m Hn; [reflexivity|].
  rewrite bump_all_cons. unfold bump_memory.
  destruct (String.eqb_spec (mem_id m) id) as [E|_].
  - exfalso. apply Hn. left. symmetry. exact E.
  - apply IH. intros H. apply Hn. right. exact H.
Qed.

Lemma bump_all_once (now : datetime) (ids : list string) (m : MemoryRow) :
  NoDup ids -> In (mem_id m) ids -> bump_all now ids m = bumped now m.
Proof.
  revert m. induction ids as [|id ids IH]; intros m Hnd Hin; [contradiction|].
  inversion Hnd as [|? ? Hnotin Hnd']; subst.
  rewrite bump_all_cons. unfold bump_memory.
  destruct (String.eqb_spec (mem_id m) id) as [E|Hne].
  - apply bump_all_notin. simpl. rewrite E. exact Hnotin.
  - apply IH; [exact Hnd'|]. destruct Hin as [E|H]; [|exact H].
    exfalso. apply Hne. symmetry. exact E.
Qed.

Lemma insert_by_id_perm (a : MemoryRow) (s : list MemoryRow) :
  Permutation (insert_by_id a s) (a :: s).
Proof.
  induction s as [|x s IH]; simpl; [apply Permutation_refl|].
  destruct (String.leb (mem_id a) (mem_id x)); [apply Permutation_refl|].
  apply Permutation_trans with (x :: a :: s);
    [apply perm_skip; exact IH|apply perm_swap].
Qed.

Lemma order_by_id_perm (l : list MemoryRow) : Permutation (order_by_id l) l.
Proof.
  unfold order_by_id. induction l as [|a l IH]; simpl; [apply perm_nil|].
  apply Permutation_trans with (a :: fold_right insert_by_id [] l);
    [apply insert_by_id_perm|apply perm_skip; exact IH].
Qed.

Lemma filter_perm {A : Type} (p : A -> bool) (l l' : list A) :
  Permutation l l' -> Permutation (filter p l) (filter p l').
Proof.
  induction 1 as [|x l l' _ IH|x y l|l l' l'' _ IH1 _ IH2]; simpl.
  - apply perm_nil.
  - destruct (p x); [apply perm_skip|]; exact IH.
  - destruct (p x), (p y); try apply Permutation_refl. apply perm_swap.
  - apply Permutation_trans with (filter p l'); assumption.
Qed.

Lemma scored_rows_perm (db : Db) (ids : list string) (snap : bool) :
  Permutation (filter has_embedding (select_memories db ids snap))
              (filter (scored ids snap) (memories db)).
Proof.
  unfold select_memories, scored. destruct ids as [|i ids].
  - simpl. induction (memories db) as [|m l IH]; [apply perm_nil|exact IH].
  - apply Permutation_trans
      with (filter has_embedding
              (filter (fun m => id_in (i :: ids) m
                                && (snap || is_none (mem_deleted_at m)))
                      (memories db))).
    + apply filter_perm, order_by_id_perm.
    + rewrite filter_filter_andb. apply Permutation_refl.
Qed.

Lemma unique_ids_filter (keep : MemoryRow -> bool) (rows : list MemoryRow) :
  NoDup (map mem_id rows) -> NoDup (map mem_id (filter keep rows)).
Proof.
  intros Hnd. induction rows as [|m rows IH]; [constructor|].
  simpl in Hnd. apply NoDup_cons_iff in Hnd as [Hfresh Hrest].
  simpl. destruct (keep m); [|exact (IH Hrest)].
  simpl. apply NoDup_cons; [|exact (IH Hrest)].
  intros Hin. apply Hfresh. apply in_map_iff in Hin as (x & Hx & Hkept).
  apply in_map_iff. exists x. split; [exact Hx|].
  apply filter_In in Hkept. apply Hkept.
Qed.

Lemma nodup_map_inj {A B : Type} (f : A -> B) (l : list A) (a b : A) :
  NoDup (map f l) -> In a l -> In b l -> f a = f b -> a = b.
Proof.
  induction l as [|x l IH]; simpl; intros Hnd Ha Hb Hf; [contradiction|].
  inversion Hnd as [|? ? Hn Hl]; subst.
  destruct Ha as [->|Ha], Hb as [->|Hb].
  - reflexivity.
  - exfalso. apply Hn. rewrite Hf. apply in_map. exact Hb.
  - exfalso. apply Hn. rewrite <- Hf. apply in_map. exact Ha.
  - apply IH; assumption.
Qed.

Lemma score_objects_memory_ids (t : string) (res : eas_result)
      (l : list MemoryRow) :
  map score_memory_id (map (score_object t res) (enumerate l)) = map mem_id l.
Proof.
  rewrite map_map. unfold enumerate.
  transitivity (map mem_id (map snd (combine (seq 0 (length l)) l))).
  - rewrite map_map. apply map_ext. intros x. reflexivity.
  - rewrite map_snd_enumerate. reflexivity.
Qed.

(** X10.  What scoring a transaction does to the [memories] table, ids being
    unique: each scored memory has its retrieval count raised by exactly one
    and its [last_accessed] set to the time of the call; its id, embedding
    and [deleted_at] stay, and no other row changes.  In the two-phase path
    ([snapshot]) this includes memories soft-deleted in the meantime. *)
Theorem scoring_bumps_each_scored_memory_once
        (db db' : Db) (t : string) (q r : list R) (ids : list string)
        (snap : bool) (now : datetime) (objs : list AttributionScore) :
  NoDup (map mem_id (memories db)) ->
  _run_eas_and_store db t q r ids snap now = Ok (objs, db') ->
  memories db'
  = map (fun m => if scored ids snap m then bumped now m else m) (memories db).
Proof.
  intros Hnd Hrun.
  destruct (run_unfold _ _ _ _ _ _ _ Hrun) as (res & _ & Hobjs & _ & Hmem).
  rewrite Hmem.
  rewrite (fold_left_map_arg
             (fun ms id => map (bump_memory id now) ms) score_memory_id).
  rewrite fold_bump_map, Hobjs, score_objects_memory_ids.
  set (mwe := filter has_embedding (select_memories db ids snap)).
  pose proof (scored_rows_perm db ids snap) as HP. fold mwe in HP.
  assert (HndL : NoDup (map mem_id mwe)).
  { apply (Permutation_NoDup
             (Permutation_sym (Permutation_map mem_id HP))).
    apply unique_ids_filter. exact Hnd. }
  apply map_ext_in. intros m Hm.
  destruct (scored ids snap m) eqn:Es.
  - apply bump_all_once; [exact HndL|].
    apply in_map. apply (Permutation_in _ (Permutation_sym HP)).
    apply filter_In. split; assumption.
  - apply bump_all_notin. intros Hin.
    apply in_map_iff in Hin as (m' & Hid & Hin').
    apply (Permutation_in _ HP) in Hin'. apply filter_In in Hin' as [Hin' Hs'].
    assert (m' = m) by (apply (nodup_map_inj mem_id _ _ _ Hnd Hin' Hm Hid)).
    subst m'. congruence.
Qed.

Lemma scoring_bumps_each_scored_memory_once_witness :
  exists objs db',
    _run_eas_and_store s4_deleted "t" [1; 0; 0] [1; 0; 0] s4_ids true 3%Z
    = Ok (objs, db') /\
    memories db'
    = map (fun m => if scored s4_ids true m then bumped 3%Z m else m)
          (memories s4_deleted).
Proof.
  destruct (@run_eas_and_store_ok s4_deleted "t" [1; 0; 0] [1; 0; 0] s4_ids
                                  true 3%Z 3%nat)
    as (objs & db' & Hrun & _);
    [exact s4_deleted_widths|reflexivity|reflexivity|].
  exists objs, db'. split; [exact Hrun|].
  apply (@scoring_bumps_each_scored_memory_once
           s4_deleted db' "t" [1; 0; 0] [1; 0; 0] s4_ids true 3%Z objs);
    [|exact Hrun].
  repeat constructor; simpl; intuition discriminate.
Defined.

(** *** [ORDER BY id] *)

Lemma leb_iff (a b : string) :
  String.leb a b = true <-> OrderedTypeEx.String_as_OT.lt a b \/ a = b.
Proof.
  unfold String.leb.
  pose proof (OrderedTypeEx.String_as_OT.cmp_lt a b) as Hlt.
  pose proof (OrderedTypeEx.String_as_OT.cmp_eq a b) as Heq.
  unfold OrderedTypeEx.String_as_OT.cmp in Hlt, Heq.
  destruct (String.compare a b); split; intros H; try reflexivity.
  - right. apply Heq. reflexivity.
  - left. apply Hlt. reflexivity.
  - discriminate.
  - destruct H as [H|H]; [apply Hlt in H|apply Heq in H]; discriminate.
Qed.

Lemma leb_trans (a b c : string) :
  String.leb a b = true -> String.leb b c = true -> String.leb a c = true.
Proof.
  rewrite !leb_iff. intros [H1| ->] [H2| ->]; auto.
  left. apply (@OrderedTypeEx.String_as_OT.lt_trans a b c H1 H2).
Qed.

Lemma ascending_ids_insert (a : MemoryRow) (s : list MemoryRow) :
  ascending_ids (map mem_id s) ->
  ascending_ids (map mem_id (insert_by_id a s)).
Proof.
  induction s as [|x s IH]; simpl.
  - intros _. split; [constructor|exact I].
  - intros [Hx Hs].
    destruct (String.leb (mem_id a) (mem_id x)) eqn:E; simpl.
    + split; [|split; assumption].
      constructor; [exact E|].
      eapply Forall_impl; [|exact Hx]. intros y Hy. simpl in Hy.
      apply (leb_trans _ _ _ E Hy).
    + split; [|apply IH; exact Hs].
      apply Forall_forall. intros y Hy.
      apply in_map_iff in Hy as (m & <- & Hm).
      apply in_insert_by_id in Hm as [->|Hm].
      * destruct (String.leb_total (mem_id a) (mem_id x)) as [H|H];
          [congruence|exact H].
      * rewrite Forall_forall in Hx. apply Hx. apply in_map. exact Hm.
Qed.

Lemma ascending_ids_order_by_id (l : list MemoryRow) :
  ascending_ids (map mem_id (order_by_id l)).
Proof.
  unfold order_by_id. induction l as [|a l IH]; simpl; [exact I|].
  apply ascending_ids_insert. exact IH.
Qed.

Lemma ascending_ids_filter (p : MemoryRow -> bool) (l : list MemoryRow) :
  ascending_ids (map mem_id l) -> ascending_ids (map mem_id (filter p l)).
Proof.
  induction l as [|a l IH]; simpl; [trivial|].
  intros [Ha Hl]. destruct (p a); simpl; [|apply IH; exact Hl].
  split; [|apply IH; exact Hl].
  rewrite Forall_forall in *. intros y Hy. apply Ha.
  apply in_map_iff in Hy as (m & <- & Hm). apply in_map.
  apply filter_In in Hm. apply Hm.
Qed.

(** Two ascending lists of rows with the same members, ids being unique,
    are the same list. *)
Lemma ascending_perm_unique (l l' : list MemoryRow) :
  ascending_ids (map mem_id l) -> ascending_ids (map mem_id l') ->
  Permutation l l' -> NoDup (map mem_id l) -> l = l'.
Proof.
  revert l'. induction l as [|a l IH]; intros l' Hs Hs' HP Hnd.
  - apply Permutation_nil in HP. symmetry. exact HP.
  - destruct l' as [|b l'].
    { apply Permutation_sym, Permutation_nil in HP. discriminate. }
    simpl in Hs, Hs'. destruct Hs as [Ha Hl], Hs' as [Hb Hl'].
    inversion Hnd as [|? ? Hn Hnd']; subst.
    assert (Eab : a = b).
    { assert (Hin : In a (b :: l'))
        by (apply (Permutation_in _ HP); left; reflexivity).
      assert (Hin' : In b (a :: l))
        by (apply (Permutation_in _ (Permutation_sym HP)); left; reflexivity).
      destruct Hin as [E|Hin]; [symmetry; exact E|].
      destruct Hin' as [E|Hin']; [exact E|].
      exfalso. apply Hn.
      rewrite Forall_forall in Ha, Hb.
      rewrite (String.leb_antisym _ _ (Ha _ (in_map mem_id _ _ Hin'))
                                      (Hb _ (in_map mem_id _ _ Hin))).
      apply in_map. exact Hin'. }
    subst b. f_equal. apply IH; try assumption.
    apply (Permutation_cons_inv HP).
Qed.

Lemma select_memories_table_order (db db2 : Db) (ids : list string)
      (snap : bool) :
  NoDup (map mem_id (memories db)) ->
  Permutation (memories db) (memories db2) ->
  select_memories db ids snap = select_memories db2 ids snap.
Proof.
  intros Hnd HP. unfold select_memories. destruct ids as [|i ids]; [reflexivity|].
  set (p := fun m => id_in (i :: ids) m && (snap || is_none (mem_deleted_at m))).
  apply ascending_perm_unique.
  - apply ascending_ids_order_by_id.
  - apply ascending_ids_order_by_id.
  - apply Permutation_trans with (filter p (memories db));
      [apply order_by_id_perm|].
    apply Permutation_trans with (filter p (memories db2));
      [apply filter_perm; exact HP|apply Permutation_sym, order_by_id_perm].
  - apply (Permutation_NoDup
             (Permutation_sym (Permutation_map mem_id (order_by_id_perm _)))).
    apply unique_ids_filter. exact Hnd.
Qed.

(** X11.  The effect of [ORDER BY id]: ids being unique, the score rows do not
    depend on the order in which the table holds the memories (the same
    rows, or the same exception, for any permutation of the table), and
    they are returned in ascending order of the memory id. *)
Theorem score_rows_follow_id_order (db db2 : Db) (t : string) (q r : list R)
        (ids : list string) (snap : bool) (now : datetime) :
  NoDup (map mem_id (memories db)) ->
  Permutation (memories db) (memories db2) ->
  returned_scores (_run_eas_and_store db t q r ids snap now)
  = returned_scores (_run_eas_and_store db2 t q r ids snap now) /\
  (forall objs db',
     _run_eas_and_store db t q r ids snap now = Ok (objs, db') ->
     ascending_ids (map score_memory_id objs)).
Proof.
  intros Hnd HP. split.
  - unfold _run_eas_and_store.
    rewrite (@select_memories_table_order db db2 ids snap Hnd HP).
    destruct (eas_of_rows _ q r); reflexivity.
  - intros objs db' Hrun.
    destruct (run_unfold _ _ _ _ _ _ _ Hrun) as (res & _ & Hobjs & _).
    rewrite Hobjs, score_objects_memory_ids.
    apply ascending_ids_filter.
    unfold select_memories. destruct ids as [|i ids]; [exact I|].
    apply ascending_ids_order_by_id.
Qed.

Lemma score_rows_follow_id_order_witness :
  returned_scores
    (_run_eas_and_store s4_store "t" [1; 0; 0] [1; 0; 0] s4_ids false 3%Z)
  = returned_scores
      (_run_eas_and_store
         {| memories := [memory_row "m2" [0; 1; 0]; memory_row "m1" [1; 0; 0];
                         memory_row "m3" [0; 0; 1]];
            transactions := [];
            attribution_scores := [];
            memory_profiles := [];
            agent_cost_configs := [] |}
         "t" [1; 0; 0] [1; 0; 0] s4_ids false 3%Z).
Proof.
  apply (@score_rows_follow_id_order
           s4_store
           {| memories := [memory_row "m2" [0; 1; 0]; memory_row "m1" [1; 0; 0];
                           memory_row "m3" [0; 0; 1]];
              transactions := [];
              attribution_scores := [];
              memory_profiles := [];
              agent_cost_configs := [] |}
           "t" [1; 0; 0] [1; 0; 0] s4_ids false 3%Z).
  - repeat constructor; simpl; intuition discriminate.
  - apply perm_swap.
Defined.

(** *** The endpoints as a whole *)

Section EndpointFacts.

Variable embed : list string -> list (list R).
Variable count_words : string -> nat.
Variables pi_in pi_out : R.

(** [create_transaction] either raises and leaves the store alone, or it
    inserted a completed row under a fresh id, scored it and returns that
    row with the score rows. *)
Lemma create_transaction_inv (body : TransactionCreate) (new_id : string)
      (now : datetime) (db : Db) :
  (snd (create_transaction embed count_words pi_in pi_out body new_id now db)
   = db /\
   exists e,
     fst (create_transaction embed count_words pi_in pi_out body new_id now db)
     = Raise e) \/
  (exists row q r objs db2 resp,
     find_transaction db new_id = None /\
     txn_id row = new_id /\ txn_status row = completed /\
     txn_response_text row <> None /\ txn_response_embedding row <> None /\
     _run_eas_and_store (with_transactions db (transactions db ++ [row]))
                        new_id q r (tc_retrieved_memory_ids body) false now
     = Ok (objs, db2) /\
     create_transaction embed count_words pi_in pi_out body new_id now db
     = (Ok resp, db2) /\
     tws_transaction resp = row /\ tws_scores resp = objs).
Proof.
  unfold create_transaction. cbv zeta.
  match goal with
  | |- context [insert_transaction db ?x] => set (row := x)
  end.
  unfold insert_transaction. change (txn_id row) with new_id.
  destruct (find_transaction db new_id) eqn:Efind.
  { left. simpl. split; [reflexivity|]. eexists. reflexivity. }
  simpl bind.
  match goal with
  | |- context [_run_eas_and_store ?d ?t ?q ?r ?ids ?s ?n] =>
      destruct (_run_eas_and_store d t q r ids s n) as [[objs db2]|e] eqn:Erun;
      [right; exists row, q, r, objs, db2|]
  end.
  - destruct (run_scores_length _ _ _ _ _ _ _ Erun) as [_ Htx].
    assert (Hf : find_transaction db2 new_id = Some row).
    { unfold find_transaction. rewrite Htx.
      apply (find_transaction_app_fresh db row). exact Efind. }
    unfold build_response. rewrite Hf. eexists.
    split; [reflexivity|]. split; [reflexivity|]. split; [reflexivity|].
    split; [discriminate|]. split; [discriminate|].
    split; [exact Erun|]. split; [reflexivity|]. split; reflexivity.
  - left. simpl. split; [reflexivity|]. eexists. reflexivity.
Qed.

(** [complete_transaction] either raises and leaves the store alone, or it
    found a pending row, rewrote it as completed, scored it against the
    snapshot and returns the rewritten row with the score rows. *)
Lemma complete_transaction_inv (txn : string) (body : TransactionComplete)
      (now : datetime) (db : Db) :
  (snd (complete_transaction embed count_words pi_in pi_out txn body now db)
   = db /\
   exists e,
     fst (complete_transaction embed count_words pi_in pi_out txn body now db)
     = Raise e) \/
  (exists row r_emb i o q objs db2 resp,
     find_transaction db txn = Some row /\
     txn_id row = txn /\ txn_status row = pending /\
     _run_eas_and_store
       (with_transactions db
          (map (complete_row txn (tf_response_text body) r_emb i o)
               (transactions db)))
       txn q r_emb (txn_retrieved_memory_ids row) true now
     = Ok (objs, db2) /\
     complete_transaction embed count_words pi_in pi_out txn body now db
     = (Ok resp, db2) /\
     tws_transaction resp
     = complete_row txn (tf_response_text body) r_emb i o row /\
     tws_scores resp = objs).
Proof.
  unfold complete_transaction.
  destruct (find_transaction db txn) as [row|] eqn:Efind.
  2:{ left. simpl. split; [reflexivity|]. eexists. reflexivity. }
  assert (Hid : txn_id row = txn).
  { unfold find_transaction in Efind. apply find_some in Efind as [_ E].
    apply String.eqb_eq. exact E. }
  destruct (txn_status row) eqn:Est; simpl negb; cbv iota.
  2:{ left. simpl. split; [reflexivity|]. eexists. reflexivity. }
  cbv zeta.
  match goal with
  | |- context [_run_eas_and_store ?d ?t ?q ?r ?ids ?s ?n] =>
      destruct (_run_eas_and_store d t q r ids s n) as [[objs db2]|e] eqn:Erun
  end.
  - right.
    destruct (run_scores_length _ _ _ _ _ _ _ Erun) as [_ Htx].
    match type of Erun with
    | _run_eas_and_store
        (with_transactions db (map (complete_row txn ?text ?r ?i ?o) _))
        _ ?q _ _ _ _ = _ =>
        exists row, r, i, o, q, objs, db2;
        assert (Hf : find_transaction db2 txn
                     = Some (complete_row txn text r i o row))
          by (unfold find_transaction; rewrite Htx; simpl transactions;
              apply find_complete_row; exact Efind)
    end.
    unfold build_response. rewrite Hf. eexists.
    repeat split; first [reflexivity|assumption].
  - left. simpl. split; [reflexivity|]. eexists. reflexivity.
Qed.

Lemma complete_row_status (txn text : string) (r_emb : list R) (i o : nat)
      (row : TransactionRow) :
  txn_id row = txn ->
  txn_status (complete_row txn text r_emb i o row) = completed.
Proof.
  intros H. unfold complete_row. rewrite H, String.eqb_refl. reflexivity.
Qed.

Lemma complete_row_id (txn text : string) (r_emb : list R) (i o : nat)
      (row : TransactionRow) :
  txn_id (complete_row txn text r_emb i o row) = txn_id row.
Proof.
  unfold complete_row. destruct (String.eqb (txn_id row) txn); reflexivity.
Qed.

(** X12.  A transaction is scored at most once: after [create_transaction] or
    [complete_transaction] returned for an id, every further
    [complete_transaction] on that id is refused with 409 and changes
    nothing. *)
Theorem scored_transaction_is_final (txn : string) (now now' : datetime)
        (db db2 : Db) (resp : TransactionWithScores)
        (body' : TransactionComplete) :
  (forall body,
     create_transaction embed count_words pi_in pi_out body txn now db
     = (Ok resp, db2) ->
     complete_transaction embed count_words pi_in pi_out txn body' now' db2
     = (Raise (HTTPException 409), db2)) /\
  (forall body,
     complete_transaction embed count_words pi_in pi_out txn body now db
     = (Ok resp, db2) ->
     complete_transaction embed count_words pi_in pi_out txn body' now' db2
     = (Raise (HTTPException 409), db2)).
Proof.
  split; intros body H.
  - destruct (create_transaction_inv body txn now db)
      as [[_ [e He]]|(row & q & r & objs & db2' & resp' & Hfresh & Hid & Hst
                      & _ & _ & Hrun & Hc & _)].
    { rewrite H in He. discriminate. }
    rewrite H in Hc. injection Hc as _ <-.
    destruct (run_scores_length _ _ _ _ _ _ _ Hrun) as [_ Htx].
    assert (Hf : find_transaction db2 txn = Some row).
    { unfold find_transaction. rewrite Htx. subst txn.
      apply (find_transaction_app_fresh db row). exact Hfresh. }
    unfold complete_transaction. rewrite Hf, Hst. reflexivity.
  - destruct (complete_transaction_inv txn body now db)
      as [[_ [e He]]|(row & r_emb & i & o & q & objs & db2' & resp' & Hfind
                      & Hid & Hst & Hrun & Hc & _)].
    { rewrite H in He. discriminate. }
    rewrite H in Hc. injection Hc as _ <-.
    destruct (run_scores_length _ _ _ _ _ _ _ Hrun) as [_ Htx].
    assert (Hf : find_transaction db2 txn
                 = Some (complete_row txn (tf_response_text body) r_emb i o row)).
    { unfold find_transaction. rewrite Htx. simpl transactions.
      apply find_complete_row. exact Hfind. }
    unfold complete_transaction.
    rewrite Hf, (complete_row_status _ _ _ _ _ Hid). reflexivity.
Qed.

(** *** Reading a transaction back *)

Lemma scores_of_transaction_app (db : Db) (objs : list AttributionScore)
      (txn : string) (db' : Db) :
  attribution_scores db' = attribution_scores db ++ objs ->
  scores_of_transaction db' txn
  = scores_of_transaction db txn
    ++ filter (fun s => String.eqb (score_transaction_id s) txn) objs.
Proof.
  intros H. unfold scores_of_transaction. rewrite H. apply filter_app.
Qed.

Lemma run_scores_transaction (db db' : Db) (t : string) (q r : list R)
      (ids : list string) (snap : bool) (now : datetime)
      (objs : list AttributionScore) :
  _run_eas_and_store db t q r ids snap now = Ok (objs, db') ->
  attribution_scores db' = attribution_scores db ++ objs /\
  Forall (fun s => score_transaction_id s = t) objs.
Proof.
  intros Hrun.
  destruct (run_unfold _ _ _ _ _ _ _ Hrun) as (res & _ & Hobjs & Hsc & _).
  split; [exact Hsc|]. apply Forall_forall. intros s Hs. rewrite Hobjs in Hs.
  apply in_map_iff in Hs as (entry & <- & _). reflexivity.
Qed.

Lemma filter_same_transaction (t txn : string) (objs : list AttributionScore) :
  Forall (fun s => score_transaction_id s = t) objs ->
  filter (fun s => String.eqb (score_transaction_id s) txn) objs
  = if String.eqb t txn then objs else [].
Proof.
  induction 1 as [|s objs Hs _ IH]; simpl.
  - destruct (String.eqb t txn); reflexivity.
  - rewrite Hs, IH. destruct (String.eqb t txn); reflexivity.
Qed.


Lemma find_none_all {A : Type} (f : A -> bool) (l : list A) :
  (forall x, In x l -> f x = false) -> find f l = None.
Proof.
  induction l as [|a l IH]; intros H; simpl; [reflexivity|].
  rewrite (H a (or_introl eq_refl)). apply IH. intros x Hx. apply H.
  right. exact Hx.
Qed.

Lemma complete_row_completed (txn text : string) (r_emb : list R) (i o : nat)
      (row : TransactionRow) :
  txn_status row = completed ->
  txn_status (complete_row txn text r_emb i o row) = completed.
Proof.
  intros H. unfold complete_row.
  destruct (String.eqb (txn_id row) txn); [reflexivity|exact H].
Qed.

Lemma store_consistent_create (body : TransactionCreate) (new_id : string)
      (now : datetime) (db : Db) :
  store_consistent db ->
  store_consistent
    (snd (create_transaction embed count_words pi_in pi_out body new_id now db)).
Proof.
  intros (H1 & H2 & H3).
  destruct (create_transaction_inv body new_id now db)
    as [[-> _]|(row & q & r & objs & db2 & resp & Hfresh & Hid & Hst & Ht & He
                & Hrun & -> & _)];
    [repeat split; assumption|].
  simpl snd.
  destruct (run_scores_length _ _ _ _ _ _ _ Hrun) as [_ Htx].
  destruct (run_scores_transaction _ _ _ _ _ _ _ Hrun) as [Hsc Hall].
  simpl in Htx, Hsc. unfold store_consistent. rewrite Htx. split; [|split].
  - intros s Hs. rewrite Hsc in Hs. apply in_app_or in Hs as [Hs|Hs].
    + destruct (H1 s Hs) as (t & Hin & Ht' & Hc).
      exists t. split; [apply in_or_app; left; exact Hin|]. split; assumption.
    + rewrite Forall_forall in Hall. exists row.
      split; [apply in_or_app; right; left; reflexivity|].
      split; [rewrite (Hall s Hs); exact Hid|exact Hst].
  - intros t Hin Hp. apply in_app_or in Hin as [Hin|[<-|[]]]; [|congruence].
    rewrite (scores_of_transaction_app _ _ (txn_id t) _ Hsc).
    rewrite (H2 t Hin Hp), (filter_same_transaction (txn_id t) Hall).
    unfold find_transaction in Hfresh.
    pose proof (find_none _ _ Hfresh t Hin) as Hne. simpl in Hne.
    rewrite String.eqb_sym, Hne. reflexivity.
  - intros t Hin. apply in_app_or in Hin as [Hin|[<-|[]]]; [apply H3; exact Hin|].
    unfold row_consistent. rewrite Hst. split; assumption.
Qed.

Lemma store_consistent_complete (txn : string) (body : TransactionComplete)
      (now : datetime) (db : Db) :
  store_consistent db ->
  store_consistent
    (snd (complete_transaction embed count_words pi_in pi_out txn body now db)).
Proof.
  intros (H1 & H2 & H3).
  destruct (complete_transaction_inv txn body now db)
    as [[-> _]|(row & r_emb & i & o & q & objs & db2 & resp & Hfind & Hid & Hst
                & Hrun & -> & _)];
    [repeat split; assumption|].
  simpl snd.
  destruct (run_scores_length _ _ _ _ _ _ _ Hrun) as [_ Htx].
  destruct (run_scores_transaction _ _ _ _ _ _ _ Hrun) as [Hsc Hall].
  simpl in Htx, Hsc. unfold store_consistent. rewrite Htx.
  assert (Hrow : In row (transactions db)).
  { unfold find_transaction in Hfind. apply find_some in Hfind. apply Hfind. }
  split; [|split].
  - intros s Hs. rewrite Hsc in Hs. apply in_app_or in Hs as [Hs|Hs].
    + destruct (H1 s Hs) as (t & Hin & Ht' & Hc). eexists.
      split; [apply in_map; exact Hin|].
      split; [rewrite complete_row_id; exact Ht'|].
      apply complete_row_completed. exact Hc.
    + rewrite Forall_forall in Hall. eexists.
      split; [apply in_map; exact Hrow|].
      split; [rewrite complete_row_id, (Hall s Hs); exact Hid|].
      apply complete_row_status. exact Hid.
  - intros t' Hin Hp. apply in_map_iff in Hin as (t & <- & Hin).
    rewrite complete_row_id.
    destruct (String.eqb (txn_id t) txn) eqn:E.
    + apply String.eqb_eq in E.
      rewrite (complete_row_status _ _ _ _ _ E) in Hp. discriminate.
    + assert (Ht : complete_row txn (tf_response_text body) r_emb i o t = t)
        by (unfold complete_row; rewrite E; reflexivity).
      rewrite Ht in Hp.
      rewrite (scores_of_transaction_app _ _ (txn_id t) _ Hsc).
      rewrite (H2 t Hin Hp), (filter_same_transaction (txn_id t) Hall).
      rewrite String.eqb_sym, E. reflexivity.
  - intros t' Hin. apply in_map_iff in Hin as (t & <- & Hin).
    unfold complete_row. destruct (String.eqb (txn_id t) txn);
      [|apply H3; exact Hin].
    unfold row_consistent. simpl. split; discriminate.
Qed.

Lemma store_consistent_initiate (body : TransactionInitiate) (new_id : string)
      (now : datetime) (db : Db) :
  store_consistent db ->
  store_consistent (snd (initiate_transaction embed body new_id now db)).
Proof.
  intros (H1 & H2 & H3). unfold initiate_transaction. cbv zeta.
  match goal with
  | |- context [insert_transaction db ?x] => set (row := x)
  end.
  unfold insert_transaction. change (txn_id row) with new_id.
  destruct (find_transaction db new_id) eqn:Efind;
    [repeat split; assumption|].
  simpl snd. unfold find_transaction in Efind.
  split; [|split].
  - intros s Hs. destruct (H1 s Hs) as (t & Hin & Ht' & Hc).
    exists t. split; [apply in_or_app; left; exact Hin|]. split; assumption.
  - intros t Hin Hp. apply in_app_or in Hin as [Hin|[<-|[]]].
    + apply (H2 t Hin Hp).
    + change (scores_of_transaction db new_id = []).
      destruct (scores_of_transaction db new_id) as [|s l] eqn:E;
        [reflexivity|exfalso].
      assert (Hs : In s (scores_of_transaction db new_id))
        by (rewrite E; left; reflexivity).
      apply filter_In in Hs as [Hs Hid]. apply String.eqb_eq in Hid.
      destruct (H1 s Hs) as (t & Hin & Ht' & _).
      pose proof (find_none _ _ Efind t Hin) as Hne. simpl in Hne.
      rewrite Ht', Hid, String.eqb_refl in Hne. discriminate.
  - intros t Hin. apply in_app_or in Hin as [Hin|[<-|[]]]; [apply H3; exact Hin|].
    unfold row_consistent. simpl. repeat split.
Qed.

(** X14.  The endpoints keep the store consistent, whether they return or raise:
    score rows only ever belong to completed transactions, and a pending
    transaction has neither score rows, nor a response, nor token counts. *)
Theorem endpoints_keep_store_consistent (db : Db) (now : datetime) :
  store_consistent db ->
  (forall body new_id,
     store_consistent (snd (initiate_transaction embed body new_id now db))) /\
  (forall body txn,
     store_consistent
       (snd (complete_transaction embed count_words pi_in pi_out txn body
                                  now db))) /\
  (forall body new_id,
     store_consistent
       (snd (create_transaction embed count_words pi_in pi_out body new_id
                                now db))) /\
  (forall mem, store_consistent (snd (delete_memory mem now db))).
Proof.
  intros H. split; [|split; [|split]].
  - intros body new_id. apply store_consistent_initiate. exact H.
  - intros body txn. apply store_consistent_complete. exact H.
  - intros body new_id. apply store_consistent_create. exact H.
  - intros mem. unfold delete_memory.
    destruct (find _ (memories db)); exact H.
Qed.

End EndpointFacts.

(** With the embeddings supplied in the request and of the width of the
    stored ones, the single-shot path returns under a fresh id. *)
Lemma create_body_succeeds (embed : list string -> list (list R))
      (count_words : string -> nat) (pi_in pi_out : R)
      (query_text response_text agent model : string) (q r : list R)
      (ids : list string) (in_tok out_tok : option nat)
      (t : string) (now : datetime) (db : Db) (d : nat) :
  q <> [] -> r <> [] ->
  find_transaction db t = None ->
  Forall (fun m => has_embedding m = true -> length (embedding_of m) = d)
         (memories db) ->
  length q = d -> length r = d ->
  exists resp db2,
    create_transaction embed count_words pi_in pi_out
      (create_body query_text response_text agent model q r ids in_tok out_tok)
      t now db
    = (Ok resp, db2).
Proof.
  intros Hq Hr Hfresh Hw Lq Lr.
  destruct (@create_transaction_scores embed count_words pi_in pi_out
              query_text response_text agent model q r ids in_tok out_tok
              t now db Hq Hr Hfresh)
    as (db1 & Hmem & _ & Hok).
  rewrite <- Hmem in Hw.
  destruct (@run_eas_and_store_ok db1 t q r ids false now d Hw Lq Lr)
    as (objs & db2 & Hrun & _).
  destruct (Hok objs db2 Hrun) as (resp & Hfst & _).
  exists resp. eexists.
  rewrite (surjective_pairing (create_transaction _ _ _ _ _ _ _ _)).
  rewrite Hfst. reflexivity.
Qed.

Lemma s4_store_widths :
  Forall (fun m => has_embedding m = true -> length (embedding_of m) = 3%nat)
         (memories s4_store).
Proof. repeat constructor. Qed.

Lemma s4_create_succeeds :
  exists resp db2,
    create_transaction no_embed no_words 0 0
      (create_body "q" "r" "agent" "model" [1; 0; 0] [1; 0; 0] s4_ids None None)
      "t-one" 3%Z s4_store
    = (Ok resp, db2).
Proof.
  apply (@create_body_succeeds no_embed no_words 0 0 "q" "r" "agent" "model"
           [1; 0; 0] [1; 0; 0] s4_ids None None "t-one" 3%Z s4_store 3%nat);
    try discriminate; try reflexivity.
  exact s4_store_widths.
Qed.

Lemma scored_transaction_is_final_witness :
  exists resp db2,
    create_transaction no_embed no_words 0 0
      (create_body "q" "r" "agent" "model" [1; 0; 0] [1; 0; 0] s4_ids None None)
      "t-one" 3%Z s4_store
    = (Ok resp, db2) /\
    complete_transaction no_embed no_words 0 0 "t-one"
      (complete_body "r" [1; 0; 0] None None) 4%Z db2
    = (Raise (HTTPException 409), db2).
Proof.
  destruct s4_create_succeeds as (resp & db2 & Hc).
  exists resp, db2. split; [exact Hc|].
  apply (proj1 (@scored_transaction_is_final
                  no_embed no_words 0 0 "t-one" 3%Z 4%Z s4_store db2 resp
                  (complete_body "r" [1; 0; 0] None None))
               _ Hc).
Defined.


Lemma s4_store_consistent : store_consistent s4_store.
Proof. repeat split; intros x []. Qed.

Lemma endpoints_keep_store_consistent_witness : store_consistent s4_initiated.
Proof.
  apply (proj1 (@endpoints_keep_store_consistent no_embed no_words 0 0
                  s4_store 1%Z s4_store_consistent)
               (initiate_body "q" "agent" "model" [1; 0; 0] s4_ids) "t-two"%string).
Defined.

(** *** Soft deletion *)

Lemma soft_delete_deleted (mem : string) (now : datetime) (m : MemoryRow) :
  mem_id m = mem -> mem_deleted_at (soft_delete mem now m) = Some now.
Proof.
  intros H. unfold soft_delete. rewrite H, String.eqb_refl. reflexivity.
Qed.

Lemma soft_delete_id (mem : string) (now : datetime) (m : MemoryRow) :
  mem_id (soft_delete mem now m) = mem_id m.
Proof.
  unfold soft_delete. destruct (String.eqb (mem_id m) mem); reflexivity.
Qed.

(** X15.  After [delete_memory] returned for a memory, the memory is gone for the
    read and delete endpoints (404, nothing changed) and is never scored by
    a single-shot transaction, whatever ids it asks for; its score rows and
    its profile stay in the store. *)
Theorem deleted_memory_is_invisible (mem : string) (now : datetime)
        (db db' : Db) :
  delete_memory mem now db = (Ok tt, db') ->
  get_memory mem db' = Raise (HTTPException 404) /\
  (forall now', delete_memory mem now' db' = (Raise (HTTPException 404), db')) /\
  (forall t q r ids now' objs db2,
     _run_eas_and_store db' t q r ids false now' = Ok (objs, db2) ->
     ~ In mem (map score_memory_id objs)) /\
  attribution_scores db' = attribution_scores db /\
  memory_profiles db' = memory_profiles db.
Proof.
  unfold delete_memory.
  destruct (find _ (memories db)) as [row|]; [|discriminate].
  intros [= <-].
  assert (Hgone : forall x,
             In x (map (soft_delete mem now) (memories db)) ->
             String.eqb (mem_id x) mem && is_none (mem_deleted_at x) = false).
  { intros x Hx. apply in_map_iff in Hx as (m & <- & _).
    rewrite soft_delete_id.
    destruct (String.eqb_spec (mem_id m) mem) as [E|_]; [|reflexivity].
    rewrite (@soft_delete_deleted mem now m E). reflexivity. }
  split; [|split; [|split; [|split; reflexivity]]].
  - unfold get_memory. simpl memories. rewrite (find_none_all _ _ Hgone).
    reflexivity.
  - intros now'. simpl memories. rewrite (find_none_all _ _ Hgone).
    reflexivity.
  - intros t q r ids now' objs db2 Hrun Hin.
    destruct (run_unfold _ _ _ _ _ _ _ Hrun) as (res & _ & Hobjs & _).
    rewrite Hobjs, score_objects_memory_ids in Hin.
    apply in_map_iff in Hin as (m & Hid & Hm).
    apply filter_In in Hm as [Hm _].
    unfold select_memories in Hm. destruct ids as [|i ids]; [contradiction|].
    apply in_order_by_id in Hm. apply filter_In in Hm as [Hm Hlive].
    simpl memories in Hm. specialize (Hgone m Hm).
    rewrite Hid, String.eqb_refl in Hgone. simpl in Hgone, Hlive.
    rewrite Hgone, andb_false_r in Hlive. discriminate.
Qed.

Lemma deleted_memory_is_invisible_witness :
  get_memory "m2" s4_deleted = Raise (HTTPException 404) /\
  delete_memory "m2" 5%Z s4_deleted = (Raise (HTTPException 404), s4_deleted).
Proof.
  destruct (@deleted_memory_is_invisible "m2" 2%Z s4_initiated s4_deleted
                                         eq_refl)
    as (Hget & Hdel & _).
  split; [exact Hget|apply Hdel].
Defined.

(** *** Profiles against score rows *)

Lemma history_of_scores (mem : string) (now : datetime)
      (objs : list AttributionScore) :
  history mem (map (score_event now) objs)
  = map score (filter (fun s => String.eqb (score_memory_id s) mem) objs).
Proof.
  unfold history. induction objs as [|s objs IH]; [reflexivity|].
  cbn [map filter]. unfold score_event at 1. cbn [fst snd].
  destruct (String.eqb (score_memory_id s) mem); cbn [map];
    rewrite IH; reflexivity.
Qed.

(** Scoring a transaction keeps the profiles in step with the score rows. *)
Lemma run_keeps_profiles (db db' : Db) (t : string) (q r : list R)
      (ids : list string) (snap : bool) (now : datetime)
      (objs : list AttributionScore) :
  profiles_track_scores db ->
  _run_eas_and_store db t q r ids snap now = Ok (objs, db') ->
  profiles_track_scores db'.
Proof.
  intros H Hrun mem.
  pose proof (run_eas_and_store_profiles _ _ _ _ _ _ _ Hrun) as Hp.
  destruct (run_scores_transaction _ _ _ _ _ _ _ Hrun) as [Hsc _].
  assert (Hp' : memory_profiles db'
                = upsert_all (map (score_event now) objs) (memory_profiles db)).
  { rewrite Hp. unfold upsert_all.
    rewrite <- (fold_left_map_arg
                  (fun t ev => welford_upsert (fst (fst ev)) (snd (fst ev))
                                              (snd ev) t)
                  (score_event now)).
    reflexivity. }
  assert (Hs' : map score (scores_of_memory db' mem)
                = map score (scores_of_memory db mem)
                  ++ history mem (map (score_event now) objs)).
  { unfold scores_of_memory. rewrite Hsc, filter_app, map_app, history_of_scores.
    reflexivity. }
  rewrite Hp', Hs'. apply upsert_all_stats. apply H.
Qed.

Section ProfileFacts.

Variable embed : list string -> list (list R).
Variable count_words : string -> nat.
Variables pi_in pi_out : R.

Lemma create_keeps_profiles (body : TransactionCreate) (new_id : string)
      (now : datetime) (db : Db) :
  profiles_track_scores db ->
  profiles_track_scores
    (snd (create_transaction embed count_words pi_in pi_out body new_id now db)).
Proof.
  intros H.
  destruct (create_transaction_inv embed count_words pi_in pi_out body new_id
                                   now db)
    as [[-> _]|(row & q & r & objs & db2 & resp & _ & _ & _ & _ & _ & Hrun
                & -> & _)];
    [exact H|].
  simpl snd. refine (@run_keeps_profiles _ _ _ _ _ _ _ _ _ _ Hrun). exact H.
Qed.

Lemma complete_keeps_profiles (txn : string) (body : TransactionComplete)
      (now : datetime) (db : Db) :
  profiles_track_scores db ->
  profiles_track_scores
    (snd (complete_transaction embed count_words pi_in pi_out txn body now db)).
Proof.
  intros H.
  destruct (complete_transaction_inv embed count_words pi_in pi_out txn body
                                     now db)
    as [[-> _]|(row & r_emb & i & o & q & objs & db2 & resp & _ & _ & _ & Hrun
                & -> & _)];
    [exact H|].
  simpl snd. refine (@run_keeps_profiles _ _ _ _ _ _ _ _ _ _ Hrun). exact H.
Qed.

(** X16.  The profiles stay in step with the score rows through every endpoint:
    a memory has a profile exactly when it has score rows, and the profile
    then holds their number, their sum and their mean. *)
Theorem endpoints_keep_profiles_in_step (db : Db) (now : datetime) :
  profiles_track_scores db ->
  (forall body new_id,
     profiles_track_scores
       (snd (create_transaction embed count_words pi_in pi_out body new_id
                                now db))) /\
  (forall body txn,
     profiles_track_scores
       (snd (complete_transaction embed count_words pi_in pi_out txn body
                                  now db))) /\
  (forall body new_id,
     profiles_track_scores (snd (initiate_transaction embed body new_id now db)))
  /\
  (forall mem, profiles_track_scores (snd (delete_memory mem now db))).
Proof.
  intros H. split; [|split; [|split]].
  - intros body new_id. apply create_keeps_profiles. exact H.
  - intros body txn. apply complete_keeps_profiles. exact H.
  - intros body new_id. unfold initiate_transaction, insert_transaction.
    cbv zeta. cbn [txn_id].
    destruct (find_transaction db new_id); exact H.
  - intros mem. unfold delete_memory.
    destruct (find _ (memories db)); exact H.
Qed.

End ProfileFacts.

Lemma s4_store_profiles : profiles_track_scores s4_store.
Proof. intros mem. reflexivity. Qed.

Lemma endpoints_keep_profiles_in_step_witness :
  profiles_track_scores
    (snd (create_transaction no_embed no_words 0 0
            (create_body "q" "r" "agent" "model" [1; 0; 0] [1; 0; 0] s4_ids
                         None None)
            "t-one" 3%Z s4_store)).
Proof.
  apply (proj1 (@endpoints_keep_profiles_in_step no_embed no_words 0 0
                  s4_store 3%Z s4_store_profiles)).
Defined.

(** *** [get_attribution_by_memory] *)

Lemma insert_by_score_perm (s : AttributionScore)
      (sorted : list AttributionScore) :
  Permutation (insert_by_score s sorted) (s :: sorted).
Proof.
  induction sorted as [|x rest IH]; simpl; [apply Permutation_refl|].
  destruct (Rle_dec (score x) (score s)); [apply Permutation_refl|].
  apply Permutation_trans with (x :: s :: rest);
    [apply perm_skip; exact IH|apply perm_swap].
Qed.

Lemma order_by_score_perm (rows : list AttributionScore) :
  Permutation (order_by_score_desc rows) rows.
Proof.
  unfold order_by_score_desc.
  induction rows as [|s rows IH]; simpl; [apply perm_nil|].
  apply Permutation_trans with (s :: fold_right insert_by_score [] rows);
    [apply insert_by_score_perm|apply perm_skip; exact IH].
Qed.

Lemma insert_by_score_descending (s : AttributionScore)
      (sorted : list AttributionScore) :
  descending sorted -> descending (insert_by_score s sorted).
Proof.
  induction sorted as [|x rest IH]; simpl.
  - intros _. split; [constructor|exact I].
  - intros [Hx Hrest]. destruct (Rle_dec (score x) (score s)) as [Hle|Hgt].
    + split; [|split; assumption]. constructor; [exact Hle|].
      eapply Forall_impl; [|exact Hx]. intros y Hy. simpl in Hy. lra.
    + split; [|apply IH; exact Hrest].
      apply Forall_forall. intros y Hy.
      apply (Permutation_in _ (insert_by_score_perm s rest)) in Hy.
      destruct Hy as [<-|Hy]; [lra|].
      rewrite Forall_forall in Hx. apply Hx. exact Hy.
Qed.

Lemma order_by_score_descending (rows : list AttributionScore) :
  descending (order_by_score_desc rows).
Proof.
  unfold order_by_score_desc.
  induction rows as [|s rows IH]; simpl; [exact I|].
  apply insert_by_score_descending. exact IH.
Qed.

(** X17.  What [get_attribution_by_memory] returns, on a store whose profiles
    are in step with its score rows: the memory's score rows, highest score
    first, and a profile exactly when there are any, holding their number,
    their sum and their mean. *)
Theorem memory_attribution_consistent (db : Db) (mem : string) :
  profiles_track_scores db ->
  descending (fst (get_attribution_by_memory mem db)) /\
  Permutation (fst (get_attribution_by_memory mem db))
              (scores_of_memory db mem) /\
  match snd (get_attribution_by_memory mem db) with
  | Some p =>
      retrieval_count p = length (fst (get_attribution_by_memory mem db)) /\
      total_attribution p
      = rsum (map score (fst (get_attribution_by_memory mem db))) /\
      mean_attribution p
      = mean (map score (fst (get_attribution_by_memory mem db)))
  | None => fst (get_attribution_by_memory mem db) = []
  end.
Proof.
  intros H. unfold get_attribution_by_memory. cbn [fst snd].
  pose proof (order_by_score_perm (scores_of_memory db mem)) as HP.
  split; [apply order_by_score_descending|]. split; [exact HP|].
  specialize (H mem).
  destruct (find_profile mem (memory_profiles db)) as [p|].
  - destruct H as [(Hn & Ht & Hm & _) Hne].
    rewrite length_map in Hn, Hm.
    pose proof (Permutation_length HP) as HL.
    pose proof (rsum_permutation (Permutation_map score HP)) as HS.
    assert (Hpos : 0 < INR (length (scores_of_memory db mem))).
    { apply lt_0_INR. destruct (scores_of_memory db mem);
        [contradiction Hne; reflexivity|simpl; lia]. }
    split; [rewrite HL; exact Hn|]. split; [rewrite HS; exact Ht|].
    unfold mean. rewrite length_map, HL, HS, <- Hm. field. lra.
  - apply map_eq_nil in H. rewrite H. reflexivity.
Qed.

Lemma memory_attribution_consistent_witness :
  descending
    (fst (get_attribution_by_memory "m1"
            (snd (create_transaction no_embed no_words 0 0
                    (create_body "q" "r" "agent" "model" [1; 0; 0] [1; 0; 0]
                                 s4_ids None None)
                    "t-one" 3%Z s4_store)))).
Proof.
  apply (@memory_attribution_consistent
           (snd (create_transaction no_embed no_words 0 0
                   (create_body "q" "r" "agent" "model" [1; 0; 0] [1; 0; 0]
                                s4_ids None None)
                   "t-one" 3%Z s4_store))
           "m1").
  apply create_keeps_profiles. exact s4_store_profiles.
Defined.

(** *** [list_transactions] *)










End PipelineFacts.

(** ** Dashboard metrics ([cortex/metrics/calculator.py]) *)

Module Metrics.

Import Eas.
Local Open Scope R_scope.

(** [np.sort] of a one-dimensional float array. *)
Fixpoint insert_sorted (x : R) (l : list R) : list R :=
  match l with
  | [] => [x]
  | y :: rest =>
      if Rle_dec x y then x :: y :: rest else y :: insert_sorted x rest
  end.

Definition np_sort (arr : list R) : list R := fold_right insert_sorted [] arr.

(** [np.abs(a[:, None] - a[None, :]).sum()]. *)
Definition abs_diffs (a : list R) : R :=
  rsum (map (fun xi => rsum (map (fun xj => Rabs (xi - xj)) a)) a).

Definition gini_coefficient (scores : list R) : R :=
  match scores with
  | [] => 0
  | _ :: _ =>
      let n := INR (length scores) in
      let mean := rsum scores / n in
      if Req_dec_T mean 0 then 0
      else
        let sorted_arr := np_sort scores in
        let diffs := abs_diffs sorted_arr in
        diffs / (2 * n * n * mean)
  end.

(** One turn of the loop of [token_waste_rate] over
    [zip(scores, token_counts)], on the pair
    [(total_tokens, wasted_tokens)]. *)
Definition count_tokens (threshold : R) (acc : Z * Z) (st : R * Z) : Z * Z :=
  (fst acc + snd st,
   if Rlt_dec (Rabs (fst st)) threshold then snd acc + snd st else snd acc)%Z.

Definition token_waste_rate (scores : list R) (token_counts : list Z)
           (threshold : R) : R :=
  match scores, token_counts with
  | [], _ => 0
  | _, [] => 0
  | _ :: _, _ :: _ =>
      let counted :=
        fold_left (count_tokens threshold) (combine scores token_counts)
                  (0, 0)%Z in
      let total_tokens := fst counted in
      let wasted_tokens := snd counted in
      if Z.ltb 0 total_tokens
      then IZR wasted_tokens / IZR total_tokens * 100
      else 0
  end.

Definition contradiction_risk (probabilities : list R) : R :=
  match probabilities with
  | [] => 0
  | _ :: _ =>
      let product := fold_left (fun prod p => prod * (1 - p)) probabilities 1 in
      1 - product
  end.

(** Sum of the distances from [a] to the entries of [l]. *)
Definition dist_sum (a : R) (l : list R) : R :=
  rsum (map (fun x => Rabs (a - x)) l).

(** *** Gini coefficient *)

Lemma rsum_cons (x : R) (l : list R) : rsum (x :: l) = x + rsum l.
Proof. reflexivity. Qed.

Lemma rsum_map_plus {A : Type} (f g : A -> R) (l : list A) :
  rsum (map (fun x => f x + g x) l) = rsum (map f l) + rsum (map g l).
Proof.
  induction l as [|a l IH]; simpl map; rewrite ?rsum_cons.
  - unfold rsum. simpl. lra.
  - rewrite IH. lra.
Qed.

Lemma rsum_perm (l l' : list R) : Permutation l l' -> rsum l = rsum l'.
Proof. unfold rsum. induction 1; simpl; lra. Qed.

Lemma insert_sorted_perm (x : R) (l : list R) :
  Permutation (insert_sorted x l) (x :: l).
Proof.
  induction l as [|y l IH]; simpl; [apply Permutation_refl|].
  destruct (Rle_dec x y); [apply Permutation_refl|].
  apply Permutation_trans with (y :: x :: l);
    [apply perm_skip; exact IH|apply perm_swap].
Qed.

Lemma np_sort_perm (l : list R) : Permutation (np_sort l) l.
Proof.
  unfold np_sort. induction l as [|x l IH]; simpl; [apply perm_nil|].
  apply Permutation_trans with (x :: fold_right insert_sorted [] l);
    [apply insert_sorted_perm|apply perm_skip; exact IH].
Qed.

(** The sum of all pairwise distances does not depend on the order of the
    entries, so the sort in [gini_coefficient] does not change the result. *)
Lemma abs_diffs_perm (l l' : list R) :
  Permutation l l' -> abs_diffs l = abs_diffs l'.
Proof.
  intros HP. unfold abs_diffs.
  rewrite (rsum_perm (Permutation_map _ HP)).
  f_equal. apply map_ext. intros xi.
  apply rsum_perm, Permutation_map, HP.
Qed.

Lemma abs_diffs_cons (a : R) (l : list R) :
  abs_diffs (a :: l) = 2 * dist_sum a l + abs_diffs l.
Proof.
  unfold abs_diffs, dist_sum. simpl map. rewrite !rsum_cons.
  replace (a - a) with 0 by lra. rewrite Rabs_R0.
  rewrite (map_ext (fun xi => rsum (map (fun xj => Rabs (xi - xj)) (a :: l)))
                   (fun xi => Rabs (a - xi)
                              + rsum (map (fun xj => Rabs (xi - xj)) l))).
  - rewrite rsum_map_plus. lra.
  - intros xi. simpl map. rewrite rsum_cons, (Rabs_minus_sym xi a).
    reflexivity.
Qed.

Lemma abs_diffs_constant (c : R) (n : nat) : abs_diffs (repeat c n) = 0.
Proof.
  induction n as [|n IH]; [unfold abs_diffs, rsum; simpl; lra|].
  simpl repeat. rewrite abs_diffs_cons, IH.
  assert (H : dist_sum c (repeat c n) = 0).
  { unfold dist_sum. clear IH. induction n as [|n IH']; [reflexivity|].
    simpl repeat. simpl map. rewrite rsum_cons, IH'.
    replace (c - c) with 0 by lra. rewrite Rabs_R0. lra. }
  rewrite H. lra.
Qed.

(** X20.  Equal scores give Gini coefficient 0. *)
Theorem gini_coefficient_equal_scores (c : R) (n : nat) :
  gini_coefficient (repeat c n) = 0.
Proof.
  unfold gini_coefficient. destruct n as [|n]; [reflexivity|].
  simpl repeat. cbv iota zeta. change (c :: repeat c n) with (repeat c (S n)).
  destruct (Req_dec_T (rsum (repeat c (S n)) / INR (length (repeat c (S n)))) 0)
    as [_|_]; [reflexivity|].
  rewrite (abs_diffs_perm (np_sort_perm (repeat c (S n)))), abs_diffs_constant.
  cbv iota. unfold Rdiv. ring.
Qed.

(** *** Token waste rate *)

Lemma count_tokens_invariant (threshold : R) (pairs : list (R * Z))
      (acc : Z * Z) :
  Forall (fun st => (0 <= snd st)%Z) pairs ->
  (0 <= snd acc <= fst acc)%Z ->
  (0 <= snd (fold_left (count_tokens threshold) pairs acc)
   <= fst (fold_left (count_tokens threshold) pairs acc))%Z.
Proof.
  intros Hp. revert acc. induction Hp as [|st pairs Hst _ IH]; intros acc Hacc.
  - exact Hacc.
  - simpl fold_left. apply IH. unfold count_tokens. simpl.
    destruct (Rlt_dec (Rabs (fst st)) threshold); simpl; lia.
Qed.

(** X21.  With non-negative token counts the waste rate is a percentage: it lies
    between 0 and 100. *)
Theorem token_waste_rate_is_percentage (scores : list R)
        (token_counts : list Z) (threshold : R) :
  Forall (fun t => (0 <= t)%Z) token_counts ->
  0 <= token_waste_rate scores token_counts threshold <= 100.
Proof.
  intros Hnn. unfold token_waste_rate.
  destruct scores as [|s scores]; [lra|].
  destruct token_counts as [|t token_counts]; [lra|].
  cbv zeta.
  set (pairs := combine (s :: scores) (t :: token_counts)).
  assert (Hp : Forall (fun st => (0 <= snd st)%Z) pairs).
  { apply Forall_forall. intros [x y] Hxy. apply in_combine_r in Hxy.
    rewrite Forall_forall in Hnn. apply Hnn. exact Hxy. }
  assert (H00 : (0 <= snd (0, 0) <= fst (0, 0))%Z) by (simpl; lia).
  pose proof (@count_tokens_invariant threshold pairs (0, 0)%Z Hp H00) as Hinv.
  set (counted := fold_left (count_tokens threshold) pairs (0, 0)%Z) in *.
  destruct (Z.ltb_spec 0 (fst counted)) as [Hpos|_]; [|lra].
  assert (H0 : 0 <= IZR (snd counted)) by (apply IZR_le; lia).
  assert (H1 : IZR (snd counted) <= IZR (fst counted)) by (apply IZR_le; lia).
  assert (H2 : 0 < IZR (fst counted)) by (apply IZR_lt; lia).
  split.
  - apply Rmult_le_pos; [|lra].
    apply Rmult_le_pos; [exact H0|]. apply Rlt_le, Rinv_0_lt_compat, H2.
  - assert (IZR (snd counted) / IZR (fst counted) <= 1).
    { apply (Rmult_le_reg_r (IZR (fst counted))); [exact H2|].
      unfold Rdiv. rewrite Rmult_assoc, Rinv_l; lra. }
    lra.
Qed.

Lemma token_waste_rate_is_percentage_witness :
  0 <= token_waste_rate [1 / 2; 0] [100%Z; 100%Z] (1 / 100) <= 100.
Proof.
  apply (@token_waste_rate_is_percentage [1 / 2; 0] [100%Z; 100%Z] (1 / 100)).
  repeat constructor; lia.
Defined.

(** *** Contradiction risk *)

Lemma product_bounds (ps : list R) (acc : R) :
  Forall (fun p => 0 <= p <= 1) ps ->
  0 <= acc ->
  0 <= fold_left (fun prod p => prod * (1 - p)) ps acc <= acc.
Proof.
  intros Hp. revert acc. induction Hp as [|p ps Hp0 _ IH]; intros acc Hacc.
  - simpl. lra.
  - simpl fold_left.
    assert (H : 0 <= acc * (1 - p) <= acc) by nra.
    specialize (IH (acc * (1 - p)) (proj1 H)). lra.
Qed.

Lemma product_stays_zero (ps : list R) :
  fold_left (fun prod p => prod * (1 - p)) ps 0 = 0.
Proof.
  induction ps as [|p ps IH]; simpl; [reflexivity|].
  rewrite Rmult_0_l. exact IH.
Qed.

Lemma product_with_certainty (ps : list R) (acc : R) :
  In 1 ps -> fold_left (fun prod p => prod * (1 - p)) ps acc = 0.
Proof.
  revert acc. induction ps as [|p ps IH]; intros acc Hin; [destruct Hin|].
  simpl fold_left. destruct Hin as [->|Hin]; [|apply IH; exact Hin].
  replace (acc * (1 - 1)) with 0 by ring. apply product_stays_zero.
Qed.

Lemma product_without_risk (ps : list R) (acc : R) :
  Forall (fun p => p = 0) ps ->
  fold_left (fun prod p => prod * (1 - p)) ps acc = acc.
Proof.
  intros Hz. revert acc. induction Hz as [|p ps Hp _ IH]; intros acc;
    [reflexivity|].
  simpl fold_left. rewrite IH, Hp. ring.
Qed.

(** X22.  For probabilities in [[0, 1]] the contradiction risk is itself in
    [[0, 1]]; it is 1 as soon as one probability is 1, and 0 when every
    probability is 0. *)
Theorem contradiction_risk_bounds (probabilities : list R) :
  Forall (fun p => 0 <= p <= 1) probabilities ->
  0 <= contradiction_risk probabilities <= 1 /\
  (In 1 probabilities -> contradiction_risk probabilities = 1) /\
  (Forall (fun p => p = 0) probabilities ->
   contradiction_risk probabilities = 0).
Proof.
  intros Hp. unfold contradiction_risk.
  destruct probabilities as [|p0 ps] eqn:E.
  { split; [lra|]. split; [intros []|reflexivity]. }
  rewrite <- E in *. cbv zeta.
  pose proof (@product_bounds probabilities 1 Hp ltac:(lra)) as Hb.
  split; [lra|]. split.
  - intros Hin. rewrite (@product_with_certainty probabilities 1 Hin). ring.
  - intros Hz. rewrite (@product_without_risk probabilities 1 Hz). ring.
Qed.

Lemma contradiction_risk_bounds_witness :
  0 <= contradiction_risk [1 / 2; 1 / 4] <= 1.
Proof.
  apply (@contradiction_risk_bounds [1 / 2; 1 / 4]).
  repeat constructor; lra.
Defined.

End Metrics.

(** ** Further properties of the provenance graph
    ([cortex/compliance/provenance.py]) *)

Module ProvenanceFacts.

Import Provenance.
Local Open Scope Z_scope.

Inductive MemoryType : Type := raw | consolidated | critical.

Inductive MemoryStatus : Type := active | archived | deleted | pending_deletion.

Inductive Criticality : Type := normal | safety_critical | protected.

(** Rows of the node tables the recorders below write
    ([cortex/db/models/provenance.py]), without their [metadata] columns;
    [deletion_scheduled_at] of a new memory node is [NULL]. *)
Record MemoryNode : Type := {
  mn_id : UUID;
  mn_shard_id : Z;
  mn_content : string;
  mn_memory_type : MemoryType;
  mn_status : MemoryStatus;
  mn_slice_id : Z;
  mn_created_at : datetime;
  mn_created_by_user_id : string;
  mn_token_count : Z;
  mn_criticality : Criticality;
  mn_deletion_scheduled_at : option datetime
}.

Record SummaryNode : Type := {
  sn_id : UUID;
  sn_content : string;
  sn_source_memory_count : nat;
  sn_created_at : datetime;
  sn_method : string
}.

Record EmbeddingNode : Type := {
  en_id : UUID;
  en_vector_ref : string;
  en_model_version : string;
  en_dimensions : Z;
  en_created_at : datetime
}.

(** The graph tables together with the node tables. *)
Record Store : Type := {
  graph : Graph;
  memory_nodes : list MemoryNode;
  summary_nodes : list SummaryNode;
  embedding_nodes : list EmbeddingNode
}.

Definition NUM_SHARDS : Z := 16.

(** [MAX(slice_id)]: [NULL] on no rows. *)
Definition max_of (l : list Z) : option Z :=
  match l with
  | [] => None
  | x :: rest => Some (fold_left Z.max rest x)
  end.

Definition coalesce (x : option Z) (default : Z) : Z :=
  match x with
  | Some v => v
  | None => default
  end.

Definition created_by (user_id : string) (n : MemoryNode) : bool :=
  String.eqb (mn_created_by_user_id n) user_id.

(** [SELECT COALESCE(MAX(slice_id), -1) + 1 FROM memory_nodes WHERE
    created_by_user_id = :user_id]. *)
Definition _next_slice_id (st : Store) (user_id : string) : Z :=
  coalesce
    (max_of (map mn_slice_id (filter (created_by user_id) (memory_nodes st))))
    (-1)
  + 1.

Definition add_creation_edge (g : Graph) (edge : CreationEdge) : Graph :=
  {| interaction_nodes := interaction_nodes g;
     creation_edges := creation_edges g ++ [edge];
     derivation_edges := derivation_edges g;
     attribution_edges := attribution_edges g |}.

Definition add_derivation_edge (g : Graph) (edge : DerivationEdge) : Graph :=
  {| interaction_nodes := interaction_nodes g;
     creation_edges := creation_edges g;
     derivation_edges := derivation_edges g ++ [edge];
     attribution_edges := attribution_edges g |}.

Section Recorders.

(** Python's [hash] on strings: salted per process, so any function of the
    string. *)
Variable py_hash : string -> Z.

(** [record_memory_creation]; [new_memory_id] and [new_embedding_id] are the
    ids generated at the two flushes, [clock] what [datetime.now(UTC)]
    returns.  The creation edge carries a foreign key to
    [interaction_nodes.id], checked when the edge is flushed. *)
Definition record_memory_creation (st : Store)
           (new_memory_id new_embedding_id : UUID) (clock : datetime)
           (interaction_id : UUID) (content user_id : string)
           (memory_type : MemoryType) (vector_ref embedding_model : string)
           (embedding_dim token_count : Z) (criticality : Criticality)
  : result (MemoryNode * EmbeddingNode * Store) :=
  let now := clock in
  let shard_id := py_hash user_id mod NUM_SHARDS in
  let mem_node :=
    {| mn_id := new_memory_id;
       mn_shard_id := shard_id;
       mn_content := content;
       mn_memory_type := memory_type;
       mn_status := active;
       mn_slice_id := _next_slice_id st user_id;
       mn_created_at := now;
       mn_created_by_user_id := user_id;
       mn_token_count := token_count;
       mn_criticality := criticality;
       mn_deletion_scheduled_at := None |} in
  let creation_edge :=
    {| ce_source_id := interaction_id;
       ce_target_id := mn_id mem_node;
       ce_created_at := now |} in
  let emb_node :=
    {| en_id := new_embedding_id;
       en_vector_ref := vector_ref;
       en_model_version := embedding_model;
       en_dimensions := embedding_dim;
       en_created_at := now |} in
  if existsb (fun i => N.eqb (in_id i) interaction_id)
             (interaction_nodes (graph st))
  then
    let deriv_edge :=
      {| de_source_id := mn_id mem_node;
         de_source_type := memory;
         de_target_id := en_id emb_node;
         de_target_type := embedding;
         de_derivation_type := embedding_derivation;
         de_created_at := now |} in
    Ok (mem_node, emb_node,
        {| graph :=
             add_derivation_edge (add_creation_edge (graph st) creation_edge)
                                 deriv_edge;
           memory_nodes := memory_nodes st ++ [mem_node];
           summary_nodes := summary_nodes st;
           embedding_nodes := embedding_nodes st ++ [emb_node] |})
  else Raise IntegrityError.

End Recorders.

(** [record_consolidation]; [new_id] is the id generated for the summary
    when it is flushed. *)
Definition record_consolidation (st : Store) (new_id : UUID) (clock : datetime)
           (source_memory_ids : list UUID) (summary_content method : string)
  : SummaryNode * Store :=
  let now := clock in
  let summary_node :=
    {| sn_id := new_id;
       sn_content := summary_content;
       sn_source_memory_count := length source_memory_ids;
       sn_created_at := now;
       sn_method := method |} in
  let g :=
    fold_left
      (fun acc mem_id =>
         add_derivation_edge acc
           {| de_source_id := mem_id;
              de_source_type := memory;
              de_target_id := sn_id summary_node;
              de_target_type := summary;
              de_derivation_type := consolidation;
              de_created_at := now |})
      source_memory_ids (graph st) in
  (summary_node,
   {| graph := g;
      memory_nodes := memory_nodes st;
      summary_nodes := summary_nodes st ++ [summary_node];
      embedding_nodes := embedding_nodes st |}).

(** The memory ids for which [record_transaction] writes an edge. *)
Definition edge_sources (memory_ids : list UUID) (scores : list Q) : list UUID :=
  map fst (zip memory_ids scores).

(** A user's memory nodes carry the slice ids [0, 1, 2, ...] in insertion
    order. *)
Definition slices_sequential (st : Store) : Prop :=
  forall u,
    map mn_slice_id (filter (created_by u) (memory_nodes st))
    = map Z.of_nat (seq 0 (length (filter (created_by u) (memory_nodes st)))).

(** The edge [record_consolidation] writes for one source. *)
Definition consolidation_edge (target : UUID) (now : datetime) (mem_id : UUID)
  : DerivationEdge :=
  {| de_source_id := mem_id;
     de_source_type := memory;
     de_target_id := target;
     de_target_type := summary;
     de_derivation_type := consolidation;
     de_created_at := now |}.

(** *** A small store

    Alice has recorded one interaction; then a memory is created from it by
    a call that names another user. *)

Definition alice_recorded : InteractionNode * Graph :=
  record_transaction empty_graph 1%N 0 "alice" "q" "r" "a" 0 [] [] eas None.

Definition alice_interaction : InteractionNode := fst alice_recorded.

Definition alice_store : Store :=
  {| graph := snd alice_recorded;
     memory_nodes := [];
     summary_nodes := [];
     embedding_nodes := [] |}.

Definition alice_store_1 : Store :=
  match record_memory_creation (fun _ => 5) alice_store 10%N 20%N 1 1%N
                               "c" "bob" raw "v" "model" 384 3 normal with
  | Ok (_, _, st') => st'
  | Raise _ => alice_store
  end.

(** *** [record_transaction] and the version invariant *)

Lemma filter_first_edges (s t target : UUID) (ty : ScoreType) (now : datetime)
      (pairs : list (UUID * Q)) :
  filter (for_pair s t) (map (first_edge target ty now) pairs)
  = if N.eqb target t
    then map (first_edge target ty now)
             (filter (fun p => N.eqb (fst p) s) pairs)
    else [].
Proof.
  induction pairs as [|p pairs IH].
  - simpl. destruct (N.eqb target t); reflexivity.
  - cbn [map filter]. rewrite IH. unfold for_pair.
    cbn [first_edge ae_source_id ae_target_id]. cbv beta. unfold UUID in *.
    destruct (N.eqb (fst p) s); destruct (N.eqb target t); reflexivity.
Qed.

Lemma filter_unique_source (s : UUID) (pairs : list (UUID * Q)) :
  NoDup (map fst pairs) ->
  (length (filter (fun p => N.eqb (fst p) s) pairs) <= 1)%nat.
Proof.
  unfold UUID in *.
  induction pairs as [|p pairs IH]; simpl; intros Hnd; [lia|].
  inversion Hnd as [|? ? Hn Hnd']; subst.
  destruct (N.eqb_spec (fst p) s) as [E|_]; [|apply IH; exact Hnd'].
  simpl. rewrite filter_none; [simpl; lia|].
  intros x Hx. destruct (N.eqb_spec (fst x) s) as [E'|_]; [|reflexivity].
  exfalso. apply Hn. rewrite E, <- E'. apply in_map. exact Hx.
Qed.

(** X23.  [record_transaction] keeps the version invariant of the attribution
    table when the interaction id is new to the table and no memory id gets
    two edges. *)
Theorem record_transaction_keeps_versioned
        (g : Graph) (new_id : UUID) (clock : datetime)
        (user_id query response agent_id : string) (cost : Q)
        (memory_ids : list UUID) (scores : list Q) (score_type : ScoreType)
        (timestamp : option datetime) :
  versioned (attribution_edges g) ->
  (forall e, In e (attribution_edges g) -> ae_target_id e <> new_id) ->
  NoDup (edge_sources memory_ids scores) ->
  versioned
    (attribution_edges
       (snd (record_transaction g new_id clock user_id query response agent_id
                                cost memory_ids scores score_type timestamp))).
Proof.
  intros Hv Hfresh Hnd.
  destruct (record_transaction_edges g new_id clock user_id query response
                                     agent_id cost memory_ids scores score_type
                                     timestamp) as (Ha & _).
  rewrite Ha. clear Ha. intros s t.
  rewrite filter_app, filter_first_edges.
  destruct (N.eqb_spec new_id t) as [<-|Hne].
  - rewrite (@filter_none _ (for_pair s new_id) (attribution_edges g)).
    2:{ intros e He. unfold for_pair.
        destruct (N.eqb_spec (ae_target_id e) new_id) as [E|_];
          [|apply andb_false_r].
        contradiction (Hfresh e He E). }
    simpl app.
    pose proof (@filter_unique_source s (zip memory_ids scores) Hnd) as Hlen.
    destruct (filter (fun p => N.eqb (fst p) s) (zip memory_ids scores))
      as [|p [|p' rest]]; simpl in *; try reflexivity; lia.
  - rewrite app_nil_r. apply Hv.
Qed.

Lemma record_transaction_keeps_versioned_witness :
  versioned
    (attribution_edges
       (snd (record_transaction empty_graph 100%N 0 "u" "q" "r" "a" 0
                                [1%N; 2%N] [1 # 2; 1 # 4] eas None))).
Proof.
  apply (@record_transaction_keeps_versioned
           empty_graph 100%N 0 "u" "q" "r" "a" 0 [1%N; 2%N] [1 # 2; 1 # 4]
           eas None).
  - intros s t. reflexivity.
  - intros e [].
  - repeat constructor; simpl; intuition discriminate.
Defined.

Lemma current_first_edges (m target : UUID) (ty : ScoreType) (now : datetime)
      (pairs : list (UUID * Q)) :
  length (filter (is_current_for m target)
                 (map (first_edge target ty now) pairs))
  = count_occ N.eq_dec (map fst pairs) m.
Proof.
  unfold UUID in *.
  induction pairs as [|p pairs IH]; [reflexivity|].
  cbn [map filter count_occ]. unfold is_current_for at 1.
  cbn [first_edge ae_source_id ae_target_id ae_is_current].
  rewrite N.eqb_refl, !andb_true_r.
  match goal with
  | |- context [length (if ?c then _ else _)] => destruct c eqn:Ec
  end; destruct (N.eq_dec (fst p) m) as [E|E].
  - cbn [length]. rewrite IH. reflexivity.
  - apply N.eqb_eq in Ec. contradiction.
  - apply N.eqb_neq in Ec. contradiction.
  - exact IH.
Qed.

(** X24.  A memory id passed twice to [record_transaction] gets two current
    edges to the new interaction, and every later [update_attribution] of
    that pair raises [MultipleResultsFound]. *)
Theorem repeated_memory_id_blocks_update
        (g : Graph) (new_id : UUID) (clock clock' : datetime)
        (user_id query response agent_id : string) (cost : Q)
        (memory_ids : list UUID) (scores : list Q) (score_type : ScoreType)
        (timestamp : option datetime) (m : UUID) (new_score : Q)
        (new_score_type : ScoreType) :
  (2 <= count_occ N.eq_dec (edge_sources memory_ids scores) m)%nat ->
  update_attribution
    (snd (record_transaction g new_id clock user_id query response agent_id
                             cost memory_ids scores score_type timestamp))
    clock' m new_id new_score new_score_type
  = Raise MultipleResultsFound.
Proof.
  intros Hcount.
  destruct (record_transaction_edges g new_id clock user_id query response
                                     agent_id cost memory_ids scores score_type
                                     timestamp) as (Ha & _).
  unfold update_attribution. rewrite Ha, filter_app, map_app.
  pose proof (current_first_edges m new_id score_type
                (match timestamp with Some t => t | None => clock end)
                (zip memory_ids scores)) as Hlen.
  fold (edge_sources memory_ids scores) in Hlen. rewrite <- Hlen in Hcount.
  destruct (filter (is_current_for m new_id)
                   (map (first_edge new_id score_type
                           (match timestamp with Some t => t | None => clock end))
                        (zip memory_ids scores)))
    as [|e1 [|e2 rest]]; simpl in Hcount; try lia.
  destruct (map ae_version (filter (is_current_for m new_id) (attribution_edges g)))
    as [|v [|v' vs]]; reflexivity.
Qed.

Lemma repeated_memory_id_blocks_update_witness :
  update_attribution
    (snd (record_transaction empty_graph 100%N 0 "u" "q" "r" "a" 0
                             [7%N; 7%N] [1 # 2; 1 # 4] eas None))
    1 7%N 100%N (1 # 3) calibrated
  = Raise MultipleResultsFound.
Proof.
  apply (@repeated_memory_id_blocks_update
           empty_graph 100%N 0 1 "u" "q" "r" "a" 0 [7%N; 7%N] [1 # 2; 1 # 4]
           eas None 7%N (1 # 3) calibrated).
  simpl. lia.
Defined.

(** *** [update_attribution] and the footprints *)

Lemma iterate_tables (g g' : Graph) (fuel : nat) (found : list footprint_row) :
  derivation_edges g = derivation_edges g' ->
  iterate g fuel found = iterate g' fuel found.
Proof.
  intros H. revert found. induction fuel as [|fuel IH]; intros found;
    [reflexivity|].
  cbn [iterate]. cbv zeta.
  assert (E : step_rows g found = step_rows g' found)
    by (unfold step_rows; rewrite H; reflexivity).
  rewrite E. destruct (Nat.eqb _ _); [reflexivity|apply IH].
Qed.

(** F(u) reads the interaction, creation and derivation tables only. *)
Lemma user_footprint_tables (g g' : Graph) (u : string) :
  interaction_nodes g = interaction_nodes g' ->
  creation_edges g = creation_edges g' ->
  derivation_edges g = derivation_edges g' ->
  user_footprint g u = user_footprint g' u.
Proof.
  intros Hi Hc Hd. unfold user_footprint, base_rows. rewrite Hi, Hc, Hd.
  apply iterate_tables. exact Hd.
Qed.

Lemma update_attribution_tables (g g' : Graph) (clock : datetime) (s t : UUID)
      (x : Q) (ty : ScoreType) (e : AttributionEdge) :
  update_attribution g clock s t x ty = Ok (e, g') ->
  interaction_nodes g' = interaction_nodes g /\
  creation_edges g' = creation_edges g /\
  derivation_edges g' = derivation_edges g /\
  attribution_edges g' = map (supersede s t) (attribution_edges g) ++ [e] /\
  ae_source_id e = s /\ ae_target_id e = t /\ ae_score e = x /\
  ae_is_current e = true.
Proof.
  unfold update_attribution.
  destruct (scalar_one_or_none _) as [current|err]; simpl; [|discriminate].
  intros [= <- <-]. repeat split.
Qed.

(** X25.  A calibration correction changes no user's footprint F(u), and in the
    influence footprint I(u) only the new score counts for the corrected
    pair: the interaction [t] is influenced through the memory [s] exactly
    when [s] is in F(u) and the new score is positive, while every other
    pair counts as before. *)
Theorem update_attribution_footprints (g g' : Graph) (clock : datetime)
        (s t : UUID) (x : Q) (ty : ScoreType) (e : AttributionEdge)
        (u : string) :
  update_attribution g clock s t x ty = Ok (e, g') ->
  compute_user_footprint g' u = compute_user_footprint g u /\
  forall y,
    In y (compute_influence_footprint g' u) <->
    (y = t /\ In s (memory_node_ids (compute_user_footprint g u)) /\ (0 < x)%Q)
    \/
    (exists ae,
       In ae (attribution_edges g) /\ ae_target_id ae = y /\
       (ae_source_id ae, ae_target_id ae) <> (s, t) /\
       In (ae_source_id ae) (memory_node_ids (compute_user_footprint g u)) /\
       ae_is_current ae = true /\ (0 < ae_score ae)%Q).
Proof.
  intros Hup.
  destruct (update_attribution_tables _ _ _ _ _ _ Hup)
    as (Hi & Hc & Hd & Ha & Hs & Ht & Hx & Hcur).
  assert (HF : compute_user_footprint g' u = compute_user_footprint g u).
  { unfold compute_user_footprint.
    rewrite (user_footprint_tables g' g u Hi Hc Hd), Hi. reflexivity. }
  split; [exact HF|]. intros y.
  rewrite in_influence_footprint, HF, Ha. split.
  - intros (ae' & Hin & Hy & Hsrc & Hc' & Hpos).
    apply in_app_or in Hin as [Hin|[<-|[]]].
    + right. apply in_map_iff in Hin as (ae & <- & Hin).
      unfold supersede in *.
      destruct (is_current_for s t ae) eqn:E; [discriminate Hc'|].
      exists ae. repeat split; try assumption.
      intros [= E1 E2]. unfold is_current_for in E.
      rewrite E1, E2, !N.eqb_refl, Hc' in E. discriminate.
    + left. rewrite <- Hy, Ht, <- Hs, <- Hx. repeat split; assumption.
  - intros [(-> & Hsrc & Hpos)|(ae & Hin & Hy & Hne & Hsrc & Hc' & Hpos)].
    + exists e. rewrite Hs, Hx. repeat split; try assumption.
      apply in_or_app. right. left. reflexivity.
    + exists ae. repeat split; try assumption.
      apply in_or_app. left. apply in_map_iff. exists ae. split; [|exact Hin].
      unfold supersede, is_current_for.
      destruct (N.eqb_spec (ae_source_id ae) s) as [E1|_]; [|reflexivity].
      destruct (N.eqb_spec (ae_target_id ae) t) as [E2|_]; [|reflexivity].
      exfalso. apply Hne. rewrite E1, E2. reflexivity.
Qed.

Lemma update_attribution_footprints_witness :
  exists e g',
    update_attribution (influence_scenario (92 # 100)) 5 alice_memory 2%N 0
                       calibrated
    = Ok (e, g') /\
    ~ In 2%N (compute_influence_footprint g' "alice").
Proof.
  destruct (update_attribution (influence_scenario (92 # 100)) 5 alice_memory
                               2%N 0 calibrated)
    as [[e g']|err] eqn:E; [|vm_compute in E; discriminate].
  exists e, g'. split; [reflexivity|]. intros Hin.
  apply (proj2 (@update_attribution_footprints
                  (influence_scenario (92 # 100)) g' 5 alice_memory 2%N 0
                  calibrated e "alice" E) 2%N) in Hin.
  destruct Hin as [(_ & _ & Hpos)|(ae & Hae & _ & Hne & _)].
  - vm_compute in Hpos. discriminate.
  - vm_compute in Hae. destruct Hae as [<-|[]]. apply Hne. reflexivity.
Defined.

(** *** Shape of a footprint *)

Lemma ids_of_type_nodup (ty : NodeType) (rows : list footprint_row) :
  NoDup rows -> NoDup (ids_of_type ty rows).
Proof.
  induction 1 as [|[n ty'] rows Hn _ IH]; [constructor|].
  unfold ids_of_type in *. simpl.
  destruct (node_type_eqb ty' ty) eqn:E; [|exact IH].
  apply node_type_eqb_eq in E. subst ty'. simpl. constructor; [|exact IH].
  intros Hin. apply Hn. apply (in_ids_of_type ty rows n). exact Hin.
Qed.

Lemma reaches_interaction (g : Graph) (u : string) (x : footprint_row) :
  reaches g u x ->
  exists i, In i (interaction_nodes g) /\ in_user_id i = u.
Proof.
  induction 1 as [ce i _ Hi _ Hu|de uf _ IH _ _]; [|exact IH].
  exists i. split; assumption.
Qed.

Lemma flat_map_empty {A B : Type} (f : A -> list B) (l : list A) :
  (forall a, f a = []) -> flat_map f l = [].
Proof.
  intros H. induction l as [|a l IH]; simpl; [reflexivity|].
  rewrite H, IH. reflexivity.
Qed.

(** X26.  No id is listed twice among the memory ids, the summary ids or the
    embedding ids of a footprint; and for a user without any interaction
    the footprint and the influence footprint are empty. *)
Theorem footprint_well_formed (g : Graph) (u : string) :
  NoDup (memory_node_ids (compute_user_footprint g u)) /\
  NoDup (summary_node_ids (compute_user_footprint g u)) /\
  NoDup (embedding_node_ids (compute_user_footprint g u)) /\
  ((forall i, In i (interaction_nodes g) -> in_user_id i <> u) ->
   compute_user_footprint g u
   = {| user_id := u;
        memory_node_ids := [];
        summary_node_ids := [];
        embedding_node_ids := [];
        interaction_node_ids := [] |} /\
   compute_influence_footprint g u = []).
Proof.
  pose proof (user_footprint_nodup g u) as Hnd.
  split; [|split; [|split]]; try (apply ids_of_type_nodup; exact Hnd).
  intros Hnone.
  assert (E : user_footprint g u = []).
  { destruct (user_footprint g u) as [|x rows] eqn:E; [reflexivity|exfalso].
    assert (Hx : In x (user_footprint g u)) by (rewrite E; left; reflexivity).
    apply user_footprint_reaches, reaches_interaction in Hx as (i & Hi & Hu).
    apply (Hnone i Hi Hu). }
  unfold compute_user_footprint, compute_influence_footprint. rewrite E.
  split.
  - f_equal. rewrite filter_none; [reflexivity|]. intros i Hi.
    destruct (String.eqb_spec (in_user_id i) u) as [Hu|_]; [|reflexivity].
    contradiction (Hnone i Hi Hu).
  - simpl. rewrite flat_map_empty; reflexivity.
Qed.

Lemma footprint_well_formed_witness :
  compute_influence_footprint (influence_scenario (92 # 100)) "carol" = [].
Proof.
  apply (@footprint_well_formed (influence_scenario (92 # 100)) "carol").
  intros i Hi. vm_compute in Hi.
  destruct Hi as [<-|[<-|[]]]; discriminate.
Defined.

(** *** [record_memory_creation] *)

Lemma reaches_monotone (g g' : Graph) (u : string) (x : footprint_row) :
  incl (interaction_nodes g) (interaction_nodes g') ->
  incl (creation_edges g) (creation_edges g') ->
  incl (derivation_edges g) (derivation_edges g') ->
  reaches g u x -> reaches g' u x.
Proof.
  intros Hi Hc Hd.
  induction 1 as [ce i Hce Hin E1 E2|de uf _ IH Hde E].
  - apply (@reach_base g' u ce i (Hc _ Hce) (Hi _ Hin) E1 E2).
  - apply (@reach_step g' u de uf IH (Hd _ Hde) E).
Qed.

Lemma fold_max_seq (n a : nat) :
  fold_left Z.max (map Z.of_nat (seq (S a) n)) (Z.of_nat a) = Z.of_nat (a + n).
Proof.
  revert a. induction n as [|n IH]; intros a; simpl.
  - rewrite Nat.add_0_r. reflexivity.
  - rewrite Z.max_r by lia. change (Z.pos (Pos.of_succ_nat a)) with (Z.of_nat (S a)).
    rewrite IH. f_equal. lia.
Qed.

Lemma next_after_seq (n : nat) :
  coalesce (max_of (map Z.of_nat (seq 0 n))) (-1) + 1 = Z.of_nat n.
Proof.
  destruct n as [|n]; [reflexivity|].
  cbn [seq map max_of coalesce].
  rewrite (fold_max_seq n 0). simpl Nat.add. lia.
Qed.

Section RecorderFacts.

Variable py_hash : string -> Z.

(** X27.  A memory recorded from an interaction enters the footprint of the
    user who owns that interaction, together with its embedding, whatever
    [user_id] the call names; nothing leaves any footprint.  Without the
    interaction the call raises [IntegrityError] on the foreign key of the
    creation edge. *)
Theorem record_memory_creation_footprint
        (st : Store) (new_memory_id new_embedding_id : UUID) (clock : datetime)
        (interaction_id : UUID) (content user_id : string)
        (memory_type : MemoryType) (vector_ref embedding_model : string)
        (embedding_dim token_count : Z) (criticality : Criticality) :
  (forall i,
     In i (interaction_nodes (graph st)) -> in_id i = interaction_id ->
     exists m e st',
       record_memory_creation py_hash st new_memory_id new_embedding_id clock
         interaction_id content user_id memory_type vector_ref embedding_model
         embedding_dim token_count criticality
       = Ok (m, e, st') /\
       mn_id m = new_memory_id /\ en_id e = new_embedding_id /\
       In new_memory_id
          (memory_node_ids (compute_user_footprint (graph st') (in_user_id i)))
       /\
       In new_embedding_id
          (embedding_node_ids
             (compute_user_footprint (graph st') (in_user_id i))) /\
       (forall u x, In x (user_footprint (graph st) u) ->
                    In x (user_footprint (graph st') u))) /\
  ((forall i, In i (interaction_nodes (graph st)) -> in_id i <> interaction_id) ->
   record_memory_creation py_hash st new_memory_id new_embedding_id clock
     interaction_id content user_id memory_type vector_ref embedding_model
     embedding_dim token_count criticality
   = Raise IntegrityError).
Proof.
  unfold record_memory_creation. cbv zeta. split.
  - intros i Hi Hid.
    assert (Hex : existsb (fun i => N.eqb (in_id i) interaction_id)
                          (interaction_nodes (graph st)) = true).
    { apply existsb_exists. exists i. split; [exact Hi|].
      apply N.eqb_eq. exact Hid. }
    rewrite Hex. eexists. eexists. eexists.
    split; [reflexivity|]. split; [reflexivity|]. split; [reflexivity|].
    simpl graph. cbn [mn_id en_id].
    set (ce := Build_CreationEdge interaction_id new_memory_id clock).
    set (de := Build_DerivationEdge new_memory_id memory new_embedding_id
                                    embedding embedding_derivation clock).
    set (g' := add_derivation_edge (add_creation_edge (graph st) ce) de).
    assert (Hmem : reaches g' (in_user_id i) (new_memory_id, memory)).
    { apply (@reach_base g' (in_user_id i) ce i).
      - simpl. apply in_or_app. right. left. reflexivity.
      - exact Hi.
      - symmetry. exact Hid.
      - reflexivity. }
    split; [|split].
    + simpl. apply in_ids_of_type, user_footprint_reaches. exact Hmem.
    + simpl. apply in_ids_of_type, user_footprint_reaches.
      apply (@reach_step g' (in_user_id i) de (new_memory_id, memory) Hmem).
      * simpl. apply in_or_app. right. left. reflexivity.
      * reflexivity.
    + intros u x Hx. apply user_footprint_reaches.
      apply user_footprint_reaches in Hx.
      apply (@reaches_monotone (graph st) g' u x); try exact Hx; simpl.
      * apply incl_refl.
      * apply incl_appl, incl_refl.
      * apply incl_appl, incl_refl.
  - intros Hnone.
    assert (Hex : existsb (fun i => N.eqb (in_id i) interaction_id)
                          (interaction_nodes (graph st)) = false).
    { destruct (existsb _ _) eqn:E; [|reflexivity].
      apply existsb_exists in E as (i & Hi & E). apply N.eqb_eq in E.
      contradiction (Hnone i Hi E). }
    rewrite Hex. reflexivity.
Qed.

(** X28.  Slice ids count a user's memories: if every user's memory nodes carry
    the slice ids [0, 1, 2, ...] in insertion order, they still do after
    [record_memory_creation], the new node getting the number of memories
    its user had before; its shard lies in [[0, 16)]. *)
Theorem record_memory_creation_slices
        (st st' : Store) (new_memory_id new_embedding_id : UUID)
        (clock : datetime) (interaction_id : UUID) (content user_id : string)
        (memory_type : MemoryType) (vector_ref embedding_model : string)
        (embedding_dim token_count : Z) (criticality : Criticality)
        (m : MemoryNode) (e : EmbeddingNode) :
  slices_sequential st ->
  record_memory_creation py_hash st new_memory_id new_embedding_id clock
    interaction_id content user_id memory_type vector_ref embedding_model
    embedding_dim token_count criticality
  = Ok (m, e, st') ->
  slices_sequential st' /\
  mn_slice_id m
  = Z.of_nat (length (filter (created_by user_id) (memory_nodes st))) /\
  0 <= mn_shard_id m < 16.
Proof.
  intros Hseq. unfold record_memory_creation. cbv zeta.
  destruct (existsb _ _); [|discriminate].
  intros [= <- <- <-]. cbn [mn_slice_id mn_shard_id memory_nodes].
  assert (Hnext : _next_slice_id st user_id
                  = Z.of_nat (length (filter (created_by user_id)
                                             (memory_nodes st)))).
  { unfold _next_slice_id. rewrite (Hseq user_id). apply next_after_seq. }
  split; [|split; [exact Hnext|apply Z.mod_pos_bound; reflexivity]].
  intros u. cbn [memory_nodes].
  match goal with
  | |- context [memory_nodes st ++ [?n]] => set (node := n)
  end.
  assert (Hf : filter (created_by u) (memory_nodes st ++ [node])
               = if String.eqb user_id u
                 then filter (created_by u) (memory_nodes st) ++ [node]
                 else filter (created_by u) (memory_nodes st)).
  { rewrite filter_app. cbn [filter]. unfold created_by at 2.
    subst node. cbn [mn_created_by_user_id].
    destruct (String.eqb user_id u); [reflexivity|apply app_nil_r]. }
  rewrite Hf. destruct (String.eqb_spec user_id u) as [<-|_]; [|apply Hseq].
  rewrite map_app, length_app, Nat.add_1_r, seq_S, map_app, (Hseq user_id).
  subst node. cbn [map mn_slice_id Nat.add]. rewrite Hnext. reflexivity.
Qed.

End RecorderFacts.

(** *** [record_consolidation] *)

Lemma fold_add_derivation_edges (f : UUID -> DerivationEdge)
      (ids : list UUID) (g : Graph) :
  let g' := fold_left (fun acc x => add_derivation_edge acc (f x)) ids g in
  derivation_edges g' = derivation_edges g ++ map f ids /\
  interaction_nodes g' = interaction_nodes g /\
  creation_edges g' = creation_edges g /\
  attribution_edges g' = attribution_edges g.
Proof.
  revert g. induction ids as [|x ids IH]; intros g; simpl.
  - rewrite app_nil_r. repeat split.
  - destruct (IH (add_derivation_edge g (f x))) as (Hd & Hi & Hc & Ha).
    rewrite Hd, Hi, Hc, Ha. simpl. rewrite <- app_assoc. repeat split.
Qed.

(** X29.  The footprints after a consolidation, the new summary id not yet being
    the source of a derivation edge: every footprint keeps what it held,
    and gains the summary exactly when it held one of the source ids.  So a
    summary of memories of several users lies in the footprint of each of
    them. *)
Theorem record_consolidation_footprint
        (st : Store) (new_id : UUID) (clock : datetime)
        (source_memory_ids : list UUID) (summary_content method : string)
        (u : string) (x : footprint_row) :
  (forall de, In de (derivation_edges (graph st)) -> de_source_id de <> new_id) ->
  (In x (user_footprint
           (graph (snd (record_consolidation st new_id clock source_memory_ids
                                             summary_content method))) u)
   <->
   In x (user_footprint (graph st) u) \/
   (x = (new_id, summary) /\
    exists m ty, In m source_memory_ids /\
                 In (m, ty) (user_footprint (graph st) u))).
Proof.
  intros Hfresh. unfold record_consolidation. cbv zeta. simpl snd. simpl graph.
  cbn [sn_id].
  match goal with
  | |- context [fold_left ?f ?l ?g0] =>
      destruct (fold_add_derivation_edges (consolidation_edge new_id clock) l g0)
        as (Hd & Hi & Hc & _);
      change (fold_left f l g0)
        with (fold_left (fun acc x => add_derivation_edge
                                        acc (consolidation_edge new_id clock x))
                        l g0)
  end.
  cbv zeta in Hd, Hi, Hc.
  set (g' := fold_left _ source_memory_ids (graph st)) in *.
  rewrite !user_footprint_reaches. split.
  - induction 1 as [ce i Hce Hin E1 E2|de uf _ IH Hde E].
    + left. rewrite Hc in Hce. rewrite Hi in Hin.
      apply (@reach_base (graph st) u ce i Hce Hin E1 E2).
    + rewrite Hd in Hde. apply in_app_or in Hde as [Hde|Hde].
      * destruct IH as [IH|[-> _]].
        -- left. apply (@reach_step (graph st) u de uf IH Hde E).
        -- contradiction (Hfresh de Hde E).
      * apply in_map_iff in Hde as (m & <- & Hm). simpl in E. right.
        split; [reflexivity|].
        destruct IH as [IH|[-> (m' & ty & Hm' & Hreach)]].
        -- exists m, (snd uf). split; [exact Hm|].
           apply user_footprint_reaches. rewrite E.
           rewrite <- surjective_pairing. exact IH.
        -- exists m', ty. split; assumption.
  - intros [H|[-> (m & ty & Hm & Hreach)]].
    + apply (@reaches_monotone (graph st) g' u x); try exact H.
      * rewrite Hi. apply incl_refl.
      * rewrite Hc. apply incl_refl.
      * rewrite Hd. apply incl_appl, incl_refl.
    + apply user_footprint_reaches in Hreach.
      apply (@reach_step g' u (consolidation_edge new_id clock m) (m, ty)).
      * apply (@reaches_monotone (graph st) g' u (m, ty)); try exact Hreach.
        -- rewrite Hi. apply incl_refl.
        -- rewrite Hc. apply incl_refl.
        -- rewrite Hd. apply incl_appl, incl_refl.
      * rewrite Hd. apply in_or_app. right. apply in_map. exact Hm.
      * reflexivity.
Qed.

Lemma record_memory_creation_footprint_witness :
  exists m e st',
    record_memory_creation (fun _ => 5) alice_store 10%N 20%N 1 1%N
                           "c" "bob" raw "v" "model" 384 3 normal
    = Ok (m, e, st') /\
    In 10%N (memory_node_ids (compute_user_footprint (graph st') "alice")).
Proof.
  destruct (proj1 (@record_memory_creation_footprint
                     (fun _ => 5) alice_store 10%N 20%N 1 1%N
                     "c" "bob" raw "v" "model" 384 3 normal)
                  alice_interaction (or_introl eq_refl) eq_refl)
    as (m & e & st' & Hrec & _ & _ & Hmem & _).
  exists m, e, st'. split; assumption.
Defined.

Lemma record_memory_creation_slices_witness :
  exists m e st',
    record_memory_creation (fun _ => 5) alice_store 10%N 20%N 1 1%N
                           "c" "bob" raw "v" "model" 384 3 normal
    = Ok (m, e, st') /\
    mn_slice_id m = 0 /\ slices_sequential st'.
Proof.
  destruct (record_memory_creation (fun _ => 5) alice_store 10%N 20%N 1 1%N
                                   "c" "bob" raw "v" "model" 384 3 normal)
    as [[[m e] st']|err] eqn:E; [|vm_compute in E; discriminate].
  exists m, e, st'. split; [reflexivity|].
  destruct (@record_memory_creation_slices
              (fun _ => 5) alice_store st' 10%N 20%N 1 1%N
              "c" "bob" raw "v" "model" 384 3 normal m e
              (fun u => eq_refl) E)
    as (Hseq & Hslice & _).
  split; [exact Hslice|exact Hseq].
Defined.

Lemma record_consolidation_footprint_witness :
  In (30%N, summary)
     (user_footprint
        (graph (snd (record_consolidation alice_store_1 30%N 2 [10%N]
                                          "s" "llm_consolidation")))
        "alice").
Proof.
  apply (proj2 (@record_consolidation_footprint
                  alice_store_1 30%N 2 [10%N] "s" "llm_consolidation" "alice"
                  (30%N, summary)
                  ltac:(intros de Hde; vm_compute in Hde;
                        destruct Hde as [<-|[]]; discriminate))).
  right. split; [reflexivity|]. exists 10%N, memory.
  split; [left; reflexivity|]. vm_compute. left. reflexivity.
Defined.

End ProvenanceFacts.
